(** * JoystickGremlin: session orchestrator and input repeater

    A shallow embedding of the two classes of [joystick_gremlin.py] that
    carry the runtime logic, [CodeRunner] and [Repeater], together with the
    properties of the design document that concern them.

    Conventions.  Python objects that are shared and mutated are modelled by
    explicit state: the process-wide singletons ([EventListener], the
    [input_devices.callback_registry] global) are fields of the state
    record next to the object's own attributes, and [threading.Timer] /
    [threading.Thread] objects live in a store indexed by their identity.
    The repeater is modelled twice.  In [Repeater] one call of a method,
    one firing of a timer and one iteration of the worker loop are each
    one step: the program as it runs when nothing interrupts them.  In
    [Interleaving] one statement is one step and the statements of the
    threads come in any order, since the class takes no lock; the steps
    of [Repeater] are the runs of [Interleaving] in which calls and
    iterations follow one another. *)

From Stdlib Require Import QArith Qabs OrdersEx.
From stdpp Require Import gmap strings list fin_maps sorting.

Close Scope Q_scope.

(** ** Events *)

(** [InputType]: the four kinds of input the program distinguishes. *)
Inductive InputType := Keyboard | JoystickAxis | JoystickButton | JoystickHat.

#[global] Instance InputType_eq_dec : EqDecision InputType.
Proof. solve_decision. Defined.

Definition InputType_to_nat (t : InputType) : nat :=
  match t with
  | Keyboard => 0 | JoystickAxis => 1 | JoystickButton => 2 | JoystickHat => 3
  end.

Definition InputType_of_nat (n : nat) : option InputType :=
  match n with
  | 0 => Some Keyboard | 1 => Some JoystickAxis
  | 2 => Some JoystickButton | 3 => Some JoystickHat
  | _ => None
  end.

#[global] Instance InputType_countable : Countable InputType.
Proof.
  apply (inj_countable InputType_to_nat InputType_of_nat).
  by intros [].
Defined.

(** Modelled from the spec: the payload of an [Event] (section 3),
    pressed/released for keys and buttons, a position for an axis, a
    direction pair for a hat. *)
Inductive Payload :=
| Pressed (is_pressed : bool)
| AxisValue (value : Q)
| HatValue (x y : Z).

#[global] Instance Q_eq_dec : EqDecision Q.
Proof. solve_decision. Defined.

#[global] Instance Payload_eq_dec : EqDecision Payload.
Proof. solve_decision. Defined.

(** Modelled from the spec: the [Event] record of [gremlin.event_handler]
    (section 3 of the design document: hardware id, event type, identifier
    and a payload appropriate to the type). *)
Record Event := mkEvent {
  hardware_id : nat;
  event_type : InputType;
  identifier : nat;
  payload : Payload
}.

#[global] Instance Event_eq_dec : EqDecision Event.
Proof. solve_decision. Defined.

(** Modelled from the spec: the event-key under which the callbacks for an
    event are stored, its type and identifier. *)
Definition EventKey : Type := InputType * nat.

Definition event_key (e : Event) : EventKey := (event_type e, identifier e).

(** The two signals of the event listener, [keyboard_event] and
    [joystick_event]. *)
Inductive Channel := keyboard_channel | joystick_channel.

(** ** The session orchestrator: class [CodeRunner] *)

Module CodeRunner.

(** A compiled callback: the pair the generated code stores, read by
    [start] as [callback[0]] and [callback[1]].  Closures are named by
    numbers. *)
Definition Callback : Type := nat * nat.

(** The key of the engine's registry: device, mode, event. *)
Definition Key : Type := nat * string * EventKey.

(** [input_devices.callback_registry]: a dict of dicts of dicts of lists,
    [hardware_id -> mode -> event -> callback_list].  [start] walks it
    with [.items()], so the order of the entries matters: association
    lists, in iteration order. *)
Definition EventTable : Type := list (EventKey * list Callback).
Definition ModeTable : Type := list (string * EventTable).
Definition Table : Type := list (nat * ModeTable).

(** Modelled from the spec: the Mode-Dispatch Engine, class
    [EventHandler] of [gremlin.event_handler] (section 2: an active mode
    name, a mapping from (device, mode, event-key) to ordered callback
    lists, and a pause/resume flag). *)
Record EventHandler := mkEventHandler {
  callbacks : gmap Key (list Callback);
  _active_mode : string;
  _previous_mode : string;
  is_active : bool
}.

(** Modelled from the spec: [EventHandler.add_callback], the
    [register_callback(hardware_id, mode, event_key, callback)] of section
    6; the callback is put at the end of the list of its key. *)
Definition add_callback (hid : nat) (mode : string) (event : EventKey)
    (c0 c1 : nat) (eh : EventHandler) : EventHandler :=
  let k : Key := (hid, mode, event) in
  mkEventHandler
    (<[k := default [] (callbacks eh !! k) ++ [(c0, c1)]]> (callbacks eh))
    (_active_mode eh) (_previous_mode eh) (is_active eh).

(** Modelled from the spec: [EventHandler.clear], the [clear_registry()]
    of section 6. *)
Definition clear (eh : EventHandler) : EventHandler :=
  mkEventHandler ∅ (_active_mode eh) (_previous_mode eh) (is_active eh).

(** Modelled from the spec: [EventHandler.change_mode], the
    [set_mode(name)] of section 6. *)
Definition change_mode (name : string) (eh : EventHandler) : EventHandler :=
  mkEventHandler (callbacks eh) name (_previous_mode eh) (is_active eh).

(** Modelled from the spec: [EventHandler.resume], which marks dispatch
    active. *)
Definition resume (eh : EventHandler) : EventHandler :=
  mkEventHandler (callbacks eh) (_active_mode eh) (_previous_mode eh) true.

(** Modelled from the spec: [EventHandler.process_event], the
    single-event dispatch: the callbacks stored for the event's device and
    key under the active mode fire, in the order of their list; nothing
    fires while dispatch is paused or when the key has no entry. *)
Definition process_event (e : Event) (eh : EventHandler) : list Callback :=
  if is_active eh
  then default [] (callbacks eh !! (hardware_id e, _active_mode eh, event_key e))
  else [].

(** The slots connected to the listener's signals. *)
Inductive Slot :=
| slot_process_event      (* self.event_handler.process_event *)
| slot_kb_keyboard_event  (* input_devices.Keyboard().keyboard_event *)
| slot_other (n : nat).   (* slots of other components *)

#[global] Instance Slot_eq_dec : EqDecision Slot.
Proof. solve_decision. Defined.

(** Modelled from the spec: [signal.connect], the
    [subscribe(channel, handler)] of section 6. *)
Definition connect (s : Slot) (signal : list Slot) : list Slot :=
  signal ++ [s].

(** Modelled from the spec: [signal.disconnect], the
    [unsubscribe(channel, handler)] of section 6: one connection of the
    slot is removed. *)
Fixpoint disconnect (s : Slot) (signal : list Slot) : list Slot :=
  match signal with
  | [] => []
  | s' :: rest => if decide (s' = s) then rest else s' :: disconnect s rest
  end.

(** Modelled from the spec: [signal.emit(event)], the
    [emit(channel, event)] of section 6: every connection of the signal
    is called with the event, in the order of connection, a slot that is
    connected twice twice.  What is kept is the callbacks of the engine
    that fire: a call of [process_event] fires those of the event's key,
    the other slots fire none. *)
Definition emit (e : Event) (signal : list Slot) (eh : EventHandler)
    : list Callback :=
  slot ← signal;
  match slot with
  | slot_process_event => process_event e eh
  | _ => []
  end.

(** The runner with what it shares with the rest of the process. *)
Record State := mkState {
  _running : bool;                 (* self._running *)
  event_handler : EventHandler;    (* self.event_handler *)
  callback_registry : Table;       (* input_devices.callback_registry *)
  keyboard_event : list Slot;      (* EventListener().keyboard_event *)
  joystick_event : list Slot;      (* EventListener().joystick_event *)
  displayed_errors : list string   (* what util.display_error showed *)
}.

(** Modelled from the spec: [EventHandler()], an engine with an empty
    registry, in the global mode, not dispatching. *)
Definition new_EventHandler : EventHandler :=
  mkEventHandler ∅ "global"%string "global"%string false.

(** [CodeRunner.__init__]: a fresh handler, not running.  The table and
    the connections of the two signals belong to the process. *)

Definition init (registry : Table) (kb js : list Slot) : State :=
  mkState false new_EventHandler registry kb js [].

(** [CodeRunner._reset_state]. *)
Definition _reset_state (eh : EventHandler) : EventHandler :=
  mkEventHandler (callbacks eh) "global"%string "global"%string (is_active eh).

(** What [import gremlin_code; importlib.reload(gremlin_code)] does.  The
    generated module and the modules it imports fill
    [input_devices.callback_registry] while they are executed; the import
    returns, or it raises at some point: [ImportError], which [start]
    catches, or any other exception of the code that is executed, which
    it does not.  In every case [registry] is what the global holds
    afterwards and [e] is [str(e)]. *)
Inductive ImportResult :=
| Imported (registry : Table)
| ImportError (e : string) (registry : Table)
| OtherException (e : string) (registry : Table).

(** How a call ends for its caller: the function returns, and [start]
    has no [return] statement, so what it returns is [None] on every
    path; or an exception that nothing in it catches leaves it. *)
Inductive Outcome :=
| Returns_None
| Raises (e : string).

(** The four nested [for] loops of [start], innermost first.  The local
    [callback_count] is only incremented and never read; it is left
    out. *)
Definition add_callback_list (hid : nat) (mode : string) (event : EventKey)
    (callback_list : list Callback) (eh : EventHandler) : EventHandler :=
  fold_left (fun eh callback =>
               add_callback hid mode event callback.1 callback.2 eh)
            callback_list eh.

Definition add_events (hid : nat) (mode : string) (cbs : EventTable)
    (eh : EventHandler) : EventHandler :=
  fold_left (fun eh '(event, callback_list) =>
               add_callback_list hid mode event callback_list eh)
            cbs eh.

Definition add_modes (hid : nat) (modes : ModeTable)
    (eh : EventHandler) : EventHandler :=
  fold_left (fun eh '(mode, cbs) => add_events hid mode cbs eh) modes eh.

Definition add_registry (registry : Table) (eh : EventHandler) : EventHandler :=
  fold_left (fun eh '(hid, modes) => add_modes hid modes eh) registry eh.

(** [CodeRunner.start]: the state in which the call leaves the runner
    and the process. *)
Definition start (imp : ImportResult) (s : State) : State :=
  (* Reset states to their default values *)
  let eh := _reset_state (event_handler s) in
  match imp with
  | Imported registry =>
      (* Create callbacks *)
      let eh := add_registry registry eh in
      (* Connect signals *)
      let kb := connect slot_process_event (keyboard_event s) in
      let js := connect slot_process_event (joystick_event s) in
      let kb := connect slot_kb_keyboard_event kb in
      let eh := change_mode "global"%string eh in
      let eh := resume eh in
      mkState true eh registry kb js (displayed_errors s)
  | ImportError e registry =>
      (* except ImportError as e *)
      mkState (_running s) eh registry
              (keyboard_event s) (joystick_event s)
              (displayed_errors s ++
                 ["Unable to launch due to missing custom modules: " +:+ e]%string)
  | OtherException e registry =>
      (* no handler: the rest of the [try] block is skipped *)
      mkState (_running s) eh registry
              (keyboard_event s) (joystick_event s) (displayed_errors s)
  end.

(** [CodeRunner.start]: how the call ends for the caller.  The handler
    of [ImportError] ends by falling off the function, as the [try]
    block does. *)
Definition start_outcome (imp : ImportResult) : Outcome :=
  match imp with
  | Imported _ => Returns_None
  | ImportError _ _ => Returns_None
  | OtherException e _ => Raises e
  end.

(** [CodeRunner.stop]. *)
Definition stop (s : State) : State :=
  (* Disconnect all signals *)
  let '(kb, js) :=
    if _running s then
      let kb := disconnect slot_process_event (keyboard_event s) in
      let js := disconnect slot_process_event (joystick_event s) in
      let kb := disconnect slot_kb_keyboard_event kb in
      (kb, js)
    else (keyboard_event s, joystick_event s) in
  (* Empty callback registry *)
  mkState (_running s) (clear (event_handler s)) [] kb js
          (displayed_errors s).

(** The entries of a table in the order in which [start] visits them. *)
Definition registrations (registry : Table) : list (Key * Callback) :=
  '(hid, modes) ← registry;
  '(mode, cbs) ← modes;
  '(event, callback_list) ← cbs;
  (fun callback => ((hid, mode, event), callback)) <$> callback_list.

(** One call of [add_callback] as [start] makes it. *)
Definition add_registration (eh : EventHandler) (kc : Key * Callback)
    : EventHandler :=
  add_callback kc.1.1.1 kc.1.1.2 kc.1.2 kc.2.1 kc.2.2 eh.

(** The callbacks a table holds for one key, in table order. *)
Definition callbacks_for (k : Key) (registry : Table) : list Callback :=
  snd <$> filter (fun kc => kc.1 = k) (registrations registry).

(** The list a table holds under a key, read as the dicts are read:
    [callback_registry[hid][mode][event]]. *)
Fixpoint assoc {K V} `{EqDecision K} (k : K) (l : list (K * V)) : option V :=
  match l with
  | [] => None
  | (k', v) :: rest => if decide (k' = k) then Some v else assoc k rest
  end.

Definition entry (registry : Table) (k : Key) : option (list Callback) :=
  modes ← assoc k.1.1 registry;
  cbs ← assoc k.1.2 modes;
  assoc k.2 cbs.

(** A table is the image of nested dicts when no key occurs twice at any
    level. *)
Definition dict_like (registry : Table) : Prop :=
  NoDup registry.*1 ∧
  Forall (fun hm : nat * ModeTable =>
            NoDup hm.2.*1 ∧
            Forall (fun mc : string * EventTable => NoDup mc.2.*1) hm.2)
         registry.

(** The states a runner goes through, from a fresh process. *)
Inductive Call := call_start (imp : ImportResult) | call_stop.

Definition step (s : State) (c : Call) : State :=
  match c with
  | call_start imp => start imp s
  | call_stop => stop s
  end.

Definition exec (calls : list Call) (s : State) : State :=
  fold_left step calls s.

(** A sample table: one button of device 1 bound in the global mode. *)
Definition sample_key : Key := (1, "global"%string, (JoystickButton, 3)).
Definition sample_table : Table :=
  [(1, [("global"%string, [((JoystickButton, 3), [(10, 0)])])])].

(** Two callbacks under one key. *)
Definition ordered_table : Table :=
  [(1, [("global"%string, [((JoystickButton, 3), [(10, 0); (11, 0)])])])].

Definition fresh : State := init [] [] [].

(** A runner that is not running while callbacks are registered. *)
Definition loaded_idle : State :=
  mkState false
          (add_callback 1 "global"%string (JoystickButton, 3) 10 0
                        new_EventHandler)
          sample_table [] [] [].

Definition button_3 : Event := mkEvent 1 JoystickButton 3 (Pressed true).

End CodeRunner.

(** ** The input repeater: class [Repeater] *)

Module Repeater.

(** What a [threading.Timer] of the repeater calls when it fires. *)
Inductive TimerFunction :=
| fn_run     (* self.run *)
| fn_stop.   (* self.stop *)

(** The life of a [threading.Timer]: created, started and waiting,
    cancelled before it fired, or fired. *)
Inductive TimerStatus :=
| timer_new | timer_started | timer_cancelled | timer_fired.

Record Timer := mkTimer {
  interval : Q;                (* seconds *)
  function : TimerFunction;
  timer_status : TimerStatus
}.

(** What the target of a worker thread can raise. *)
Inductive Exception := IndexError | ZeroDivisionError.

(** The life of a [threading.Thread] whose target is [emit_events]:
    created, inside the loop with its local [index], returned, or ended
    by an exception. *)
Inductive Thread :=
| thread_new
| thread_alive (index : nat)
| thread_finished
| thread_raised (e : Exception).

(** One emission: the thread that made it, the signal, the event. *)
Definition Emission : Type := nat * Channel * Event.

(** The repeater, the timer and thread objects it created (an attribute
    holds the position of its object in the store), and what went out on
    the listener's signals. *)
Record State := mkState {
  is_running : bool;           (* self.is_running *)
  _events : list Event;        (* self._events *)
  _thread : nat;               (* self._thread *)
  _start_timer : nat;          (* self._start_timer *)
  _stop_timer : nat;           (* self._stop_timer *)
  threads : list Thread;
  timers : list Timer;
  emitted : list Emission
}.

(** [Repeater.__init__]: one thread and two timers are created and none
    is started. *)
Definition init (events : list Event) : State :=
  mkState false events 0 0 1
          [thread_new]
          [mkTimer 1 fn_run timer_new; mkTimer 5 fn_stop timer_new]
          [].

(** [GremlinUi.__init__]: [self.repeater = Repeater([])]. *)
Definition GremlinUi_repeater : State := init [].

(** [Timer.cancel]: a timer that has not fired never will. *)
Definition cancel (t : Timer) : Timer :=
  match timer_status t with
  | timer_fired => t
  | _ => mkTimer (interval t) (function t) timer_cancelled
  end.

(** [Timer.start]. *)
Definition start_timer (t : Timer) : Timer :=
  match timer_status t with
  | timer_new => mkTimer (interval t) (function t) timer_started
  | _ => t
  end.

Definition fired (t : Timer) : Timer :=
  mkTimer (interval t) (function t) timer_fired.

(** [Thread.start]: the thread enters [emit_events], whose first
    statement is [index = 0]. *)
Definition start_thread (t : Thread) : Thread :=
  match t with
  | thread_new => thread_alive 0
  | _ => t
  end.

(** [Thread.is_alive]. *)
Definition is_alive (w : nat) (s : State) : bool :=
  match threads s !! w with
  | Some (thread_alive _) => true
  | _ => false
  end.

Definition with_threads (ts : list Thread) (s : State) : State :=
  mkState (is_running s) (_events s) (_thread s) (_start_timer s)
          (_stop_timer s) ts (timers s) (emitted s).

Definition with_timers (ts : list Timer) (s : State) : State :=
  mkState (is_running s) (_events s) (_thread s) (_start_timer s)
          (_stop_timer s) (threads s) ts (emitted s).

(** The setter of the [events] property. *)
Definition set_events (events : list Event) (s : State) : State :=
  if is_running s || (length events =? 0) then s
  else
    (* self._start_timer always holds a Timer object, which is true *)
    let ts := alter cancel (_start_timer s) (timers s) in
    let new := length ts in
    let ts := ts ++ [mkTimer 1 fn_run timer_new] in
    let ts := alter start_timer new ts in
    mkState (is_running s) events (_thread s) new (_stop_timer s)
            (threads s) ts (emitted s).

(** [Repeater.stop]. *)
Definition stop (s : State) : State :=
  mkState false (_events s) (_thread s) (_start_timer s) (_stop_timer s)
          (threads s) (timers s) (emitted s).

(** [Repeater.run]. *)
Definition run (s : State) : State :=
  if is_alive (_thread s) s then s
  else
    let new_timer := length (timers s) in
    let ts := timers s ++ [mkTimer 5 fn_stop timer_new] in
    let ts := alter start_timer new_timer ts in
    let new_thread := length (threads s) in
    let ws := threads s ++ [thread_new] in
    let ws := alter start_thread new_thread ws in
    mkState true (_events s) new_thread (_start_timer s) new_timer
            ws ts (emitted s).

(** The signal an event goes out on: decided by [self.events[0]]. *)
Definition channel_of (first : Event) : Channel :=
  if decide (event_type first = Keyboard) then keyboard_channel
  else joystick_channel.

(** The body of the [while] loop of [emit_events], run by thread [w]
    whose local [index] is given: the emissions after it, and the new
    [index] or the exception that ends the thread. *)
Definition emit_body (w index : nat) (s : State)
    : list Emission * (Exception + nat) :=
  match _events s !! 0 with
  | None => (emitted s, inl IndexError)
  | Some first =>
      match _events s !! index with
      | None => (emitted s, inl IndexError)
      | Some e =>
          let out := emitted s ++ [(w, channel_of first, e)] in
          if length (_events s) =? 0 then (out, inl ZeroDivisionError)
          else (out, inr ((index + 1) mod length (_events s)))
      end
  end.

(** One turn of thread [w] in [emit_events]: the test of the loop and,
    when it holds, the body (the half-second sleep included), with
    nothing coming in between; [Interleaving.worker_step] takes the
    statements one by one. *)
Definition emit_events_step (w : nat) (s : State) : State :=
  match threads s !! w with
  | Some (thread_alive index) =>
      if is_running s then
        let '(out, r) := emit_body w index s in
        let t := match r with
                 | inr index' => thread_alive index'
                 | inl e => thread_raised e
                 end in
        mkState (is_running s) (_events s) (_thread s) (_start_timer s)
                (_stop_timer s) (<[w := t]> (threads s)) (timers s) out
      else with_threads (<[w := thread_finished]> (threads s)) s
  | _ => s
  end.

(** A started timer fires: its function is called. *)
Definition fire (t : nat) (s : State) : State :=
  match timers s !! t with
  | Some tm =>
      match timer_status tm with
      | timer_started =>
          let s := with_timers (<[t := fired tm]> (timers s)) s in
          match function tm with
          | fn_run => run s
          | fn_stop => stop s
          end
      | _ => s
      end
  | None => s
  end.

(** What can happen to a repeater, when a call that has begun is
    finished before anything else happens; [Interleaving.Action] has the
    statements of the calls. *)
Inductive Action :=
| call_set_events (events : list Event)   (* repeater.events = events *)
| call_stop                               (* repeater.stop() *)
| call_run                                (* repeater.run() *)
| timer_fires (t : nat)
| thread_turn (w : nat).

#[global] Instance Action_eq_dec : EqDecision Action.
Proof. solve_decision. Defined.

Definition step (s : State) (a : Action) : State :=
  match a with
  | call_set_events events => set_events events s
  | call_stop => stop s
  | call_run => run s
  | timer_fires t => fire t s
  | thread_turn w => emit_events_step w s
  end.

Definition exec (acts : list Action) (s : State) : State :=
  fold_left step acts s.

(** The events thread [w] has emitted so far, oldest first. *)
Definition emitted_by (w : nat) (s : State) : list (Channel * Event) :=
  (fun em : Emission => (em.1.2, em.2)) <$>
    filter (fun em : Emission => em.1.1 = w) (emitted s).

(** The turns of thread [w] among some actions. *)
Definition turns_of (w : nat) (acts : list Action) : nat :=
  length (filter (fun a => a = thread_turn w) acts).

(** The flag [is_running] is set after every one of the actions. *)
Fixpoint stays_running (acts : list Action) (s : State) : bool :=
  match acts with
  | [] => true
  | a :: rest => is_running (step s a) && stays_running rest (step s a)
  end.

(** The first [n] elements of the endless repetition of a list. *)
Definition cycle (events : list Event) (n : nat) : list Event :=
  omap (fun i => events !! (i mod length events)) (seq 0 n).

(** The threads that are alive. *)
Definition alive (s : State) : list nat :=
  filter (fun w => is_alive w s = true) (seq 0 (length (threads s))).

(** The worker [w] is the repeater's thread, it is in the loop after
    [n] emissions, and the repeater is running on [events]. *)
Definition emitting (events : list Event) (w n : nat) (s : State) : Prop :=
  is_running s = true ∧ _events s = events ∧ _thread s = w ∧
  threads s !! w = Some (thread_alive (n mod length events)).

Definition turn_count (w : nat) (a : Action) : nat :=
  if decide (a = thread_turn w) then 1 else 0.

(** No timer but the one [_start_timer] refers to is waiting to call
    [run]. *)
Definition sole_debounce (s : State) : Prop :=
  ∀ t tm, timers s !! t = Some tm →
          function tm = fn_run → timer_status tm = timer_started →
          t = _start_timer s.

(** Every timer has the interval of its kind: one second before [run],
    five seconds before [stop]. *)
Definition fixed_intervals (s : State) : Prop :=
  ∀ t tm, timers s !! t = Some tm →
          interval tm = match function tm with
                        | fn_run => 1%Q
                        | fn_stop => 5%Q
                        end.

(** Sample events: a key and a button. *)
Definition key_A : Event := mkEvent 0 Keyboard 30 (Pressed false).
Definition key_B : Event := mkEvent 0 Keyboard 30 (Pressed true).
Definition button_C : Event := mkEvent 1 JoystickButton 3 (Pressed true).

End Repeater.

(** ** The repeater, statement by statement *)

Module Interleaving.

(** The methods of a [Repeater] run in several threads: the setter of
    [events] in the thread of the window, [run] and [stop] in the thread
    of the timer that calls them, [emit_events] in the worker thread; the
    class takes no lock.  Here one step is one statement of one of these
    methods, and the statements of different threads come in any order.
    The test of [run] is two steps, the read of [self._thread] and the
    call of [is_alive] on the thread that was read, since another call
    of [run] can replace the thread in between.  Every other statement
    touches the attributes of the repeater once, or calls a method of the
    object it has just read from an attribute that only calls of the same
    method write, so that it differs from its parts only where calls of
    that method overlap.  [Repeater.step] is the special case in which a
    call, once begun, is not interrupted (see [uninterrupted]). *)

(** The life of a [threading.Timer]: [start] raises [RuntimeError] on a
    timer that was started before, [cancel] keeps a timer whose interval
    has not passed from calling its function, also when it is started
    later. *)
Inductive Clock :=
| clock_new             (* created *)
| clock_new_cancelled   (* cancelled, never started *)
| clock_waiting         (* started, the interval has not passed *)
| clock_cancelled       (* started, and cancelled before the interval passed *)
| clock_called.         (* the interval has passed: the function is called *)

Record Timer := mkTimer {
  interval : Q;                          (* seconds *)
  function : Repeater.TimerFunction;
  clock : Clock
}.

(** [Timer.cancel]. *)
Definition cancel (t : Timer) : Timer :=
  match clock t with
  | clock_new => mkTimer (interval t) (function t) clock_new_cancelled
  | clock_waiting => mkTimer (interval t) (function t) clock_cancelled
  | _ => t
  end.

(** [Timer.start]; [None] stands for [RuntimeError]. *)
Definition start_timer (t : Timer) : option Timer :=
  match clock t with
  | clock_new => Some (mkTimer (interval t) (function t) clock_waiting)
  | clock_new_cancelled =>
      Some (mkTimer (interval t) (function t) clock_cancelled)
  | _ => None
  end.

(** A thread whose target is [emit_events]: created, about to execute
    one of the four statements of the loop with its local [index] (and,
    between the [if] and the [emit], the signal the [if] has chosen),
    returned, or ended by an exception. *)
Inductive Worker :=
| worker_new
| at_while (index : nat)              (* while self.is_running: *)
| at_if (index : nat)                 (* if self.events[0].event_type == ...: *)
| at_emit (index : nat) (c : Channel) (* el.<c>.emit(self._events[index]) *)
| at_index (index : nat)              (* index = (index + 1) % len(self._events) *)
| worker_returned
| worker_raised (e : Repeater.Exception).

(** [Thread.start]; [None] stands for [RuntimeError].  The thread enters
    [emit_events], whose first statements, [index = 0] and
    [el = EventListener()], touch nothing that is shared. *)
Definition start_thread (x : Worker) : option Worker :=
  match x with
  | worker_new => Some (at_while 0)
  | _ => None
  end.

(** The methods of the repeater that are called from outside. *)
Inductive Method :=
| m_set_events (events : list Event)   (* repeater.events = events *)
| m_stop                               (* repeater.stop() *)
| m_run.                               (* repeater.run() *)

#[global] Instance Method_eq_dec : EqDecision Method.
Proof. solve_decision. Defined.

(** A call of a method in its thread: the statement it is about to
    execute, or how it has ended. *)
Inductive Pc :=
| set_test (events : list Event)    (* if self.is_running or len(events) == 0: return *)
| set_store (events : list Event)   (* self._events = events *)
| set_cancel                        (* if self._start_timer: self._start_timer.cancel() *)
| set_new_timer                     (* self._start_timer = threading.Timer(1.0, self.run) *)
| set_start_timer                   (* self._start_timer.start() *)
| stop_assign                       (* self.is_running = False *)
| run_read                          (* if self._thread ... : the attribute is read *)
| run_test (t : nat)                (* if ... .is_alive(): return *)
| run_assign                        (* self.is_running = True *)
| run_new_timer                     (* self._stop_timer = threading.Timer(5.0, self.stop) *)
| run_start_timer                   (* self._stop_timer.start() *)
| run_new_thread                    (* self._thread = threading.Thread(target=self.emit_events) *)
| run_start_thread                  (* self._thread.start() *)
| call_returned
| call_raised.                      (* RuntimeError *)

(** The repeater, the objects it created, the calls of its methods and
    what went out on the listener's signals. *)
Record State := mkState {
  is_running : bool;           (* self.is_running *)
  _events : list Event;        (* self._events *)
  _thread : nat;               (* self._thread *)
  _start_timer : nat;          (* self._start_timer *)
  _stop_timer : nat;           (* self._stop_timer *)
  workers : list Worker;
  timers : list Timer;
  calls : list Pc;
  emitted : list Repeater.Emission
}.

(** [Repeater.__init__]. *)
Definition init (events : list Event) : State :=
  mkState false events 0 0 1
          [worker_new]
          [mkTimer 1 Repeater.fn_run clock_new;
           mkTimer 5 Repeater.fn_stop clock_new]
          [] [].

Definition with_is_running (b : bool) (s : State) : State :=
  mkState b (_events s) (_thread s) (_start_timer s) (_stop_timer s)
          (workers s) (timers s) (calls s) (emitted s).

Definition with_workers (ws : list Worker) (s : State) : State :=
  mkState (is_running s) (_events s) (_thread s) (_start_timer s)
          (_stop_timer s) ws (timers s) (calls s) (emitted s).

Definition with_timers (ts : list Timer) (s : State) : State :=
  mkState (is_running s) (_events s) (_thread s) (_start_timer s)
          (_stop_timer s) (workers s) ts (calls s) (emitted s).

Definition with_calls (cs : list Pc) (s : State) : State :=
  mkState (is_running s) (_events s) (_thread s) (_start_timer s)
          (_stop_timer s) (workers s) (timers s) cs (emitted s).

(** Call [c] goes on to [p]. *)
Definition jump (c : nat) (p : Pc) (s : State) : State :=
  with_calls (<[c := p]> (calls s)) s.

(** [Thread.is_alive]: from [start] until the target has ended. *)
Definition is_alive (w : nat) (s : State) : bool :=
  match workers s !! w with
  | Some (at_while _) | Some (at_if _) | Some (at_emit _ _)
  | Some (at_index _) => true
  | _ => false
  end.

(** The statement at [p], executed on [s]: where the call goes on, and
    the state the statement leaves.  An attribute that holds a timer or
    a thread refers to an object of the store. *)
Definition statement (p : Pc) (s : State) : Pc * State :=
  match p with
  | set_test events =>
      if is_running s || (length events =? 0) then (call_returned, s)
      else (set_store events, s)
  | set_store events =>
      (set_cancel,
       mkState (is_running s) events (_thread s) (_start_timer s)
               (_stop_timer s) (workers s) (timers s) (calls s) (emitted s))
  | set_cancel =>
      (* self._start_timer always holds a Timer object, which is true *)
      (set_new_timer,
       with_timers (alter cancel (_start_timer s) (timers s)) s)
  | set_new_timer =>
      (set_start_timer,
       mkState (is_running s) (_events s) (_thread s)
               (length (timers s)) (_stop_timer s) (workers s)
               (timers s ++ [mkTimer 1 Repeater.fn_run clock_new])
               (calls s) (emitted s))
  | set_start_timer =>
      match timers s !! _start_timer s ≫= start_timer with
      | Some t =>
          (call_returned, with_timers (<[_start_timer s := t]> (timers s)) s)
      | None => (call_raised, s)
      end
  | stop_assign => (call_returned, with_is_running false s)
  | run_read => (run_test (_thread s), s)
  | run_test t =>
      if is_alive t s then (call_returned, s) else (run_assign, s)
  | run_assign => (run_new_timer, with_is_running true s)
  | run_new_timer =>
      (run_start_timer,
       mkState (is_running s) (_events s) (_thread s)
               (_start_timer s) (length (timers s)) (workers s)
               (timers s ++ [mkTimer 5 Repeater.fn_stop clock_new])
               (calls s) (emitted s))
  | run_start_timer =>
      match timers s !! _stop_timer s ≫= start_timer with
      | Some t =>
          (run_new_thread, with_timers (<[_stop_timer s := t]> (timers s)) s)
      | None => (call_raised, s)
      end
  | run_new_thread =>
      (run_start_thread,
       mkState (is_running s) (_events s) (length (workers s))
               (_start_timer s) (_stop_timer s)
               (workers s ++ [worker_new]) (timers s) (calls s) (emitted s))
  | run_start_thread =>
      match workers s !! _thread s ≫= start_thread with
      | Some x =>
          (call_returned, with_workers (<[_thread s := x]> (workers s)) s)
      | None => (call_raised, s)
      end
  | call_returned => (call_returned, s)
  | call_raised => (call_raised, s)
  end.

(** The thread of call [c] executes one statement. *)
Definition call_step (c : nat) (s : State) : State :=
  match calls s !! c with
  | Some p => let '(p', s') := statement p s in jump c p' s'
  | None => s
  end.

(** The statement of [emit_events] at [x], executed by the thread [w]:
    where the thread goes on, and what has been emitted.  The
    half-second sleep goes with the statement before it. *)
Definition loop_statement (w : nat) (x : Worker) (s : State)
    : Worker * list Repeater.Emission :=
  match x with
  | at_while index =>
      (if is_running s then at_if index else worker_returned, emitted s)
  | at_if index =>
      (match _events s !! 0 with
       | Some first => at_emit index (Repeater.channel_of first)
       | None => worker_raised Repeater.IndexError
       end, emitted s)
  | at_emit index c =>
      match _events s !! index with
      | Some e => (at_index index, emitted s ++ [(w, c, e)])
      | None => (worker_raised Repeater.IndexError, emitted s)
      end
  | at_index index =>
      (if length (_events s) =? 0
       then worker_raised Repeater.ZeroDivisionError
       else at_while ((index + 1) mod length (_events s)), emitted s)
  | worker_new => (worker_new, emitted s)
  | worker_returned => (worker_returned, emitted s)
  | worker_raised e => (worker_raised e, emitted s)
  end.

(** The worker [w] executes one statement. *)
Definition worker_step (w : nat) (s : State) : State :=
  match workers s !! w with
  | Some x =>
      let '(x', out) := loop_statement w x s in
      mkState (is_running s) (_events s) (_thread s) (_start_timer s)
              (_stop_timer s) (<[w := x']> (workers s)) (timers s)
              (calls s) out
  | None => s
  end.

(** The statement a call of a method starts with. *)
Definition entry (m : Method) : Pc :=
  match m with
  | m_set_events events => set_test events
  | m_stop => stop_assign
  | m_run => run_read
  end.

(** The interval of a started timer has passed: the thread of the timer
    calls the function. *)
Definition expire (t : nat) (s : State) : State :=
  match timers s !! t with
  | Some tm =>
      match clock tm with
      | clock_waiting =>
          let m := match function tm with
                   | Repeater.fn_run => m_run
                   | Repeater.fn_stop => m_stop
                   end in
          with_calls
            (calls s ++ [entry m])
            (with_timers
               (<[t := mkTimer (interval tm) (function tm) clock_called]>
                  (timers s)) s)
      | _ => s
      end
  | None => s
  end.

(** What can happen next. *)
Inductive Action :=
| begins (m : Method)     (* a thread calls a method *)
| expires (t : nat)       (* the interval of timer [t] has passed *)
| call_turn (c : nat)     (* the thread of call [c] executes a statement *)
| worker_turn (w : nat).  (* the worker [w] executes a statement *)

#[global] Instance Action_eq_dec : EqDecision Action.
Proof. solve_decision. Defined.

Definition step (s : State) (a : Action) : State :=
  match a with
  | begins m => with_calls (calls s ++ [entry m]) s
  | expires t => expire t s
  | call_turn c => call_step c s
  | worker_turn w => worker_step w s
  end.

Definition exec (acts : list Action) (s : State) : State :=
  fold_left step acts s.

(** The workers that are alive. *)
Definition alive (s : State) : list nat :=
  filter (fun w => is_alive w s = true) (seq 0 (length (workers s))).

(** The events worker [w] has emitted so far, oldest first. *)
Definition emitted_by (w : nat) (s : State) : list (Channel * Event) :=
  (fun em : Repeater.Emission => (em.1.2, em.2)) <$>
    filter (fun em : Repeater.Emission => em.1.1 = w) (emitted s).

(** The statements worker [w] executes among some actions. *)
Definition turns_of (w : nat) (acts : list Action) : nat :=
  length (filter (fun a => a = worker_turn w) acts).

(** The flag [is_running] is unset now and after every one of the
    actions. *)
Fixpoint stays_cleared (acts : list Action) (s : State) : bool :=
  negb (is_running s) &&
  match acts with
  | [] => true
  | a :: rest => stays_cleared rest (step s a)
  end.

(** A call of [run] is past its test and has not ended. *)
Definition past_test (p : Pc) : bool :=
  match p with
  | run_assign | run_new_timer | run_start_timer | run_new_thread
  | run_start_thread => true
  | _ => false
  end.

(** A call of [run] has read [self._thread] and has not ended. *)
Definition in_run (p : Pc) : bool :=
  match p with
  | run_test _ => true
  | _ => past_test p
  end.

(** The calls of [run] that have read [self._thread] and have not
    ended. *)
Definition launching (s : State) : list nat :=
  filter (fun c => from_option in_run false (calls s !! c) = true)
         (seq 0 (length (calls s))).

(** Now and after every one of the actions at most one call of [run] has
    read [self._thread] and not ended: the calls of [run] do not
    overlap. *)
Fixpoint runs_apart (acts : list Action) (s : State) : bool :=
  bool_decide (length (launching s) ≤ 1) &&
  match acts with
  | [] => true
  | a :: rest => runs_apart rest (step s a)
  end.

(** No worker is alive but the one [_thread] refers to, a call of [run]
    that is about to test a thread has read that one, and no worker is
    alive while a call of [run] is past its test. *)
Definition one_launch (s : State) : Prop :=
  (∀ w, is_alive w s = true → w = _thread s) ∧
  (∀ c t, calls s !! c = Some (run_test t) → t = _thread s) ∧
  (∀ c p, calls s !! c = Some p → past_test p = true →
          ∀ w, is_alive w s = false).

(** The event is in the list the repeater was made with or in a list
    that one of the actions assigns to [events]. *)
Definition assigned (events0 : list Event) (acts : list Action) (e : Event)
    : Prop :=
  e ∈ events0 ∨ ∃ events, begins (m_set_events events) ∈ acts ∧ e ∈ events.

(** How many events a worker can still emit before it tests the flag,
    and how many statements it executes at most while the flag is
    unset. *)
Definition owed (x : option Worker) : nat :=
  match x with
  | Some (at_if _) | Some (at_emit _ _) => 1
  | _ => 0
  end.

Definition statements_left (x : option Worker) : nat :=
  match x with
  | Some (at_if _) => 4
  | Some (at_emit _ _) => 3
  | Some (at_index _) => 2
  | Some (at_while _) => 1
  | _ => 0
  end.

(** *** Calls that are not interrupted *)

(** The state of [Repeater] that a state stands for: a worker inside an
    iteration of the loop counts as a worker in the loop. *)
Definition thread_of (x : Worker) : Repeater.Thread :=
  match x with
  | worker_new => Repeater.thread_new
  | at_while index | at_if index | at_emit index _ | at_index index =>
      Repeater.thread_alive index
  | worker_returned => Repeater.thread_finished
  | worker_raised e => Repeater.thread_raised e
  end.

Definition timer_of (t : Timer) : Repeater.Timer :=
  Repeater.mkTimer
    (interval t) (function t)
    match clock t with
    | clock_new => Repeater.timer_new
    | clock_new_cancelled | clock_cancelled => Repeater.timer_cancelled
    | clock_waiting => Repeater.timer_started
    | clock_called => Repeater.timer_fired
    end.

Definition coarse (s : State) : Repeater.State :=
  Repeater.mkState (is_running s) (_events s) (_thread s) (_start_timer s)
                   (_stop_timer s) (thread_of <$> workers s)
                   (timer_of <$> timers s) (emitted s).

(** Every worker is between two iterations of the loop. *)
Definition between_iterations (s : State) : Prop :=
  Forall (fun x => match x with
                   | at_if _ | at_emit _ _ | at_index _ => False
                   | _ => True
                   end) (workers s).

(** The next [n] statements of a call that is at [p]. *)
Fixpoint proceed (n : nat) (p : Pc) (s : State) : Pc * State :=
  match n with
  | 0 => (p, s)
  | S n => let '(p', s') := statement p s in proceed n p' s'
  end.

(** The statements that make up one step of [Repeater], executed without
    interruption: the whole call of a method, the call a timer makes, one
    iteration of the loop. *)
Definition schedule (a : Repeater.Action) (s : State) : list Action :=
  let c := length (calls s) in
  match a with
  | Repeater.call_set_events events =>
      begins (m_set_events events) :: replicate 5 (call_turn c)
  | Repeater.call_stop => [begins m_stop; call_turn c]
  | Repeater.call_run => begins m_run :: replicate 7 (call_turn c)
  | Repeater.timer_fires t => expires t :: replicate 7 (call_turn c)
  | Repeater.thread_turn w => replicate 4 (worker_turn w)
  end.

Fixpoint uninterrupted (acts : list Repeater.Action) (s : State)
    : list Action :=
  match acts with
  | [] => []
  | a :: rest =>
      schedule a s ++ uninterrupted rest (exec (schedule a s) s)
  end.

(** Two timers expire on calls of [run] that overlap: the first is past
    its test when the setter, which sees the flag unset, starts the
    second. *)
Definition overlapping_runs : list Action :=
  [begins (m_set_events [Repeater.key_A])] ++ replicate 5 (call_turn 0) ++
  [expires 2; call_turn 1; call_turn 1] ++
  [begins (m_set_events [Repeater.key_B])] ++ replicate 5 (call_turn 2) ++
  [expires 3; call_turn 3; call_turn 3] ++
  replicate 5 (call_turn 1) ++ replicate 5 (call_turn 3).

(** A worker has passed the test of the loop when the timer of five
    seconds expires and [stop] clears the flag. *)
Definition stopped_in_iteration : list Action :=
  [begins (m_set_events [Repeater.key_A; Repeater.key_B])] ++
  replicate 5 (call_turn 0) ++
  [expires 2] ++ replicate 7 (call_turn 1) ++
  [worker_turn 1; expires 3; call_turn 2].

End Interleaving.

(** ** Feeding the repeater: [GremlinUi._handle_input_repeat] *)

Module InputRepeat.

(** A device as [util.joystick_devices()] lists it; the attributes are
    the ones this file reads. *)
Record Device := mkDevice {
  dev_name : string;
  dev_hardware_id : nat;
  dev_windows_id : nat;
  dev_is_virtual : bool;
  dev_axes : nat
}.

(** What the slot can raise before it touches the repeater. *)
Inductive Exception :=
| IndexError   (* [...][0] on an empty list *)
| TypeError.   (* abs() of something that is not a number *)

(** [[dev.hardware_id for dev in self.devices if dev.is_virtual][0]]. *)
Definition vjoy_device_id (devices : list Device) : option nat :=
  head (dev_hardware_id <$> filter (fun d => dev_is_virtual d = true) devices).

(** [event.clone()] followed by an assignment to [is_pressed] or to
    [value]: the copy differs from the event in its payload only. *)
Definition with_payload (p : Payload) (e : Event) : Event :=
  mkEvent (hardware_id e) (event_type e) (identifier e) p.

(** The [event_list] the slot builds: release and press for a key or a
    button, four positions for an axis, neutral and the deflection for a
    hat. *)
Definition event_list (e : Event) : list Event :=
  match event_type e with
  | Keyboard | JoystickButton =>
      [with_payload (Pressed false) e; with_payload (Pressed true) e]
  | JoystickAxis =>
      [with_payload (AxisValue (-3 # 4)) e; with_payload (AxisValue 0) e;
       with_payload (AxisValue (3 # 4)) e; with_payload (AxisValue 0) e]
  | JoystickHat =>
      [with_payload (HatValue 0 0) e; e]
  end.

(** [abs(event.value) < 0.25], where [value] is a number only for an
    axis position. *)
Definition small_movement (e : Event) : option bool :=
  match payload e with
  | AxisValue v => Some (negb (Qle_bool (1 # 4) (Qabs v)))
  | _ => None
  end.

(** [event.value == (0, 0)]. *)
Definition neutral_hat (e : Event) : bool :=
  match payload e with
  | HatValue 0 0 => true
  | _ => false
  end.

(** [GremlinUi._handle_input_repeat], on the repeater of the window. *)
Definition _handle_input_repeat (devices : list Device) (e : Event)
    (r : Repeater.State) : Exception + Repeater.State :=
  match vjoy_device_id devices with
  | None => inl IndexError
  | Some vjoy =>
      (* Ignore VJoy events *)
      if Repeater.is_running r || (hardware_id e =? vjoy) then inr r
      else
        (* Ignore small joystick movements *)
        let small :=
          if decide (event_type e = JoystickAxis) then small_movement e
          else Some false in
        match small with
        | None => inl TypeError
        | Some true => inr r
        | Some false =>
            (* Ignore neutral hat positions *)
            if bool_decide (event_type e = JoystickHat) && neutral_hat e
            then inr r
            else inr (Repeater.set_events (event_list e) r)
        end
  end.

(** The payload is of the kind the type of the event asks for. *)
Definition well_formed (e : Event) : Prop :=
  match event_type e, payload e with
  | Keyboard, Pressed _ | JoystickButton, Pressed _ => True
  | JoystickAxis, AxisValue _ => True
  | JoystickHat, HatValue _ _ => True
  | _, _ => False
  end.

(** Sample devices and events. *)
Definition stick : Device := mkDevice "stick" 1 7 false 3.
Definition vjoy : Device := mkDevice "vJoy Device" 2 8 true 8.
Definition axis_event : Event := mkEvent 1 JoystickAxis 2 (AxisValue (1 # 2)).
Definition hat_event : Event := mkEvent 1 JoystickHat 1 (HatValue 0 1).

End InputRepeat.

(** ** The main window and the runner: [GremlinUi.activate] *)

Module GremlinUi.

(** The part of the window [activate] works on: the runner, the checked
    state of the toolbar action, the text of the status label. *)
Record State := mkState {
  runner : CodeRunner.State;          (* self.runner *)
  actionActivate_isChecked : bool;    (* self.ui.actionActivate.isChecked() *)
  status_bar_is_active : string       (* self.status_bar_is_active.text() *)
}.

(** The double quote, which the texts of the label contain. *)
Definition dq : string := String (Ascii.ascii_of_nat 34) EmptyString.

Definition text_active_green : string :=
  ("<font color=" +:+ dq +:+ "green" +:+ dq +:+ ">Active</font>")%string.

Definition text_active_red : string :=
  ("<font color=" +:+ dq +:+ "red" +:+ dq +:+ ">Paused</font>")%string.

(** [GremlinUi._update_statusbar_active]. *)
Definition _update_statusbar_active (is_active : bool) (ui : State) : State :=
  let text_active := if is_active then text_active_green else text_active_red in
  let text_running :=
    if actionActivate_isChecked ui then ("Running and " +:+ text_active)%string
    else "Not Running"%string in
  mkState (runner ui) (actionActivate_isChecked ui)
          ("<b>Status: </b> " +:+ text_running)%string.

(** [GremlinUi.activate].  [generate] writes the file that the import in
    [start] reads; what that import does is [imp].  An exception that
    leaves [start] leaves [activate] as well, before the label is
    written. *)
Definition activate (checked : bool) (imp : CodeRunner.ImportResult)
    (ui : State) : State :=
  if checked then
    let ui := mkState (CodeRunner.start imp (runner ui))
                      (actionActivate_isChecked ui)
                      (status_bar_is_active ui) in
    match CodeRunner.start_outcome imp with
    | CodeRunner.Returns_None => _update_statusbar_active true ui
    | CodeRunner.Raises _ => ui
    end
  else
    let ui := mkState (CodeRunner.stop (runner ui))
                      (actionActivate_isChecked ui)
                      (status_bar_is_active ui) in
    _update_statusbar_active false ui.

(** The toolbar action is triggered: a checkable action flips its checked
    state and calls the slot connected to [triggered] with the new
    state. *)
Definition trigger_activate (imp : CodeRunner.ImportResult) (ui : State)
    : State :=
  let checked := negb (actionActivate_isChecked ui) in
  activate checked imp
           (mkState (runner ui) checked (status_bar_is_active ui)).

(** One session: the action is checked, the import succeeds with the
    given table, the action is unchecked again. *)
Definition session (ui : State) (registry : CodeRunner.Table) : State :=
  trigger_activate (CodeRunner.Imported [])
    (trigger_activate (CodeRunner.Imported registry) ui).

(** Between sessions: the action is unchecked, the engine's registry is
    empty and the slots of the runner are not connected. *)
Definition at_rest (ui : State) : Prop :=
  actionActivate_isChecked ui = false ∧
  CodeRunner.callbacks (CodeRunner.event_handler (runner ui)) = ∅ ∧
  (CodeRunner.slot_process_event ∉ CodeRunner.keyboard_event (runner ui)) ∧
  (CodeRunner.slot_kb_keyboard_event ∉ CodeRunner.keyboard_event (runner ui)) ∧
  (CodeRunner.slot_process_event ∉ CodeRunner.joystick_event (runner ui)).

(** [GremlinUi.__init__], as far as the runner and the status label go:
    a new runner, the action unchecked, and a last
    [self._update_statusbar_active(False)]. *)
Definition init (registry : CodeRunner.Table) (kb js : list CodeRunner.Slot)
    : State :=
  _update_statusbar_active false
    (mkState (CodeRunner.init registry kb js) false EmptyString).

End GremlinUi.

(** ** The module manager: class [ModuleManagerUi] *)

Module ModuleManagerUi.

(** The order of [sorted] on strings. *)
Definition string_le (s1 s2 : string) : Prop := String.leb s1 s2 = true.

#[global] Instance string_le_dec : RelDecision string_le.
Proof. intros s1 s2. unfold string_le. apply _. Defined.

(** [sorted(l)] for a list of strings. *)
Definition sorted (l : list string) : list string := merge_sort string_le l.

(** What [_delete_cb] can raise. *)
Inductive Exception := IndexError.

(** The manager: the string list of the model the view shows, the
    imports of the profile, and the errors displayed. *)
Record State := mkState {
  model_stringList : list string;    (* self.model.stringList() *)
  profile_imports : list string;     (* self._profile.imports *)
  displayed_errors : list string     (* what util.display_error showed *)
}.

(** [ModuleManagerUi.__init__] and [_create_ui], for a profile with the
    given imports. *)
Definition _create_ui (imports : list string) : State :=
  mkState (sorted imports) imports [].

Section WithUtil.

(** [util.valid_python_identifier], which is not part of this file. *)
Variable valid_python_identifier : string → bool.

(** [ModuleManagerUi._add_cb]; [new_import] and [input_ok] are what the
    input dialog returns. *)
Definition _add_cb (new_import : string) (input_ok : bool) (st : State)
    : State :=
  if input_ok && negb (String.eqb new_import EmptyString) then
    if negb (valid_python_identifier new_import) then
      mkState (model_stringList st) (profile_imports st)
              (displayed_errors st ++
                 [GremlinUi.dq +:+ new_import +:+ GremlinUi.dq +:+
                  " is not a valid python module name"]%string)
    else
      let import_list := model_stringList st ++ [new_import] in
      mkState (sorted import_list) import_list (displayed_errors st)
  else st.

(** [ModuleManagerUi._delete_cb]; [index] is the row of the view's
    current index, [-1] when there is none.  [del import_list[index]]
    raises [IndexError] when [index] is the length of the list. *)
Definition _delete_cb (index : Z) (st : State) : Exception + State :=
  let import_list := model_stringList st in
  if bool_decide (0 ≤ index ≤ Z.of_nat (length import_list))%Z then
    if bool_decide (index < Z.of_nat (length import_list))%Z then
      let import_list := delete (Z.to_nat index) import_list in
      inr (mkState import_list import_list (displayed_errors st))
    else inl IndexError
  else inr st.

(** What the user does in the window. *)
Inductive Click :=
| click_add (new_import : string) (input_ok : bool)
| click_delete (index : Z).

(** An exception in a slot leaves the manager as it was: [_delete_cb]
    raises before it writes. *)
Definition click (st : State) (c : Click) : State :=
  match c with
  | click_add new_import input_ok => _add_cb new_import input_ok st
  | click_delete index =>
      match _delete_cb index st with
      | inr st' => st'
      | inl _ => st
      end
  end.

End WithUtil.

End ModuleManagerUi.

(** ** The calibration window: class [CalibrationUi] *)

Module CalibrationUi.

(** [l[i]] for a Python list and an integer: a negative index counts
    from the end, an index outside the list raises [IndexError]. *)
Definition getitem {A} (l : list A) (i : Z) : option A :=
  if bool_decide (0 ≤ i)%Z then l !! Z.to_nat i
  else if bool_decide (- Z.of_nat (length l) ≤ i)%Z
       then l !! Z.to_nat (Z.of_nat (length l) + i)
       else None.

(** The position [l[i]] refers to, when there is one. *)
Definition position {A} (l : list A) (i : Z) : option nat :=
  if bool_decide (0 ≤ i < Z.of_nat (length l))%Z then Some (Z.to_nat i)
  else if bool_decide (- Z.of_nat (length l) ≤ i < 0)%Z
       then Some (Z.to_nat (Z.of_nat (length l) + i))
       else None.

Inductive Exception := IndexError.

Section WithWidgets.

(** [ui_widgets.AxisCalibrationWidget], which is not part of this file:
    the state of a widget, a new widget, and its methods [set_current]
    and [centered]. *)
Variable Widget : Type.
Variable AxisCalibrationWidget : Widget.
Variable set_current : Z → Widget → Widget.
Variable centered : Widget → Widget.

(** [event.raw_value], which the event record here does not carry. *)
Variable raw_value : Event → Z.

(** The window: the physical devices, the index selected in the drop
    down (which the code calls [current_hardware_id]) and the widgets of
    the axes. *)
Record State := mkState {
  devices : list InputRepeat.Device;   (* self.devices *)
  current_hardware_id : Z;             (* self.current_hardware_id *)
  axes : list Widget                   (* self.axes *)
}.

(** [CalibrationUi._create_axes]. *)
Definition _create_axes (hardware_id : Z) (st : State) : Exception + State :=
  match getitem (devices st) hardware_id with
  | None => inl IndexError
  | Some device =>
      inr (mkState (devices st) hardware_id
                   (replicate (InputRepeat.dev_axes device)
                              AxisCalibrationWidget))
  end.

(** [CalibrationUi.__init__], on what [util.joystick_devices()]
    returned. *)
Definition init (joystick_devices : list InputRepeat.Device)
    : Exception + State :=
  let devices :=
    filter (fun dev => InputRepeat.dev_is_virtual dev = false)
           joystick_devices in
  _create_axes 0 (mkState devices 0 []).

(** [CalibrationUi._calibrate_centers]. *)
Definition _calibrate_centers (st : State) : State :=
  mkState (devices st) (current_hardware_id st) (centered <$> axes st).

(** [CalibrationUi._handle_event]. *)
Definition _handle_event (event : Event) (st : State) : Exception + State :=
  match getitem (devices st) (current_hardware_id st) with
  | None => inl IndexError
  | Some device =>
      if bool_decide (hardware_id event = InputRepeat.dev_hardware_id device)
         && bool_decide (event_type event = JoystickAxis)
      then
        match position (axes st) (Z.of_nat (identifier event) - 1) with
        | None => inl IndexError
        | Some i =>
            inr (mkState (devices st) (current_hardware_id st)
                         (alter (set_current (raw_value event)) i (axes st)))
        end
      else inr st
  end.

End WithWidgets.

Arguments mkState {Widget}.
Arguments devices {Widget}.
Arguments current_hardware_id {Widget}.
Arguments axes {Widget}.

End CalibrationUi.

(** ** The devices of a profile: [new_profile] and [_sanitize_profile] *)

Module Profile.

(** [profile.DeviceType]. *)
Inductive DeviceType := Keyboard_type | Joystick_type.

(** A [profile.Device], with the attributes this file writes. *)
Record Device := mkDevice {
  name : string;
  device_hardware_id : nat;
  windows_id : nat;
  type : DeviceType
}.

(** A key of the dict [profile.devices]: [new_profile] uses the hardware
    id, an integer; [_sanitize_profile] compares keys with pairs
    [(hardware_id, windows_id)]. *)
Inductive Key := int_key (n : nat) | tuple_key (a b : nat).

#[global] Instance Key_eq_dec : EqDecision Key.
Proof. solve_decision. Defined.

#[global] Instance Key_countable : Countable Key.
Proof.
  apply (inj_countable'
           (fun k => match k with
                     | int_key n => inl n
                     | tuple_key a b => inr (a, b)
                     end)
           (fun x => match x with
                     | inl n => int_key n
                     | inr (a, b) => tuple_key a b
                     end)).
  by intros [].
Defined.

Inductive Exception := KeyError.

Definition keyboard_device : Device :=
  mkDevice "keyboard" 0 0 Keyboard_type.

(** [GremlinUi.new_profile], on the devices of the window; [devices0] is
    what [profile.Profile()] starts with. *)
Definition new_profile (devices : list InputRepeat.Device)
    (devices0 : gmap Key Device) : gmap Key Device :=
  let physical :=
    filter (fun entry => InputRepeat.dev_is_virtual entry = false) devices in
  let devices1 :=
    fold_left
      (fun acc device =>
         let new_device :=
           mkDevice (InputRepeat.dev_name device)
                    (InputRepeat.dev_hardware_id device)
                    (InputRepeat.dev_windows_id device)
                    Joystick_type in
         <[int_key (device_hardware_id new_device) := new_device]> acc)
      physical devices0 in
  <[int_key (device_hardware_id keyboard_device) := keyboard_device]> devices1.

Section WithKey.

(** [profile.Device.key], which is not part of this file. *)
Variable key : Device → Key.

(** The first loop of [_sanitize_profile]: the keys and names of the
    devices of the profile, the keyboard left out. *)
Definition profile_devices (devices : gmap Key Device) : gmap Key string :=
  fold_left
    (fun acc device =>
       if decide (device_hardware_id device = 0) then acc
       else <[key device := name device]> acc)
    (map_to_list devices).*2 ∅.

(** The second loop: the physical devices by [(hardware_id, windows_id)]. *)
Definition physical_devices (devices : list InputRepeat.Device)
    : gmap Key string :=
  fold_left
    (fun acc device =>
       if InputRepeat.dev_is_virtual device then acc
       else <[tuple_key (InputRepeat.dev_hardware_id device)
                        (InputRepeat.dev_windows_id device)
              := InputRepeat.dev_name device]> acc)
    devices ∅.

(** [del d[k]]. *)
Definition del (k : Key) (d : gmap Key Device)
    : Exception + gmap Key Device :=
  match d !! k with
  | Some _ => inr (delete k d)
  | None => inl KeyError
  end.

(** [GremlinUi._sanitize_profile], on the devices of the profile and of
    the window (the warnings it logs are left out). *)
Definition _sanitize_profile (devices : list InputRepeat.Device)
    (profile_data : gmap Key Device) : Exception + gmap Key Device :=
  let physical := physical_devices devices in
  map_fold
    (fun dev_id (dev_name : string) acc =>
       match acc with
       | inl e => inl e
       | inr d =>
           if decide (physical !! dev_id = None) then del dev_id d
           else inr d
       end)
    (inr profile_data) (profile_devices profile_data).

(** Every device of the profile is stored under its own key. *)
Definition keyed (profile_data : gmap Key Device) : Prop :=
  ∀ k device, profile_data !! k = Some device → key device = k.

End WithKey.

End Profile.

(** * Facts about lists *)

Module ListFacts.

Lemma filter_all {X} (P : X → Prop) `{∀ x, Decision (P x)} (l : list X) :
  Forall P l → filter P l = l.
Proof.
  induction 1 as [|x l Hx _ IH]; [done|].
  by rewrite filter_cons_True, IH.
Qed.

Lemma filter_none {X} (P : X → Prop) `{∀ x, Decision (P x)} (l : list X) :
  Forall (fun x => ¬ P x) l → filter P l = [].
Proof.
  induction 1 as [|x l Hx _ IH]; [done|].
  by rewrite filter_cons_False.
Qed.

Lemma filter_ext_in {X} (P Q : X → Prop)
    `{∀ x, Decision (P x)} `{∀ x, Decision (Q x)} (l : list X) :
  (∀ x, x ∈ l → P x ↔ Q x) → filter P l = filter Q l.
Proof.
  induction l as [|x l IH]; intros Hl; [done|].
  rewrite !filter_cons.
  assert (P x ↔ Q x) as Hx by (apply Hl; left).
  rewrite IH by (intros y Hy; apply Hl; by right).
  destruct (decide (P x)), (decide (Q x)); tauto || done.
Qed.

Lemma alter_new {A} (f : A → A) (l : list A) (x : A) :
  alter f (length l) (l ++ [x]) = l ++ [f x].
Proof.
  rewrite alter_app_r_alt by lia. by rewrite Nat.sub_diag.
Qed.

End ListFacts.

(** * Properties of the session orchestrator *)

Module CodeRunnerProps.
Import CodeRunner ListFacts.

(** ** The registry after a walk over the table *)

Lemma add_callback_list_flat hid mode event l eh :
  add_callback_list hid mode event l eh =
  fold_left add_registration
            ((fun c => ((hid, mode, event), c)) <$> l) eh.
Proof.
  unfold add_callback_list. revert eh.
  induction l as [|c l IH]; intros eh; [done|]. simpl. by rewrite IH.
Qed.

Lemma add_events_flat hid mode cbs eh :
  add_events hid mode cbs eh =
  fold_left add_registration
    ('(event, l) ← cbs; (fun c => ((hid, mode, event), c)) <$> l) eh.
Proof.
  unfold add_events. revert eh.
  induction cbs as [|[event l] cbs IH]; intros eh; [done|].
  simpl. rewrite fold_left_app, IH. by rewrite add_callback_list_flat.
Qed.

Lemma add_modes_flat hid modes eh :
  add_modes hid modes eh =
  fold_left add_registration
    ('(mode, cbs) ← modes; '(event, l) ← cbs;
     (fun c => ((hid, mode, event), c)) <$> l) eh.
Proof.
  unfold add_modes. revert eh.
  induction modes as [|[mode cbs] modes IH]; intros eh; [done|].
  simpl. rewrite fold_left_app, IH. by rewrite add_events_flat.
Qed.

(** The nested loops make the calls of [registrations], in that order. *)
Lemma add_registry_flat registry eh :
  add_registry registry eh =
  fold_left add_registration (registrations registry) eh.
Proof.
  unfold add_registry, registrations. revert eh.
  induction registry as [|[hid modes] registry IH]; intros eh; [done|].
  simpl. rewrite fold_left_app, IH. by rewrite add_modes_flat.
Qed.

Lemma add_registration_lookup eh kc k :
  default [] (callbacks (add_registration eh kc) !! k) =
  default [] (callbacks eh !! k) ++ (if decide (kc.1 = k) then [kc.2] else []).
Proof.
  destruct kc as [[[hid mode] event] [c0 c1]].
  unfold add_registration, add_callback. simpl.
  case_decide as Hk.
  - subst k. by rewrite lookup_insert_eq.
  - rewrite lookup_insert_ne by done. by rewrite app_nil_r.
Qed.

Lemma fold_registrations_lookup l eh k :
  default [] (callbacks (fold_left add_registration l eh) !! k) =
  default [] (callbacks eh !! k) ++
  (filter (fun kc : Key * Callback => kc.1 = k) l).*2.
Proof.
  revert eh. induction l as [|kc l IH]; intros eh; simpl.
  - by rewrite app_nil_r.
  - rewrite IH, add_registration_lookup, filter_cons.
    case_decide; simpl; [|by rewrite app_nil_r].
    by rewrite <- app_assoc.
Qed.

Lemma fold_registrations_modes l eh :
  _active_mode (fold_left add_registration l eh) = _active_mode eh ∧
  _previous_mode (fold_left add_registration l eh) = _previous_mode eh ∧
  is_active (fold_left add_registration l eh) = is_active eh.
Proof.
  revert eh. induction l as [|kc l IH]; intros eh; [done|].
  simpl. destruct (IH (add_registration eh kc)) as (-> & -> & ->). done.
Qed.

Lemma add_registry_lookup registry eh k :
  default [] (callbacks (add_registry registry eh) !! k) =
  default [] (callbacks eh !! k) ++ callbacks_for k registry.
Proof. rewrite add_registry_flat. apply fold_registrations_lookup. Qed.

(** ** Tables that come from dicts *)

Lemma assoc_None {K V} `{EqDecision K} (k : K) (l : list (K * V)) :
  k ∉ l.*1 → assoc k l = None.
Proof.
  induction l as [|[k' v] l IH]; intros Hk; [done|]. simpl in *.
  case_decide as Heq.
  - subst. exfalso. apply Hk. left.
  - apply IH. intros Hin. apply Hk. by right.
Qed.

(** One level of the nested dicts: of the sublists made from the entries
    of a duplicate-free association list, only the one of key [k0] can
    contribute elements with the wanted key. *)
Lemma filter_bind_assoc {K V X} `{EqDecision K}
    (P : X → Prop) `{∀ x, Decision (P x)}
    (g : K → V → list X) (k0 : K) (l : list (K * V)) :
  NoDup l.*1 →
  (∀ k v, k ≠ k0 → filter P (g k v) = []) →
  filter P (kv ← l; g kv.1 kv.2) =
  from_option (fun v => filter P (g k0 v)) [] (assoc k0 l).
Proof.
  intros Hnd Hother. induction l as [|[k v] l IH]; [done|].
  rewrite fmap_cons in Hnd. apply NoDup_cons in Hnd as [Hnotin Hnd].
  rewrite bind_cons, filter_app, IH by done. simpl. case_decide as Hk.
  - subst k. rewrite (assoc_None k0 l) by done. simpl. apply app_nil_r.
  - by rewrite Hother.
Qed.

Lemma registrations_bind registry :
  registrations registry =
  hm ← registry; mc ← hm.2; el ← mc.2;
  (fun c => ((hm.1, mc.1, el.1), c)) <$> el.2.
Proof.
  unfold registrations.
  apply list_bind_ext; [|done]. intros [hid modes]. simpl.
  apply list_bind_ext; [|done]. intros [mode cbs]. simpl.
  apply list_bind_ext; [|done]. by intros [event l].
Qed.

(** Registrations made under another key do not pass the filter. *)
Local Ltac other_key :=
  intros ? ? ?; apply filter_none, Forall_forall; intros ? Hx;
  repeat (apply list_elem_of_bind in Hx as (? & Hx & _));
  apply list_elem_of_fmap in Hx as (? & -> & _); simpl; congruence.

(** For a table that comes from dicts, the callbacks of a key are the
    list stored under it. *)
Lemma callbacks_for_entry registry k :
  dict_like registry →
  callbacks_for k registry = default [] (entry registry k).
Proof.
  destruct k as [[hid mode] event]. intros [Hnd Hall].
  unfold callbacks_for, entry. rewrite registrations_bind. simpl.
  rewrite (filter_bind_assoc _
             (fun h (ms : ModeTable) =>
                mc ← ms; el ← mc.2;
                (fun c => ((h, mc.1, el.1), c)) <$> el.2) hid);
    [|done|other_key].
  unfold Table, ModeTable, EventTable in *.
  destruct (assoc hid registry) as [modes|] eqn:Hmodes; [|done]. simpl.
  assert (NoDup modes.*1 ∧
          Forall (fun mc : string * EventTable => NoDup mc.2.*1) modes)
    as [Hnd2 Hall2].
  { clear -Hall Hmodes. induction registry as [|[h ms] registry IH]; [done|].
    simpl in Hmodes. apply Forall_cons in Hall as [Hhd Hall].
    case_decide; [by simplify_eq|by apply IH]. }
  rewrite (filter_bind_assoc _
             (fun m (es : EventTable) =>
                el ← es; (fun c => ((hid, m, el.1), c)) <$> el.2) mode);
    [|done|other_key].
  unfold Table, ModeTable, EventTable in *.
  destruct (assoc mode modes) as [cbs|] eqn:Hcbs; [|done]. simpl.
  assert (NoDup cbs.*1) as Hnd3.
  { clear -Hall2 Hcbs. induction modes as [|[m es] modes IH]; [done|].
    simpl in Hcbs. apply Forall_cons in Hall2 as [Hhd Hall2].
    case_decide; [by simplify_eq|by apply IH]. }
  rewrite (filter_bind_assoc _
             (fun e (l : list Callback) =>
                (fun c => ((hid, mode, e), c)) <$> l) event);
    [|done|other_key].
  unfold Table, ModeTable, EventTable in *.
  destruct (assoc event cbs) as [l|]; [|done]. simpl.
  rewrite filter_all by
    (apply Forall_forall; intros x Hx;
     by apply list_elem_of_fmap in Hx as (c & -> & _)).
  rewrite <- list_fmap_compose. apply list_fmap_id.
Qed.

(** ** Start *)

Lemma start_event_handler registry s :
  event_handler (start (Imported registry) s) =
  resume (change_mode "global"
            (add_registry registry (_reset_state (event_handler s)))).
Proof. done. Qed.

Lemma start_lookup registry s k :
  default [] (callbacks (event_handler (start (Imported registry) s)) !! k) =
  default [] (callbacks (event_handler s) !! k) ++ callbacks_for k registry.
Proof. rewrite start_event_handler. simpl. by rewrite add_registry_lookup. Qed.

(** C9.  A successful [start] registers the callbacks of the loaded table
    by the calls of [registrations], that is entry by entry and, inside
    an entry, in the order of its list.  So the list the engine holds
    for a key is what it held before followed by the table's callbacks
    for that key in table order (for a table that comes from dicts: the
    list of the entry of that key), and an event dispatched in any mode
    fires exactly that list, earlier registrations first. *)
Theorem start_registers_in_table_order registry s :
  let eh := event_handler (start (Imported registry) s) in
  callbacks eh =
    callbacks (fold_left add_registration (registrations registry)
                         (event_handler s)) ∧
  (∀ k, default [] (callbacks eh !! k) =
        default [] (callbacks (event_handler s) !! k) ++
        callbacks_for k registry) ∧
  (∀ e, process_event e eh =
        let k := (hardware_id e, "global"%string, event_key e) in
        default [] (callbacks (event_handler s) !! k) ++
        callbacks_for k registry) ∧
  (∀ mode e, process_event e (change_mode mode eh) =
        let k := (hardware_id e, mode, event_key e) in
        default [] (callbacks (event_handler s) !! k) ++
        callbacks_for k registry) ∧
  (dict_like registry →
   ∀ k callback_list, entry registry k = Some callback_list →
        callbacks_for k registry = callback_list ∧
        default [] (callbacks eh !! k) =
        default [] (callbacks (event_handler s) !! k) ++ callback_list).
Proof.
  simpl. split_and!; cycle 4.
  { intros Hdict k l Hentry.
    assert (callbacks_for k registry = l) as Hfor
      by (by rewrite callbacks_for_entry, Hentry).
    split; [done|]. rewrite <- Hfor. apply (start_lookup registry s k). }
  - rewrite add_registry_flat.
    generalize (registrations registry) as l.
    assert (∀ l eh1 eh2, callbacks eh1 = callbacks eh2 →
              callbacks (fold_left add_registration l eh1) =
              callbacks (fold_left add_registration l eh2)) as Hcong.
    { induction l as [|kc l IH]; intros eh1 eh2 Heq; [done|].
      simpl. apply IH. unfold add_registration, add_callback. simpl.
      by rewrite Heq. }
    intros l. by apply Hcong.
  - intros k. apply (start_lookup registry s k).
  - intros e. unfold process_event. simpl.
    destruct (fold_registrations_modes (registrations registry)
                (_reset_state (event_handler s))) as (Hm & _ & _).
    rewrite <- add_registry_flat in Hm.
    apply (start_lookup registry s).
  - intros mode e. unfold process_event. simpl.
    apply (start_lookup registry s).
Qed.

Lemma start_registers_in_table_order_witness :
  let eh := event_handler (start (Imported ordered_table) fresh) in
  callbacks eh !! sample_key = Some [(10, 0); (11, 0)] ∧
  process_event button_3 eh = [(10, 0); (11, 0)] ∧
  callbacks_for sample_key ordered_table = [(10, 0); (11, 0)].
Proof.
  destruct (start_registers_in_table_order ordered_table fresh)
    as (_ & _ & Hfire & _ & Hentry).
  split; [reflexivity|]. split; [exact (Hfire button_3)|].
  assert (dict_like ordered_table) as Hdict.
  { split; [|repeat constructor]; repeat constructor; set_solver. }
  exact (proj1 (Hentry Hdict sample_key [(10, 0); (11, 0)] eq_refl)).
Defined.

(** C4 (as amended).  When the import raises [ImportError], [start]
    shows the message through [util.display_error] and returns [None],
    as it does after a success: nothing is reported to its caller.  The
    flag [_running], the registry of the engine and the connections of
    both signals are what they were before the call, while
    [input_devices.callback_registry] keeps what the import has put into
    it.  An exception of another class is not caught: it leaves [start],
    nothing is displayed, and the runner is left in the same way. *)
Theorem start_import_error_returns_normally e registry s :
  let imp := ImportError e registry in
  let s' := start imp s in
  start_outcome imp = Returns_None ∧
  (∀ table, start_outcome imp = start_outcome (Imported table)) ∧
  displayed_errors s' =
    displayed_errors s ++
    ["Unable to launch due to missing custom modules: " +:+ e]%string ∧
  _running s' = _running s ∧
  callbacks (event_handler s') = callbacks (event_handler s) ∧
  keyboard_event s' = keyboard_event s ∧
  joystick_event s' = joystick_event s ∧
  callback_registry s' = registry ∧
  (let imp := OtherException e registry in
   let s' := start imp s in
   start_outcome imp = Raises e ∧
   displayed_errors s' = displayed_errors s ∧
   _running s' = _running s ∧
   callbacks (event_handler s') = callbacks (event_handler s) ∧
   keyboard_event s' = keyboard_event s ∧
   joystick_event s' = joystick_event s ∧
   callback_registry s' = registry).
Proof. by split_and!. Qed.

(** C4 (counterexample).  On a fresh runner, with an import that fails
    after the table has got an entry: [start] returns [None] and raises
    nothing, so that the window, its caller, writes "Running and Active"
    on the status label; and the table is left with the entry. *)
Lemma start_import_error_counterexample :
  let imp := ImportError "No module named foo" sample_table in
  start_outcome imp = Returns_None ∧
  (¬ ∃ x, start_outcome imp = Raises x) ∧
  callback_registry (start imp fresh) = sample_table ∧
  callback_registry (start imp fresh) ≠ [] ∧
  GremlinUi.status_bar_is_active
    (GremlinUi.trigger_activate imp (GremlinUi.init [] [] [])) =
  GremlinUi.status_bar_is_active
    (GremlinUi.trigger_activate (Imported sample_table)
                                (GremlinUi.init [] [] [])).
Proof.
  split_and!; [done| |done|done|done].
  by intros [x Hx].
Qed.

(** ** Stop *)

(** [stop] never writes [_running]. *)
Lemma stop_running s : _running (stop s) = _running s.
Proof. unfold stop. by destruct (_running s). Qed.

Lemma stop_clears s :
  callbacks (event_handler (stop s)) = ∅ ∧ callback_registry (stop s) = [].
Proof. unfold stop. by destruct (_running s). Qed.

(** C1 (what the code does).  After [start] has succeeded on a fresh
    runner and [stop] has been called, the registry is empty and the
    slots are disconnected, and [_running] is still [true]: the registry
    is empty while the flag is set. *)
Theorem stop_after_start_leaves_running_set registry :
  let s := stop (start (Imported registry) fresh) in
  callbacks (event_handler s) = ∅ ∧
  callback_registry s = [] ∧
  keyboard_event s = [] ∧
  joystick_event s = [] ∧
  _running s = true.
Proof. done. Qed.

(** C3 (as amended).  [stop] on a runner that is not running leaves the
    flag and the connections of both signals as they are, and empties
    the engine's registry and the table; it changes nothing exactly when
    both were empty already. *)
Theorem stop_when_not_running s :
  _running s = false →
  let s' := stop s in
  _running s' = false ∧
  keyboard_event s' = keyboard_event s ∧
  joystick_event s' = joystick_event s ∧
  callbacks (event_handler s') = ∅ ∧
  callback_registry s' = [] ∧
  (s' = s ↔ callbacks (event_handler s) = ∅ ∧ callback_registry s = []).
Proof.
  intros Hr. destruct s as [r [cbs am pm act] reg kb js errs].
  simpl in *. subst r. unfold stop, clear. simpl. split_and!; try done.
  split.
  - intros Heq. by simplify_eq.
  - intros [-> ->]. done.
Qed.

Lemma stop_when_not_running_witness :
  let s' := stop loaded_idle in
  _running s' = false ∧
  keyboard_event s' = keyboard_event loaded_idle ∧
  joystick_event s' = joystick_event loaded_idle ∧
  callbacks (event_handler s') = ∅ ∧
  callback_registry s' = [] ∧
  (s' = loaded_idle ↔
   callbacks (event_handler loaded_idle) = ∅ ∧
   callback_registry loaded_idle = []).
Proof. apply (stop_when_not_running loaded_idle). reflexivity. Defined.

(** C3 (counterexample).  A runner that is not running and whose engine
    holds a callback: [stop] removes the callback, so the call is not a
    no-op.  Nor is it one after a [start] whose import failed half-way:
    [stop] then throws away the table the import has left. *)
Lemma stop_when_not_running_counterexample :
  _running loaded_idle = false ∧
  callbacks (event_handler loaded_idle) !! sample_key = Some [(10, 0)] ∧
  callbacks (event_handler (stop loaded_idle)) !! sample_key = None ∧
  stop loaded_idle ≠ loaded_idle ∧
  let s := start (ImportError "No module named foo" sample_table) fresh in
  _running s = false ∧
  callback_registry s = sample_table ∧
  callback_registry (stop s) = [] ∧
  stop s ≠ s.
Proof.
  split_and!; try done; intros Heq;
    by apply (f_equal callback_registry) in Heq.
Qed.

(** On the states a runner reaches from a fresh process by its own
    methods, the engine's registry is empty while [_running] is unset;
    there [stop] can only change the table a failed import has left. *)
Lemma stop_when_never_started calls registry kb js :
  let s := exec calls (init registry kb js) in
  _running s = false →
  callbacks (event_handler s) = ∅ ∧
  (callback_registry s = [] → stop s = s).
Proof.
  simpl. induction calls as [|c calls IH] using rev_ind.
  - intros _. split; [done|]. simpl. by intros ->.
  - unfold exec in *. rewrite fold_left_app. simpl.
    set (s := fold_left step calls (init registry kb js)) in *.
    destruct c as [[table|e table|e table]|]; simpl.
    + done.
    + intros Hr. destruct (IH Hr) as (Hc & _).
      split; [done|]. intros ->.
      unfold stop, clear. simpl. rewrite Hr.
      unfold _reset_state. by rewrite Hc.
    + intros Hr. destruct (IH Hr) as (Hc & _).
      split; [done|]. intros ->.
      unfold stop, clear. simpl. rewrite Hr.
      unfold _reset_state. by rewrite Hc.
    + intros Hr. rewrite stop_running in Hr.
      destruct (IH Hr) as (Hc & _). split; [apply stop_clears|].
      intros _. unfold stop at 1. rewrite stop_running, Hr.
      unfold stop. rewrite Hr. done.
Qed.

(** ** Start twice *)

(** Delivery on a signal goes connection by connection. *)
Lemma emit_app e l1 l2 eh :
  emit e (l1 ++ l2) eh = emit e l1 eh ++ emit e l2 eh.
Proof. unfold emit. by rewrite bind_app. Qed.

(** After a [start] that succeeded, the engine fires for an event the
    callbacks stored for its key in the global mode. *)
Lemma start_process_event registry s e :
  process_event e (event_handler (start (Imported registry) s)) =
  default [] (callbacks (event_handler s)
                !! (hardware_id e, "global"%string, event_key e)) ++
  callbacks_for (hardware_id e, "global"%string, event_key e) registry.
Proof.
  rewrite <- start_lookup. done.
Qed.

(** C2 (as amended).  A second [start] without a [stop] in between is
    not guarded: it makes every registration of the table it loads once
    more, behind the callbacks that are registered already, and connects
    the slots to both signals once more.  An event that is delivered on a
    signal is then dispatched by each of the two connections the two
    calls have made, and each dispatch fires every callback registered
    for the event's key, those of both tables: a callback of a table
    that is loaded twice fires four times for one event. *)
Theorem start_twice_registers_again r1 r2 s :
  let s1 := start (Imported r1) s in
  let s2 := start (Imported r2) s1 in
  _running s1 = true ∧
  _running s2 = true ∧
  (∀ k, default [] (callbacks (event_handler s2) !! k) =
        default [] (callbacks (event_handler s1) !! k) ++
        callbacks_for k r2) ∧
  (∀ k, default [] (callbacks (event_handler s2) !! k) =
        default [] (callbacks (event_handler s) !! k) ++
        callbacks_for k r1 ++ callbacks_for k r2) ∧
  keyboard_event s2 =
    keyboard_event s1 ++ [slot_process_event; slot_kb_keyboard_event] ∧
  joystick_event s2 = joystick_event s1 ++ [slot_process_event] ∧
  (∀ e,
     let k := (hardware_id e, "global"%string, event_key e) in
     let fires := default [] (callbacks (event_handler s) !! k) ++
                  callbacks_for k r1 ++ callbacks_for k r2 in
     process_event e (event_handler s2) = fires ∧
     emit e (joystick_event s2) (event_handler s2) =
       emit e (joystick_event s) (event_handler s2) ++ fires ++ fires ∧
     emit e (keyboard_event s2) (event_handler s2) =
       emit e (keyboard_event s) (event_handler s2) ++ fires ++ fires).
Proof.
  intros s1 s2. split_and!; try done.
  - intros k. apply start_lookup.
  - intros k. unfold s2. rewrite start_lookup. unfold s1.
    rewrite start_lookup. by rewrite <- app_assoc.
  - simpl. unfold connect. by rewrite <- app_assoc.
  - intros e k fires.
    assert (process_event e (event_handler s2) = fires) as Hf.
    { unfold s2, s1. rewrite start_process_event, start_lookup.
      by rewrite <- app_assoc. }
    split; [done|]. rewrite <- Hf.
    set (eh := event_handler s2). clearbody eh.
    simpl. unfold connect. rewrite !emit_app. simpl.
    rewrite !app_nil_r. split; by rewrite <- ?app_assoc.
Qed.

(** C2 (counterexample).  With a table of one callback, the second
    [start] changes the state: the callback is registered twice and the
    slot is connected twice, and one event on the joystick signal, which
    fired the callback once after the first [start], fires it four
    times. *)
Lemma start_twice_counterexample :
  let s1 := start (Imported sample_table) fresh in
  let s2 := start (Imported sample_table) s1 in
  _running s1 = true ∧
  callbacks (event_handler s1) !! sample_key = Some [(10, 0)] ∧
  callbacks (event_handler s2) !! sample_key = Some [(10, 0); (10, 0)] ∧
  joystick_event s2 = [slot_process_event; slot_process_event] ∧
  emit button_3 (joystick_event s1) (event_handler s1) = [(10, 0)] ∧
  emit button_3 (joystick_event s2) (event_handler s2) =
    [(10, 0); (10, 0); (10, 0); (10, 0)] ∧
  s2 ≠ s1.
Proof.
  split_and!; [done|done|done|done|done|done|].
  intros Heq. apply (f_equal joystick_event) in Heq. done.
Qed.

(** The scenario of the design document: one binding, one event, then
    [stop]. *)
Example start_event_stop :
  let s1 := start (Imported sample_table) fresh in
  process_event button_3 (event_handler s1) = [(10, 0)] ∧
  process_event button_3 (event_handler (stop s1)) = [] ∧
  keyboard_event (stop s1) = [] ∧
  joystick_event (stop s1) = [].
Proof. done. Qed.

End CodeRunnerProps.

(** * Properties of the input repeater *)

Module RepeaterProps.
Import Repeater ListFacts.

(** ** Timers and threads in the store *)

Lemma cancel_started t :
  timer_status t = timer_started → timer_status (cancel t) = timer_cancelled.
Proof. unfold cancel. by intros ->. Qed.

Lemma set_events_ignored events s :
  is_running s = true ∨ events = [] → set_events events s = s.
Proof.
  unfold set_events. intros [-> | ->]; [done|].
  by rewrite orb_true_r.
Qed.

Lemma set_events_accepted events s :
  is_running s = false → events ≠ [] →
  set_events events s =
  mkState false events (_thread s) (length (timers s)) (_stop_timer s)
          (threads s)
          (alter cancel (_start_timer s) (timers s) ++
             [mkTimer 1 fn_run timer_started])
          (emitted s).
Proof.
  intros Hr Hne. unfold set_events. rewrite Hr.
  destruct events as [|e events]; [done|]. simpl.
  rewrite alter_new. by rewrite length_alter.
Qed.

(** ** The worker loop *)

Lemma emitted_by_app w s out :
  (fun em : Emission => (em.1.2, em.2)) <$>
    filter (fun em : Emission => em.1.1 = w) (emitted s ++ out) =
  emitted_by w s ++
  ((fun em : Emission => (em.1.2, em.2)) <$>
     filter (fun em : Emission => em.1.1 = w) out).
Proof. unfold emitted_by. by rewrite filter_app, fmap_app. Qed.

Lemma emit_body_emitted w index s :
  ∃ out, (emit_body w index s).1 = emitted s ++ out ∧
         Forall (fun em : Emission => em.1.1 = w) out.
Proof.
  unfold emit_body.
  destruct (_events s !! 0) as [first|]; [|by exists []; rewrite app_nil_r].
  destruct (_events s !! index) as [e|]; [|by exists []; rewrite app_nil_r].
  exists [(w, channel_of first, e)].
  destruct (length (_events s) =? 0); simpl; by repeat constructor.
Qed.

(** The body of the loop on a list that has a first element, with the
    cursor inside the list. *)
Lemma emit_body_in_bounds w index s first rest e :
  _events s = first :: rest →
  _events s !! index = Some e →
  emit_body w index s =
  (emitted s ++ [(w, channel_of first, e)],
   inr ((index + 1) mod length (_events s))).
Proof.
  intros Hev He. unfold emit_body. rewrite He, Hev. done.
Qed.

Lemma emit_body_empty w index s :
  _events s = [] → emit_body w index s = (emitted s, inl IndexError).
Proof. intros Hev. unfold emit_body. by rewrite Hev. Qed.

(** A turn of another thread leaves a thread and its emissions alone. *)
Lemma turn_of_other w w' s :
  w' ≠ w →
  let s' := emit_events_step w' s in
  threads s' !! w = threads s !! w ∧
  emitted_by w s' = emitted_by w s ∧
  is_running s' = is_running s ∧
  _events s' = _events s ∧
  _thread s' = _thread s.
Proof.
  intros Hne. unfold emit_events_step.
  destruct (threads s !! w') as [[|index| |]|]; try done.
  destruct (is_running s) eqn:Hr; simpl.
  - destruct (emit_body_emitted w' index s) as (out & Hout & Hall).
    destruct (emit_body w' index s) as [out' r]. simpl in *. subst out'.
    split_and!; try done.
    + by rewrite list_lookup_insert_ne.
    + unfold emitted_by at 1. simpl. rewrite emitted_by_app.
      rewrite filter_none; [by rewrite app_nil_r|].
      eapply Forall_impl; [exact Hall|]. simpl. congruence.
  - split_and!; try done. by rewrite list_lookup_insert_ne.
Qed.

Section Cycle.
Variables (events : list Event) (first : Event) (rest : list Event).
Variable w : nat.
Hypothesis events_first : events = first :: rest.

Lemma cursor_in_bounds n : is_Some (events !! (n mod length events)).
Proof.
  apply lookup_lt_is_Some, Nat.mod_upper_bound.
  by rewrite events_first.
Qed.

Lemma emitting_step n s a :
  emitting events w n s → is_running (step s a) = true →
  emitting events w (n + turn_count w a) (step s a) ∧
  emitted_by w (step s a) =
  emitted_by w s ++
  ((fun e => (channel_of first, e)) <$>
     omap (fun i => events !! (i mod length events))
          (seq n (turn_count w a))).
Proof.
  intros (Hr & Hev & Hth & Hw) Hr'. unfold turn_count.
  destruct (decide (a = thread_turn w)) as [->|Hna].
  - simpl. destruct (cursor_in_bounds n) as [e He]. rewrite He. simpl.
    simpl in Hr'. unfold emit_events_step in *. rewrite Hw, Hr in *.
    rewrite (emit_body_in_bounds w _ s first rest e) by
      (by rewrite Hev).
    unfold emitting, emitted_by. simpl. rewrite Hev.
    rewrite filter_app, fmap_app, filter_cons_True by done.
    split; [|done]. split_and!; try done.
    rewrite list_lookup_insert_eq by (by eapply lookup_lt_Some).
    f_equal. f_equal.
    by rewrite Nat.Div0.add_mod_idemp_l.
  - rewrite Nat.add_0_r. simpl. rewrite app_nil_r.
    destruct a as [evs| | |t|w']; simpl in *.
    + rewrite set_events_ignored in * by (by left). by repeat split.
    + done.
    + assert (run s = s) as ->.
      { unfold run, is_alive. by rewrite Hth, Hw. }
      by repeat split.
    + unfold fire in *.
      destruct (timers s !! t) as [tm|]; [|by repeat split].
      destruct (timer_status tm); try by repeat split.
      destruct (function tm); [|done].
      set (s1 := with_timers _ s) in *.
      assert (run s1 = s1) as ->.
      { unfold run, is_alive. simpl. by rewrite Hth, Hw. }
      by repeat split.
    + assert (w' ≠ w) as Hne by congruence.
      destruct (turn_of_other w w' s Hne) as (Ht & He & Hr2 & Hev2 & Hth2).
      unfold emitting. rewrite Ht, Hr2, Hev2, Hth2. by repeat split.
Qed.

Lemma turns_of_cons a acts :
  turns_of w (a :: acts) = turn_count w a + turns_of w acts.
Proof.
  unfold turns_of, turn_count. rewrite filter_cons.
  by case_decide.
Qed.

Lemma emitting_exec acts : ∀ n s,
  emitting events w n s → stays_running acts s = true →
  emitting events w (n + turns_of w acts) (exec acts s) ∧
  emitted_by w (exec acts s) =
  emitted_by w s ++
  ((fun e => (channel_of first, e)) <$>
     omap (fun i => events !! (i mod length events))
          (seq n (turns_of w acts))).
Proof.
  induction acts as [|a acts IH]; intros n s Hs Hstay; simpl.
  - unfold turns_of. simpl. rewrite Nat.add_0_r, app_nil_r. done.
  - simpl in Hstay. apply andb_true_iff in Hstay as [Hr Hstay].
    destruct (emitting_step n s a Hs Hr) as [Hs1 Hem1].
    destruct (IH _ _ Hs1 Hstay) as [Hs2 Hem2].
    rewrite turns_of_cons, Nat.add_assoc. split; [done|].
    unfold exec in *. rewrite Hem2, Hem1, <- app_assoc. f_equal.
    rewrite <- fmap_app. f_equal.
    rewrite seq_app, omap_app. done.
Qed.

(** Left alone with its flag set, the worker goes on for ever. *)
Lemma emitting_turns k : ∀ n s,
  emitting events w n s →
  stays_running (replicate k (thread_turn w)) s = true ∧
  turns_of w (replicate k (thread_turn w)) = k.
Proof.
  induction k as [|k IH]; intros n s Hs; [done|].
  assert (is_running (step s (thread_turn w)) = true) as Hr.
  { destruct Hs as (Hr & Hev & Hth & Hw). simpl.
    unfold emit_events_step. rewrite Hw, Hr.
    by destruct (emit_body w (n mod length events) s). }
  destruct (emitting_step n s _ Hs Hr) as [Hs1 _].
  destruct (IH _ _ Hs1) as [Hstay Hk].
  cbn [replicate stays_running]. rewrite Hr, Hstay. split; [done|].
  rewrite turns_of_cons, Hk. unfold turn_count.
  by rewrite decide_True.
Qed.



End Cycle.

(** ** Calls of [run] *)

Lemma run_alive s : is_alive (_thread s) s = true → run s = s.
Proof. unfold run. by intros ->. Qed.

Lemma run_launch s :
  is_alive (_thread s) s = false →
  run s =
  mkState true (_events s) (length (threads s)) (_start_timer s)
          (length (timers s))
          (threads s ++ [thread_alive 0])
          (timers s ++ [mkTimer 5 fn_stop timer_started])
          (emitted s).
Proof. unfold run. intros ->. by rewrite !alter_new. Qed.

Lemma fire_cases t s :
  fire t s = s ∨
  (∃ tm, timers s !! t = Some tm ∧ function tm = fn_run ∧
         timer_status tm = timer_started ∧
         fire t s = run (with_timers (<[t := fired tm]> (timers s)) s)) ∨
  (∃ tm, timers s !! t = Some tm ∧ function tm = fn_stop ∧
         timer_status tm = timer_started ∧
         fire t s = stop (with_timers (<[t := fired tm]> (timers s)) s)).
Proof.
  unfold fire. destruct (timers s !! t) as [tm|]; [|by left].
  destruct (timer_status tm) eqn:Hs; try by left.
  destruct (function tm) eqn:Hf; right; [left|right]; by exists tm.
Qed.

(** ** Invariants of the timers *)

Lemma lookup_fired t t' tm tm' (ts : list Timer) :
  <[t := fired tm]> ts !! t' = Some tm' →
  timer_status tm' = timer_started →
  ts !! t' = Some tm'.
Proof.
  intros Hl Hst. destruct (decide (t = t')) as [->|Hne].
  - destruct (decide (t' < length ts)) as [Hlt|Hge].
    + rewrite list_lookup_insert_eq in Hl by done. by simplify_eq.
    + by rewrite list_insert_ge in Hl by lia.
  - by rewrite list_lookup_insert_ne in Hl.
Qed.

Lemma lookup_run_timers t tm s :
  timers (run s) !! t = Some tm →
  timers s !! t = Some tm ∨
  (is_alive (_thread s) s = false ∧ t = length (timers s) ∧
   tm = mkTimer 5 fn_stop timer_started).
Proof.
  destruct (is_alive (_thread s) s) eqn:Ha.
  - rewrite run_alive by done. by left.
  - rewrite run_launch by done. simpl. intros Hl.
    destruct (decide (t < length (timers s))) as [Hlt|Hge].
    + left. by rewrite lookup_app_l in Hl.
    + right. pose proof (lookup_lt_Some _ _ _ Hl) as Hlen.
      rewrite length_app in Hlen. simpl in Hlen.
      assert (t = length (timers s)) as -> by lia.
      rewrite lookup_app_r, Nat.sub_diag in Hl by lia.
      simpl in Hl. by simplify_eq.
Qed.

Lemma run_fields s :
  _start_timer (run s) = _start_timer s ∧ _events (run s) = _events s ∧
  emitted (run s) = emitted s.
Proof. unfold run. by destruct (is_alive (_thread s) s). Qed.

Lemma cancel_not_started tm : timer_status (cancel tm) ≠ timer_started.
Proof. unfold cancel. by destruct (timer_status tm) eqn:H; simpl; rewrite ?H. Qed.

(** The timers of an accepted assignment: an old timer other than the one
    that is cancelled, the cancelled one, or the new one. *)
Lemma lookup_accepted_timers t tm s :
  (alter cancel (_start_timer s) (timers s) ++
     [mkTimer 1 fn_run timer_started]) !! t = Some tm →
  (t ≠ _start_timer s ∧ timers s !! t = Some tm) ∨
  (∃ tm0, t = _start_timer s ∧ timers s !! t = Some tm0 ∧ tm = cancel tm0) ∨
  (t = length (timers s) ∧ tm = mkTimer 1 fn_run timer_started).
Proof.
  intros Hl. destruct (decide (t < length (timers s))) as [Hlt|Hge].
  - rewrite lookup_app_l in Hl by (by rewrite length_alter).
    destruct (decide (_start_timer s = t)) as [<-|Hne].
    + right; left. rewrite list_lookup_alter_eq in Hl.
      destruct (timers s !! _start_timer s) as [tm0|]; [|done].
      exists tm0. simpl in Hl. by simplify_eq.
    + left. rewrite list_lookup_alter_ne in Hl by done. done.
  - right; right. pose proof (lookup_lt_Some _ _ _ Hl) as Hlen.
    rewrite length_app, length_alter in Hlen. simpl in Hlen.
    assert (t = length (timers s)) as -> by lia.
    rewrite lookup_app_r in Hl by (rewrite length_alter; lia).
    rewrite length_alter, Nat.sub_diag in Hl. simpl in Hl. by simplify_eq.
Qed.

Lemma sole_debounce_step s a : sole_debounce s → sole_debounce (step s a).
Proof.
  assert (∀ s, sole_debounce s → sole_debounce (run s)) as Hrun.
  { clear. intros s Hs t tm Hl Hf Hst.
    destruct (run_fields s) as (-> & _).
    destruct (lookup_run_timers t tm s Hl) as [Hl'|(_ & _ & ->)]; [|done].
    by eapply Hs. }
  assert (∀ t tm s, sole_debounce s →
            sole_debounce (with_timers (<[t := fired tm]> (timers s)) s))
    as Hfired.
  { clear. intros t tm s Hs t' tm' Hl Hf Hst. simpl in *.
    eapply Hs; [|done..]. by eapply lookup_fired. }
  intros Hs. destruct a as [evs| | |t|w']; simpl.
  - destruct (is_running s) eqn:Hr;
      [by rewrite set_events_ignored by (by left)|].
    destruct evs as [|e evs];
      [by rewrite set_events_ignored by (by right)|].
    rewrite set_events_accepted by done. intros t tm Hl Hf Hst. simpl in *.
    destruct (lookup_accepted_timers t tm s Hl)
      as [[Hne Hl'] | [(tm0 & _ & _ & ->) | [-> _]]].
    + exfalso. apply Hne. by eapply Hs.
    + by apply cancel_not_started in Hst.
    + done.
  - done.
  - by apply Hrun.
  - destruct (fire_cases t s)
      as [-> | [(tm & _ & _ & _ & ->) | (tm & _ & _ & _ & ->)]];
      [done|by apply Hrun, Hfired|by apply (Hfired t tm s)].
  - unfold emit_events_step.
    destruct (threads s !! w') as [[|index| |]|]; try done.
    destruct (is_running s); [|done].
    by destruct (emit_body w' index s).
Qed.

Lemma fixed_intervals_step s a : fixed_intervals s → fixed_intervals (step s a).
Proof.
  assert (∀ s, fixed_intervals s → fixed_intervals (run s)) as Hrun.
  { clear. intros s Hs t tm Hl.
    destruct (lookup_run_timers t tm s Hl) as [Hl'|(_ & _ & ->)]; [|done].
    by eapply Hs. }
  assert (∀ t tm s, timers s !! t = Some tm → fixed_intervals s →
            fixed_intervals (with_timers (<[t := fired tm]> (timers s)) s))
    as Hfired.
  { clear. intros t tm s Ht Hs t' tm' Hl. simpl in *.
    destruct (decide (t = t')) as [->|Hne].
    - rewrite list_lookup_insert_eq in Hl by (by eapply lookup_lt_Some).
      simplify_eq. simpl. by eapply Hs.
    - rewrite list_lookup_insert_ne in Hl by done. by eapply Hs. }
  intros Hs. destruct a as [evs| | |t|w']; simpl.
  - destruct (is_running s) eqn:Hr;
      [by rewrite set_events_ignored by (by left)|].
    destruct evs as [|e evs];
      [by rewrite set_events_ignored by (by right)|].
    rewrite set_events_accepted by done. intros t tm Hl. simpl in *.
    destruct (lookup_accepted_timers t tm s Hl)
      as [[Hne Hl'] | [(tm0 & _ & Hl' & ->) | [_ ->]]].
    + by eapply Hs.
    + specialize (Hs _ _ Hl'). unfold cancel.
      by destruct (timer_status tm0).
    + done.
  - done.
  - by apply Hrun.
  - destruct (fire_cases t s)
      as [-> | [(tm & Ht & _ & _ & ->) | (tm & Ht & _ & _ & ->)]];
      [done|by apply Hrun, Hfired|by apply (Hfired t tm s)].
  - unfold emit_events_step.
    destruct (threads s !! w') as [[|index| |]|]; try done.
    destruct (is_running s); [|done].
    by destruct (emit_body w' index s).
Qed.

Lemma timers_exec events acts :
  sole_debounce (exec acts (init events)) ∧
  fixed_intervals (exec acts (init events)).
Proof.
  induction acts as [|a acts [IH1 IH2]] using rev_ind.
  - split; intros [|[|t]] tm Hl; simpl in Hl; by simplify_eq.
  - unfold exec in *. rewrite fold_left_app. simpl.
    split; [by apply sole_debounce_step|by apply fixed_intervals_step].
Qed.

(** ** The setter *)

(** C5.  The setter of [events] ignores the assignment when the repeater
    is running or the list is empty: the state, with the stored list and
    every timer, is what it was.  Otherwise it stores the list, cancels
    the timer [_start_timer] refers to (a timer that was waiting will
    not fire any more), and makes [_start_timer] a new timer of one
    second that calls [run] and is started; nothing else changes.  In the
    states a repeater reaches no other timer is waiting to call [run], so
    after the assignment the new timer is the only one. *)
Theorem set_events_guarded events s :
  (is_running s = true ∨ events = [] → set_events events s = s) ∧
  (is_running s = false → events ≠ [] →
   let s' := set_events events s in
   _events s' = events ∧
   timers s' = alter cancel (_start_timer s) (timers s) ++
               [mkTimer 1 fn_run timer_started] ∧
   (∀ t, timers s !! _start_timer s = Some t →
         timers s' !! _start_timer s = Some (cancel t) ∧
         (timer_status t = timer_started →
          timer_status (cancel t) = timer_cancelled)) ∧
   (∀ i, i ≠ _start_timer s → i < length (timers s) →
         timers s' !! i = timers s !! i) ∧
   _start_timer s' = length (timers s) ∧
   timers s' !! _start_timer s' = Some (mkTimer 1 fn_run timer_started) ∧
   is_running s' = false ∧
   _thread s' = _thread s ∧
   _stop_timer s' = _stop_timer s ∧
   threads s' = threads s ∧
   emitted s' = emitted s) ∧
  (∀ events0 acts, s = exec acts (init events0) →
   ∀ t tm, timers (set_events events s) !! t = Some tm →
           function tm = fn_run → timer_status tm = timer_started →
           t = _start_timer (set_events events s)).
Proof.
  split; [apply set_events_ignored|]. split; cycle 1.
  { intros events0 acts ->.
    destruct (timers_exec events0 (acts ++ [call_set_events events]))
      as [Hsole _].
    unfold exec in Hsole. by rewrite fold_left_app in Hsole. }
  intros Hr Hne. simpl. rewrite set_events_accepted by done. simpl.
  split_and!; try done.
  - intros t Ht. split; [|apply cancel_started].
    rewrite lookup_app_l by
      (rewrite length_alter; by eapply lookup_lt_Some).
    by rewrite list_lookup_alter_eq, Ht.
  - intros i Hi Hlt.
    rewrite lookup_app_l by (by rewrite length_alter).
    by rewrite list_lookup_alter_ne.
  - rewrite lookup_app_r by (by rewrite length_alter).
    by rewrite length_alter, Nat.sub_diag.
Qed.

Lemma set_events_guarded_witness :
  set_events [button_C] (run (init [key_A])) = run (init [key_A]) ∧
  set_events [] (init [key_A]) = init [key_A] ∧
  let s' := set_events [key_A; key_B] (init []) in
  _events s' = [key_A; key_B] ∧
  timers s' = [mkTimer 1 fn_run timer_cancelled;
               mkTimer 5 fn_stop timer_new;
               mkTimer 1 fn_run timer_started] ∧
  _start_timer s' = 2.
Proof.
  destruct (set_events_guarded [button_C] (run (init [key_A]))) as [H1 _].
  destruct (set_events_guarded [] (init [key_A])) as [H2 _].
  destruct (set_events_guarded [key_A; key_B] (init [])) as (_ & H3 & _).
  split; [apply H1; by left|].
  split; [apply H2; by right|].
  specialize (H3 eq_refl ltac:(discriminate)).
  destruct H3 as (Hev & Htm & _ & _ & Hst & _).
  split; [exact Hev|]. split; [exact Htm|exact Hst].
Defined.

(** ** The cycle *)



(** The same run, computed: two events are assigned to the repeater the
    application creates, the timer fires, the worker takes four turns. *)
Example replay_A_B :
  emitted (exec [call_set_events [key_A; key_B]; timer_fires 2;
                 thread_turn 1; thread_turn 1; thread_turn 1;
                 call_set_events [button_C]; thread_turn 1]
                GremlinUi_repeater) =
  [(1, keyboard_channel, key_A); (1, keyboard_channel, key_B);
   (1, keyboard_channel, key_A); (1, keyboard_channel, key_B)].
Proof. reflexivity. Qed.

(** ** The empty list *)

(** C10.  [Repeater.__init__] stores the list it is given, the empty one
    as well, and the application gives it the empty one.  The setter is
    what keeps empty lists out: it stores a list only if the list is not
    empty.  In the body of the loop, on a list that is not empty and with
    the cursor inside it, the three accesses succeed and the cursor stays
    inside the list; on the empty list the body raises [IndexError] at
    its first access and emits nothing, so a worker started on the
    application's repeater dies at its first turn. *)
Theorem emit_events_needs_events :
  GremlinUi_repeater = init [] ∧
  (∀ events, _events (init events) = events) ∧
  (∀ events s,
     _events (set_events events s) = _events s ∨
     (_events (set_events events s) = events ∧ events ≠ [])) ∧
  (∀ w index s,
     _events s ≠ [] → index < length (_events s) →
     ∃ first e,
       _events s !! 0 = Some first ∧
       _events s !! index = Some e ∧
       emit_body w index s =
         (emitted s ++ [(w, channel_of first, e)],
          inr ((index + 1) mod length (_events s))) ∧
       (index + 1) mod length (_events s) < length (_events s)) ∧
  (∀ w index s,
     _events s = [] → emit_body w index s = (emitted s, inl IndexError)) ∧
  (let s := emit_events_step 1 (run GremlinUi_repeater) in
   is_running s = true ∧
   threads s !! 1 = Some (thread_raised IndexError) ∧
   emitted s = []).
Proof.
  split_and!; try done.
  - intros events s. unfold set_events.
    destruct (is_running s); [by left|].
    destruct events as [|e events]; [by left|by right].
  - intros w index s Hne Hlt.
    destruct (_events s) as [|first rest] eqn:Hev; [done|].
    destruct (lookup_lt_is_Some_2 (first :: rest) index Hlt) as [e He].
    exists first, e. split_and!; [done|done| |].
    + rewrite (emit_body_in_bounds w index s first rest e) by
        (by rewrite ?Hev).
      by rewrite Hev.
    + by apply Nat.mod_upper_bound.
  - intros w index s. apply emit_body_empty.
Qed.

Lemma emit_events_needs_events_witness :
  (∃ first e,
     [key_A; key_B] !! 0 = Some first ∧ [key_A; key_B] !! 1 = Some e ∧
     emit_body 1 1 (init [key_A; key_B]) =
       ([(1, channel_of first, e)], inr 0)) ∧
  emit_body 1 0 (init []) = ([], inl IndexError).
Proof.
  destruct emit_events_needs_events as (_ & _ & _ & Hin & Hout & _).
  split.
  - destruct (Hin 1 1 (init [key_A; key_B]) ltac:(discriminate)
                ltac:(simpl; lia)) as (first & e & H0 & H1 & Hb & _).
    exists first, e. split; [exact H0|]. split; [exact H1|exact Hb].
  - apply (Hout 1 0 (init [])). reflexivity.
Defined.

End RepeaterProps.

(** * Properties of the repeater, statement by statement *)

Module InterleavingProps.

Import Interleaving.

(** ** What one statement touches *)

Lemma statement_calls p s : calls (statement p s).2 = calls s.
Proof.
  destruct p; simpl; try done.
  - by destruct (is_running s || (length events =? 0)).
  - by destruct (timers s !! _start_timer s ≫= start_timer).
  - by destruct (is_alive t s).
  - by destruct (timers s !! _stop_timer s ≫= start_timer).
  - by destruct (workers s !! _thread s ≫= start_thread).
Qed.

Lemma statement_emitted p s : emitted (statement p s).2 = emitted s.
Proof.
  destruct p; simpl; try done.
  - by destruct (is_running s || (length events =? 0)).
  - by destruct (timers s !! _start_timer s ≫= start_timer).
  - by destruct (is_alive t s).
  - by destruct (timers s !! _stop_timer s ≫= start_timer).
  - by destruct (workers s !! _thread s ≫= start_thread).
Qed.

(** A statement of a call leaves a thread that was started as it is. *)
Lemma statement_workers p s w x :
  workers s !! w = Some x → x ≠ worker_new →
  workers (statement p s).2 !! w = Some x.
Proof.
  intros Hw Hx. destruct p; simpl; try done.
  - by destruct (is_running s || (length events =? 0)).
  - by destruct (timers s !! _start_timer s ≫= start_timer).
  - by destruct (is_alive t s).
  - by destruct (timers s !! _stop_timer s ≫= start_timer).
  - by apply lookup_app_l_Some.
  - destruct (workers s !! _thread s) as [y|] eqn:Hy; simpl; [|done].
    destruct y; simpl; try done.
    destruct (decide (w = _thread s)) as [->|Hne]; [congruence|].
    by rewrite list_lookup_insert_ne.
Qed.

Lemma call_step_workers c s w x :
  workers s !! w = Some x → x ≠ worker_new →
  workers (call_step c s) !! w = Some x.
Proof.
  intros Hw Hx. unfold call_step.
  destruct (calls s !! c) as [p|]; [|done].
  pose proof (statement_workers p s w x Hw Hx) as H.
  by destruct (statement p s).
Qed.

Lemma call_step_emitted c s : emitted (call_step c s) = emitted s.
Proof.
  unfold call_step. destruct (calls s !! c) as [p|]; [|done].
  pose proof (statement_emitted p s) as H.
  by destruct (statement p s).
Qed.

Lemma expire_workers t s : workers (expire t s) = workers s.
Proof.
  unfold expire. destruct (timers s !! t) as [tm|]; [|done].
  by destruct (clock tm).
Qed.

Lemma expire_emitted t s : emitted (expire t s) = emitted s.
Proof.
  unfold expire. destruct (timers s !! t) as [tm|]; [|done].
  by destruct (clock tm).
Qed.

Lemma emitted_by_same w s s' :
  emitted s' = emitted s → emitted_by w s' = emitted_by w s.
Proof. intros H. unfold emitted_by. by rewrite H. Qed.

(** A statement of another worker. *)
Lemma worker_step_other w w' s x :
  w ≠ w' → workers s !! w = Some x →
  workers (worker_step w' s) !! w = Some x ∧
  emitted_by w (worker_step w' s) = emitted_by w s.
Proof.
  intros Hne Hw. unfold worker_step.
  destruct (workers s !! w') as [y|] eqn:Hy; [|done].
  destruct (loop_statement w' y s) as [y' out] eqn:Hl. simpl.
  split; [by rewrite list_lookup_insert_ne|].
  assert (out = emitted s ∨ ∃ c e, out = emitted s ++ [(w', c, e)]) as Hout.
  { destruct y; simpl in Hl; simplify_eq; try by left.
    destruct (_events s !! index); simplify_eq; [right; eauto|by left]. }
  destruct Hout as [->|(c & e & ->)]; [done|].
  unfold emitted_by. simpl. rewrite filter_app, fmap_app.
  rewrite (filter_cons_False _ (w', c, e)) by (simpl; congruence).
  by rewrite filter_nil, app_nil_r.
Qed.

(** A statement of the worker itself while the flag is unset: it emits
    what it owes at most, and comes nearer to its end. *)
Lemma worker_step_cleared w s x :
  workers s !! w = Some x → x ≠ worker_new → is_running s = false →
  ∃ x' out,
    workers (worker_step w s) !! w = Some x' ∧ x' ≠ worker_new ∧
    emitted_by w (worker_step w s) = emitted_by w s ++ out ∧
    length out + owed (Some x') ≤ owed (Some x) ∧
    statements_left (Some x') ≤ statements_left (Some x) - 1.
Proof.
  intros Hw Hx Hr. unfold worker_step. rewrite Hw.
  assert (w < length (workers s)) as Hlt by (by eapply lookup_lt_Some).
  destruct x as [|i|i|i c|i| |e]; simpl; try done.
  - rewrite Hr. exists worker_returned, [].
    rewrite list_lookup_insert_eq, app_nil_r by done. simpl. split_and!; done || lia.
  - eexists _, []. rewrite list_lookup_insert_eq by done.
    rewrite app_nil_r. split; [done|].
    destruct (_events s !! 0); simpl; split_and!; done || lia.
  - destruct (_events s !! i) as [e|] eqn:He; simpl.
    + exists (at_index i), [(c, e)].
      rewrite list_lookup_insert_eq by done. split_and!; try done; [|simpl; lia..].
      unfold emitted_by. simpl. rewrite filter_app, fmap_app.
      by rewrite (filter_cons_True _ (w, c, e)) by done.
    + eexists _, []. rewrite list_lookup_insert_eq by done.
      rewrite app_nil_r. split_and!; done || (simpl; lia).
  - eexists _, []. rewrite list_lookup_insert_eq by done.
    rewrite app_nil_r. split; [done|].
    destruct (length (_events s) =? 0); simpl; split_and!; done || lia.
  - exists worker_returned, [].
    rewrite list_lookup_insert_eq, app_nil_r by done. simpl. split_and!; done || lia.
  - exists (worker_raised e), [].
    rewrite list_lookup_insert_eq, app_nil_r by done. simpl. split_and!; done || lia.
Qed.


Lemma worker_turns_cons w a acts :
  turns_of w (a :: acts) =
  (if decide (a = worker_turn w) then 1 else 0) + turns_of w acts.
Proof.
  unfold turns_of. rewrite filter_cons.
  by destruct (decide (a = worker_turn w)).
Qed.

(** One step, whoever takes it, while the flag is unset. *)
Lemma cleared_step w s a x :
  workers s !! w = Some x → x ≠ worker_new → is_running s = false →
  ∃ x' out,
    workers (step s a) !! w = Some x' ∧ x' ≠ worker_new ∧
    emitted_by w (step s a) = emitted_by w s ++ out ∧
    length out + owed (Some x') ≤ owed (Some x) ∧
    statements_left (Some x') ≤
      statements_left (Some x) - (if decide (a = worker_turn w) then 1 else 0).
Proof.
  intros Hw Hx Hr.
  assert (∀ s', workers s' !! w = Some x → emitted s' = emitted s →
                ∃ x' out,
                  workers s' !! w = Some x' ∧ x' ≠ worker_new ∧
                  emitted_by w s' = emitted_by w s ++ out ∧
                  length out + owed (Some x') ≤ owed (Some x) ∧
                  statements_left (Some x') ≤ statements_left (Some x) - 0)
    as Hsame.
  { intros s' Hw' He. exists x, []. rewrite app_nil_r.
    split_and!; [done|done|by apply emitted_by_same|simpl; lia|lia]. }
  destruct a as [m|t|c|w']; cbn [step].
  - rewrite decide_False by done. by apply Hsame.
  - rewrite decide_False by done.
    apply Hsame; [by rewrite expire_workers|apply expire_emitted].
  - rewrite decide_False by done.
    apply Hsame; [by apply call_step_workers|apply call_step_emitted].
  - destruct (decide (w' = w)) as [->|Hne].
    + rewrite decide_True by done. by apply worker_step_cleared.
    + rewrite decide_False by congruence.
      destruct (worker_step_other w w' s x) as [Hw' He]; [done|done|].
      exists x, []. rewrite app_nil_r.
      split_and!; [done|done|done|simpl; lia|lia].
Qed.

(** While the flag stays unset, a worker that was started emits what it
    owes at most, and every statement it executes brings it nearer to
    its end. *)
Lemma cleared_exec w acts : ∀ s x,
  workers s !! w = Some x → x ≠ worker_new →
  stays_cleared acts s = true →
  ∃ x' out,
    workers (exec acts s) !! w = Some x' ∧ x' ≠ worker_new ∧
    emitted_by w (exec acts s) = emitted_by w s ++ out ∧
    length out + owed (Some x') ≤ owed (Some x) ∧
    statements_left (Some x') ≤ statements_left (Some x) - turns_of w acts.
Proof.
  induction acts as [|a acts IH]; intros s x Hw Hx Hc.
  - exists x, []. rewrite app_nil_r. unfold turns_of. simpl.
    split_and!; [done|done|done|lia|lia].
  - simpl in Hc. apply andb_true_iff in Hc as [Hr Hc].
    apply negb_true_iff in Hr.
    destruct (cleared_step w s a x Hw Hx Hr)
      as (x1 & out1 & Hw1 & Hx1 & He1 & Ho1 & Hl1).
    destruct (IH (step s a) x1 Hw1 Hx1 Hc)
      as (x2 & out2 & Hw2 & Hx2 & He2 & Ho2 & Hl2).
    exists x2, (out1 ++ out2). change (exec (a :: acts) s) with
      (exec acts (step s a)).
    rewrite worker_turns_cons, length_app.
    split_and!; [done|done| |lia|lia].
    by rewrite He2, He1, <- app_assoc.
Qed.

(** ** Calls of [run] that do not overlap *)

Lemma elem_of_alive w s : w ∈ alive s ↔ is_alive w s = true.
Proof.
  unfold alive. rewrite list_elem_of_filter, elem_of_seq.
  split; [by intros [? _]|]. intros Ha. split; [done|].
  unfold is_alive in Ha.
  destruct (workers s !! w) eqn:Hw; [|done].
  apply lookup_lt_Some in Hw. lia.
Qed.

Lemma elem_of_launching c s :
  c ∈ launching s ↔ ∃ p, calls s !! c = Some p ∧ in_run p = true.
Proof.
  unfold launching. rewrite list_elem_of_filter, elem_of_seq. split.
  - intros [Hin _]. destruct (calls s !! c) as [p|]; [|done]. by exists p.
  - intros (p & Hc & Hin). rewrite Hc. split; [done|].
    apply lookup_lt_Some in Hc. lia.
Qed.

Lemma two_elements {A} (l : list A) x y :
  x ∈ l → y ∈ l → x ≠ y → 2 ≤ length l.
Proof.
  intros Hx Hy Hne. destruct l as [|a [|b l]]; simpl; [|exfalso|lia].
  - by apply elem_of_nil in Hx.
  - apply list_elem_of_singleton in Hx, Hy. congruence.
Qed.

Lemma sole_alive s :
  (∀ w, is_alive w s = true → w = _thread s) → length (alive s) ≤ 1.
Proof.
  intros Hs.
  assert (NoDup (alive s)) as Hnd
    by (unfold alive; apply NoDup_filter, NoDup_seq).
  destruct (alive s) as [|a [|b l]] eqn:Hal; simpl; [lia|lia|].
  exfalso.
  assert (a = _thread s) as Ha
    by (apply Hs, elem_of_alive; rewrite Hal; set_solver).
  assert (b = _thread s) as Hb
    by (apply Hs, elem_of_alive; rewrite Hal; set_solver).
  apply NoDup_cons in Hnd as [Hnot _]. apply Hnot. rewrite Ha, Hb. left.
Qed.

Lemma launching_head acts s :
  runs_apart acts s = true → length (launching s) ≤ 1.
Proof.
  intros Hap. destruct acts; simpl in Hap;
    apply andb_true_iff in Hap as [Hlen _];
    by apply bool_decide_eq_true in Hlen.
Qed.

(** Two calls of [run] that have read the thread overlap. *)
Lemma launching_two c c' p p' s :
  c ≠ c' →
  calls s !! c = Some p → in_run p = true →
  calls s !! c' = Some p' → in_run p' = true →
  2 ≤ length (launching s).
Proof.
  intros Hne Hc Hp Hc' Hp'.
  apply (two_elements _ c c'); [| |done]; apply elem_of_launching; eauto.
Qed.

Lemma past_test_in_run p : past_test p = true → in_run p = true.
Proof. by destruct p. Qed.

(** A statement of a worker starts no thread. *)
Lemma worker_step_alive w w' s :
  is_alive w (worker_step w' s) = true → is_alive w s = true.
Proof.
  unfold worker_step, is_alive.
  destruct (workers s !! w') as [y|] eqn:Hy; [|done].
  destruct (loop_statement w' y s) as [y' out] eqn:Hl. simpl.
  destruct (decide (w = w')) as [->|Hne].
  - rewrite Hy.
    rewrite list_lookup_insert_eq by (by eapply lookup_lt_Some).
    destruct y; simpl in Hl; simplify_eq; done.
  - by rewrite list_lookup_insert_ne.
Qed.

(** A call is begun: it has read nothing yet. *)
Lemma one_launch_begun p s :
  in_run p = false → one_launch s →
  one_launch (with_calls (calls s ++ [p]) s).
Proof.
  intros Hp (Hsole & Hread & Hpast). split_and!; [done| |].
  - intros c t Hc. simpl in Hc.
    apply lookup_app_Some in Hc as [Hc|[_ Hc]]; [by eapply Hread|].
    apply list_lookup_singleton_Some in Hc as [_ ->]. done.
  - intros c q Hc Hq. simpl in Hc.
    apply lookup_app_Some in Hc as [Hc|[_ Hc]]; [by eapply Hpast|].
    apply list_lookup_singleton_Some in Hc as [_ ->].
    apply past_test_in_run in Hq. congruence.
Qed.

Lemma one_launch_call_step c s :
  one_launch s → length (launching s) ≤ 1 →
  length (launching (call_step c s)) ≤ 1 →
  one_launch (call_step c s).
Proof.
  intros (Hsole & Hread & Hpast) Hlen Hlen'. revert Hlen'.
  unfold call_step.
  destruct (calls s !! c) as [p|] eqn:Hc; [|done].
  assert (c < length (calls s)) as Hlt by (by eapply lookup_lt_Some).
  (* no other call of [run] has read the thread *)
  assert (in_run p = true →
          ∀ c' q, c' ≠ c → calls s !! c' = Some q → in_run q = false)
    as Halone.
  { intros Hp c' q Hne Hq. destruct (in_run q) eqn:Hin; [|done].
    pose proof (launching_two c c' p q s (not_eq_sym Hne) Hc Hp Hq Hin).
    lia. }
  (* a statement that touches neither the threads nor [_thread] and
     does not take the call past the read or the test *)
  assert (∀ p' s',
            workers s' = workers s → _thread s' = _thread s →
            calls s' = calls s →
            (∀ t, p' = run_test t → p = run_test t) →
            (past_test p' = true → past_test p = true) →
            one_launch (jump c p' s')) as Hframe.
  { intros p' s' Hw Ht Hcs Hrd Hps. split_and!.
    - intros w. unfold is_alive. simpl. rewrite Hw, Ht. apply Hsole.
    - intros c' t. simpl. rewrite Hcs, Ht. intros Hl.
      apply list_lookup_insert_Some in Hl as [(<- & -> & _)|[_ Hl]].
      + apply (Hread c t). rewrite Hc. f_equal. by apply Hrd.
      + by eapply Hread.
    - intros c' q. simpl. rewrite Hcs. intros Hl Hq w.
      unfold is_alive. simpl. rewrite Hw.
      apply list_lookup_insert_Some in Hl as [(<- & -> & _)|[_ Hl]].
      + by apply (Hpast c p Hc (Hps Hq)).
      + by apply (Hpast c' q Hl Hq). }
  destruct p; simpl.
  - destruct (is_running s || (length events =? 0)); intros _;
      by apply Hframe.
  - intros _. by apply Hframe.
  - intros _. by apply Hframe.
  - intros _. by apply Hframe.
  - destruct (timers s !! _start_timer s ≫= start_timer); intros _;
      by apply Hframe.
  - intros _. by apply Hframe.
  - (* the read of [self._thread] *)
    intros Hlen'.
    assert (∀ c' q, c' ≠ c → calls s !! c' = Some q → in_run q = false)
      as Hothers.
    { intros c' q Hne Hq. destruct (in_run q) eqn:Hin; [|done].
      assert (2 ≤ length (launching (jump c (run_test (_thread s)) s))).
      { apply (launching_two c c' (run_test (_thread s)) q);
          [done| |done| |done]; simpl.
        - by apply list_lookup_insert_eq.
        - by rewrite list_lookup_insert_ne. }
      lia. }
    split_and!; [done| |].
    + intros c' t. simpl. intros Hl.
      apply list_lookup_insert_Some in Hl as [(_ & ? & _)|[Hne Hl]];
        [by simplify_eq|].
      by eapply Hread.
    + intros c' q. simpl. intros Hl Hq.
      apply list_lookup_insert_Some in Hl as [(_ & <- & _)|[Hne Hl]];
        [done|].
      apply past_test_in_run in Hq.
      by rewrite (Hothers c' q (not_eq_sym Hne) Hl) in Hq.
  - (* the call of [is_alive] *)
    intros _. pose proof (Hread c t Hc) as ->.
    destruct (is_alive (_thread s) s) eqn:Ha; [by apply Hframe|].
    split_and!; [done| |].
    + intros c' t. simpl. intros Hl.
      apply list_lookup_insert_Some in Hl as [(_ & ? & _)|[Hne Hl]];
        [done|].
      by eapply Hread.
    + intros _ _ _ _ w. destruct (is_alive w s) eqn:Hw; [|done].
      rewrite (Hsole w Hw) in Hw. unfold is_alive in *. simpl. congruence.
  - intros _. by apply Hframe.
  - intros _. by apply Hframe.
  - destruct (timers s !! _stop_timer s ≫= start_timer); intros _;
      by apply Hframe.
  - (* self._thread = threading.Thread(...) *)
    intros _. pose proof (Hpast c _ Hc eq_refl) as Hno.
    assert (∀ w, is_alive w
                   (jump c run_start_thread
                      (mkState (is_running s) (_events s)
                         (length (workers s)) (_start_timer s)
                         (_stop_timer s) (workers s ++ [worker_new])
                         (timers s) (calls s) (emitted s))) = false)
      as Hno'.
    { intros w. specialize (Hno w). unfold is_alive in *. simpl.
      destruct (workers s !! w) as [x|] eqn:Hw.
      - by rewrite (lookup_app_l_Some _ _ _ _ Hw).
      - apply lookup_ge_None in Hw.
        rewrite lookup_app_r by done.
        by destruct (w - length (workers s)) as [|[|n]]. }
    split_and!.
    + intros w Hw. by rewrite Hno' in Hw.
    + intros c' t. simpl. intros Hl.
      apply list_lookup_insert_Some in Hl as [(_ & ? & _)|[Hne Hl]];
        [done|].
      by pose proof (Halone eq_refl c' (run_test t) (not_eq_sym Hne) Hl).
    + intros _ _ _ _. apply Hno'.
  - (* self._thread.start() *)
    intros _. pose proof (Hpast c _ Hc eq_refl) as Hno.
    assert (∀ p' s', calls s' = calls s → past_test p' = false →
                     ∀ c' q, calls (jump c p' s') !! c' = Some q →
                             past_test q = false) as Hnone.
    { intros p' s' Hcs Hp' c' q. simpl. rewrite Hcs. intros Hl.
      apply list_lookup_insert_Some in Hl as [(_ & <- & _)|[Hne Hl]];
        [done|].
      destruct (past_test q) eqn:Hq; [|done].
      apply past_test_in_run in Hq.
      by rewrite (Halone eq_refl c' q (not_eq_sym Hne) Hl) in Hq. }
    assert (∀ p' s', calls s' = calls s → _thread s' = _thread s →
                     (∀ t, p' ≠ run_test t) →
                     ∀ c' t, calls (jump c p' s') !! c' = Some (run_test t) →
                             t = _thread s') as Hrd.
    { intros p' s' Hcs Ht Hp' c' t. simpl. rewrite Hcs, Ht. intros Hl.
      apply list_lookup_insert_Some in Hl as [(_ & ? & _)|[Hne Hl]];
        [by destruct (Hp' t)|].
      by eapply Hread. }
    destruct (workers s !! _thread s ≫= start_thread) as [x|] eqn:Hx.
    + split_and!.
      * intros w. unfold is_alive. simpl.
        destruct (decide (w = _thread s)) as [->|Hne]; [done|].
        rewrite list_lookup_insert_ne by done.
        intros Hw. specialize (Hno w). unfold is_alive in Hno. congruence.
      * by apply (Hrd call_returned
                      (with_workers (<[_thread s:=x]> (workers s)) s)).
      * intros c' q Hl Hq.
        by rewrite (Hnone call_returned
                      (with_workers (<[_thread s:=x]> (workers s)) s)
                      eq_refl eq_refl c' q Hl) in Hq.
    + split_and!.
      * intros w Hw. specialize (Hno w). unfold is_alive in *.
        simpl in Hw. congruence.
      * by apply (Hrd call_raised s).
      * intros c' q Hl Hq.
        by rewrite (Hnone call_raised s eq_refl eq_refl c' q Hl) in Hq.
  - intros _. by apply Hframe.
  - intros _. by apply Hframe.
Qed.

Lemma one_launch_step s a :
  one_launch s → length (launching s) ≤ 1 →
  length (launching (step s a)) ≤ 1 →
  one_launch (step s a).
Proof.
  intros Hone Hlen Hlen'. destruct a as [m|t|c|w']; cbn [step] in *.
  - apply one_launch_begun; [by destruct m|done].
  - unfold expire. destruct (timers s !! t) as [tm|]; [|done].
    destruct (clock tm); try done.
    destruct Hone as (Hsole & Hread & Hpast).
    apply (one_launch_begun _ (with_timers _ s));
      [by destruct (function tm)|done].
  - by apply one_launch_call_step.
  - destruct Hone as (Hsole & Hread & Hpast).
    assert (_thread (worker_step w' s) = _thread s ∧
            calls (worker_step w' s) = calls s) as [Ht Hcs].
    { unfold worker_step. destruct (workers s !! w'); [|done].
      by destruct (loop_statement w' w s). }
    split_and!.
    + intros w Hw. rewrite Ht. by apply Hsole, (worker_step_alive w w').
    + intros c t. rewrite Hcs, Ht. apply Hread.
    + intros c p. rewrite Hcs. intros Hc Hp w.
      destruct (is_alive w (worker_step w' s)) eqn:Hw; [|done].
      apply worker_step_alive in Hw. by rewrite (Hpast c p Hc Hp) in Hw.
Qed.

(** As long as the calls of [run] do not overlap, no worker is alive but
    the one [_thread] refers to. *)
Lemma one_launch_exec acts : ∀ s,
  one_launch s → runs_apart acts s = true → one_launch (exec acts s).
Proof.
  induction acts as [|a acts IH]; intros s Hone Hap; [done|].
  pose proof (launching_head _ _ Hap) as Hlen.
  simpl in Hap. apply andb_true_iff in Hap as [_ Hap].
  pose proof (launching_head _ _ Hap) as Hlen'.
  apply (IH (step s a)); [by apply one_launch_step|done].
Qed.

Lemma one_launch_init events : one_launch (init events).
Proof.
  split_and!.
  - intros w. unfold is_alive. simpl. by destruct w as [|[|w]].
  - intros c t Hc. simpl in Hc. by rewrite lookup_nil in Hc.
  - intros c p Hc. simpl in Hc. by rewrite lookup_nil in Hc.
Qed.

(** ** Calls that are not interrupted *)

(** No statement reads the calls. *)
Lemma statement_with_calls p cs s :
  statement p (with_calls cs s) =
  ((statement p s).1, with_calls cs (statement p s).2).
Proof.
  destruct p; simpl; try done.
  - by destruct (is_running s || (length events =? 0)).
  - by destruct (timers s !! _start_timer s ≫= start_timer).
  - unfold is_alive. simpl. by destruct (workers s !! t) as [[]|].
  - by destruct (timers s !! _stop_timer s ≫= start_timer).
  - by destruct (workers s !! _thread s ≫= start_thread).
Qed.

Lemma proceed_with_calls n : ∀ p cs s,
  proceed n p (with_calls cs s) =
  ((proceed n p s).1, with_calls cs (proceed n p s).2).
Proof.
  induction n as [|n IH]; intros p cs s; [done|]. simpl.
  rewrite statement_with_calls. destruct (statement p s) as [p' s'].
  simpl. apply IH.
Qed.

Lemma call_step_jump c p s :
  c < length (calls s) →
  call_step c (jump c p s) = jump c (statement p s).1 (statement p s).2.
Proof.
  intros Hc. unfold call_step, jump at 1 2. simpl.
  rewrite list_lookup_insert_eq by done.
  rewrite statement_with_calls.
  pose proof (statement_calls p s) as Hcs.
  destruct (statement p s) as [p' s']. simpl in *.
  unfold jump. simpl. by rewrite list_insert_insert_eq, Hcs.
Qed.

(** The thread of a call executes [n] statements in a row. *)
Lemma call_turns c n : ∀ p s,
  c < length (calls s) →
  exec (replicate n (call_turn c)) (jump c p s) =
  jump c (proceed n p s).1 (proceed n p s).2.
Proof.
  induction n as [|n IH]; intros p s Hc; [done|].
  simpl. rewrite call_step_jump by done.
  pose proof (statement_calls p s) as Hcs.
  destruct (statement p s) as [p' s']. simpl in *.
  apply IH. by rewrite Hcs.
Qed.

(** A call from its first statement on. *)
Lemma call_uninterrupted n p s :
  coarse (exec (replicate n (call_turn (length (calls s))))
               (with_calls (calls s ++ [p]) s)) =
  coarse (proceed n p s).2.
Proof.
  set (c := length (calls s)).
  assert (with_calls (calls s ++ [p]) s =
          jump c p (with_calls (calls s ++ [p]) s)) as ->.
  { unfold jump, with_calls. simpl. f_equal. symmetry.
    apply list_insert_id.
    rewrite lookup_app_r by done. unfold c. by rewrite Nat.sub_diag. }
  rewrite call_turns by (simpl; rewrite length_app; simpl; unfold c; lia).
  rewrite proceed_with_calls. by destruct (proceed n p s).
Qed.

Lemma proceed_returned n s : proceed n call_returned s = (call_returned, s).
Proof. by induction n. Qed.

Lemma timer_of_cancel t :
  timer_of (cancel t) = Repeater.cancel (timer_of t).
Proof. destruct t as [i f []]; done. Qed.

Lemma is_alive_coarse w s : Repeater.is_alive w (coarse s) = is_alive w s.
Proof.
  unfold Repeater.is_alive, is_alive, coarse. simpl.
  rewrite list_lookup_fmap. by destruct (workers s !! w) as [[]|].
Qed.

(** The statements of the setter, in a row. *)
Lemma set_events_statements events s :
  coarse (proceed 5 (set_test events) s).2 =
  Repeater.set_events events (coarse s).
Proof.
  destruct (is_running s || (length events =? 0)) eqn:Hg.
  - unfold Repeater.set_events. simpl. by rewrite Hg.
  - apply orb_false_iff in Hg as Hg'. destruct Hg' as [Hr Hl].
    rewrite RepeaterProps.set_events_accepted;
      [|done|by destruct events].
    simpl. rewrite Hg. simpl.
    rewrite lookup_app_r by (by rewrite length_alter).
    rewrite length_alter, Nat.sub_diag. simpl.
    unfold coarse. simpl. rewrite Hr.
    rewrite insert_app_r_alt by (by rewrite length_alter).
    rewrite length_alter, Nat.sub_diag. simpl.
    rewrite fmap_app, length_fmap. simpl.
    rewrite (list_fmap_alter timer_of cancel Repeater.cancel); [done|].
    apply Forall_forall. intros t _. apply timer_of_cancel.
Qed.

(** The statement of [stop]. *)
Lemma stop_statements n s :
  coarse (proceed (S n) stop_assign s).2 = Repeater.stop (coarse s).
Proof. simpl. by rewrite proceed_returned. Qed.

(** The statements of [run], in a row. *)
Lemma run_statements s :
  coarse (proceed 7 run_read s).2 = Repeater.run (coarse s).
Proof.
  destruct (is_alive (_thread s) s) eqn:Ha.
  - rewrite RepeaterProps.run_alive by (by rewrite is_alive_coarse).
    simpl. by rewrite Ha.
  - rewrite RepeaterProps.run_launch by (by rewrite is_alive_coarse).
    simpl. rewrite Ha. simpl.
    rewrite lookup_app_r by done. rewrite Nat.sub_diag. simpl.
    rewrite lookup_app_r by done. rewrite Nat.sub_diag. simpl.
    unfold coarse. simpl.
    rewrite !insert_app_r_alt by done. rewrite !Nat.sub_diag. simpl.
    by rewrite !fmap_app, !length_fmap.
Qed.

Lemma worker_step_idle w x s :
  workers s !! w = Some x →
  match x with
  | worker_new | worker_returned | worker_raised _ => True
  | _ => False
  end →
  worker_step w s = s.
Proof.
  intros Hw Hx. unfold worker_step. rewrite Hw.
  destruct x; try done; simpl; rewrite list_insert_id by done;
    by destruct s.
Qed.

Lemma worker_step_insert w x r ev th st sp ws ts cs em :
  w < length ws →
  worker_step w (mkState r ev th st sp (<[w:=x]> ws) ts cs em) =
  mkState r ev th st sp
    (<[w:=(loop_statement w x (mkState r ev th st sp ws ts cs em)).1]> ws)
    ts cs (loop_statement w x (mkState r ev th st sp ws ts cs em)).2.
Proof.
  intros Hlt. unfold worker_step. simpl.
  rewrite list_lookup_insert_eq by done.
  destruct x; simpl; rewrite ?list_insert_insert_eq; try done.
  destruct (ev !! index); simpl; by rewrite list_insert_insert_eq.
Qed.

(** One iteration of the loop, from the test to the sleep. *)
Lemma iteration_uninterrupted w s :
  between_iterations s →
  coarse (exec (replicate 4 (worker_turn w)) s) =
    Repeater.emit_events_step w (coarse s) ∧
  between_iterations (exec (replicate 4 (worker_turn w)) s).
Proof.
  intros Hb. unfold Repeater.emit_events_step.
  change (Repeater.threads (coarse s)) with (thread_of <$> workers s).
  rewrite list_lookup_fmap.
  destruct (workers s !! w) as [x|] eqn:Hw; simpl.
  2:{ assert (worker_step w s = s) as Hs
        by (unfold worker_step; by rewrite Hw).
      by rewrite !Hs. }
  assert (w < length (workers s)) as Hlt by (by eapply lookup_lt_Some).
  pose proof (proj1 (Forall_lookup _ _) Hb w x Hw) as Hx.
  destruct x as [|i|i|i c|i| |e]; try done.
  1,3,4: by rewrite !(worker_step_idle w _ s Hw I).
  unfold Repeater.emit_body, between_iterations.
  destruct s as [r ev th st sp ws ts cs em]. simpl in *.
  match goal with |- context [worker_step w (worker_step w ?t)] =>
    remember (worker_step w (worker_step w t)) as s4 eqn:Hs4 end.
  unfold worker_step at 4 in Hs4. simpl in Hs4. rewrite Hw in Hs4.
  simpl in Hs4. rewrite !worker_step_insert in Hs4 by done.
  simpl in Hs4. subst s4.
  destruct r; simpl.
  - destruct (ev !! 0) as [first|] eqn:H0; simpl.
    + destruct (ev !! i) as [e|] eqn:Hi; simpl.
      * destruct (length ev =? 0); simpl;
          (split; [unfold coarse; simpl; by rewrite list_fmap_insert|
                   by apply Forall_insert]).
      * split; [unfold coarse; simpl; by rewrite list_fmap_insert|
                by apply Forall_insert].
    + split; [unfold coarse; simpl; by rewrite list_fmap_insert|
              by apply Forall_insert].
  - split; [unfold coarse, Repeater.with_threads; simpl;
            by rewrite list_fmap_insert|by apply Forall_insert].
Qed.

Lemma between_statement p s :
  between_iterations s → between_iterations (statement p s).2.
Proof.
  unfold between_iterations. intros Hb. destruct p; simpl; try done.
  - by destruct (is_running s || (length events =? 0)).
  - by destruct (timers s !! _start_timer s ≫= start_timer).
  - by destruct (is_alive t s).
  - by destruct (timers s !! _stop_timer s ≫= start_timer).
  - apply Forall_app. split; [done|]. by apply Forall_singleton.
  - destruct (workers s !! _thread s) as [[]|]; simpl; try done.
    by apply Forall_insert.
Qed.

Lemma between_call_turns c n : ∀ s,
  between_iterations s →
  between_iterations (exec (replicate n (call_turn c)) s).
Proof.
  induction n as [|n IH]; intros s Hb; [done|].
  simpl. apply IH. unfold call_step.
  destruct (calls s !! c) as [p|]; [|done].
  pose proof (between_statement p s Hb) as Hp.
  by destruct (statement p s).
Qed.

Lemma call_turns_none c n s :
  calls s !! c = None → exec (replicate n (call_turn c)) s = s.
Proof.
  intros Hc. induction n as [|n IH]; [done|].
  simpl. unfold call_step. by rewrite Hc.
Qed.

Lemma exec_cons a acts s : exec (a :: acts) s = exec acts (step s a).
Proof. done. Qed.

(** A step of [Repeater] is what its statements do when nothing comes
    in between. *)
Lemma schedule_refines a s :
  between_iterations s →
  coarse (exec (schedule a s) s) = Repeater.step (coarse s) a ∧
  between_iterations (exec (schedule a s) s).
Proof.
  intros Hb.
  destruct a as [events| | |t|w]; unfold schedule;
    [rewrite exec_cons..|]; cbn [step entry Repeater.step].
  - split; [|by apply between_call_turns].
    rewrite (call_uninterrupted 5). apply set_events_statements.
  - change [call_turn (length (calls s))]
      with (replicate 1 (call_turn (length (calls s)))).
    split; [|by apply between_call_turns].
    rewrite (call_uninterrupted 1). apply (stop_statements 0).
  - split; [|by apply between_call_turns].
    rewrite (call_uninterrupted 7). apply run_statements.
  - unfold expire, Repeater.fire.
    change (Repeater.timers (coarse s)) with (timer_of <$> timers s).
    rewrite list_lookup_fmap.
    assert (calls s !! length (calls s) = None) as Hnone
      by (by apply lookup_ge_None).
    destruct (timers s !! t) as [tm|] eqn:Ht;
      [|by rewrite call_turns_none].
    destruct tm as [i f k].
    destruct k; cbn [clock function interval timer_of fmap option_fmap
                     option_map Repeater.timer_status Repeater.function];
      try (by rewrite call_turns_none).
    set (s1 := with_timers (<[t:=mkTimer i f clock_called]> (timers s)) s).
    change (calls s) with (calls s1).
    split; [|by apply between_call_turns].
    rewrite (call_uninterrupted 7).
    assert (Repeater.with_timers
              (<[t:=Repeater.fired
                      (timer_of (mkTimer i f clock_waiting))]>
                 (timer_of <$> timers s)) (coarse s) = coarse s1) as ->.
    { unfold s1, coarse, Repeater.with_timers. simpl.
      by rewrite list_fmap_insert. }
    destruct f; [apply run_statements|apply (stop_statements 6)].
  - by apply iteration_uninterrupted.
Qed.

Lemma uninterrupted_refines acts : ∀ s,
  between_iterations s →
  coarse (exec (uninterrupted acts s) s) = Repeater.exec acts (coarse s).
Proof.
  induction acts as [|a acts IH]; intros s Hb; [done|].
  simpl. unfold exec at 1. rewrite fold_left_app.
  destruct (schedule_refines a s Hb) as [Hc Hb'].
  fold (exec (schedule a s) s).
  fold (exec (uninterrupted acts (exec (schedule a s) s))
             (exec (schedule a s) s)).
  rewrite IH by done. by rewrite Hc.
Qed.

(** X20.  Every run of [Repeater.exec], in which a call of a method, the
    call a timer makes and an iteration of the loop are one step each, is
    a run of the statements: the one in which each of them is executed
    without interruption.  What [Repeater] shows of such runs holds of
    the program when its threads happen to take turns in that way. *)
Theorem uninterrupted_runs events acts :
  coarse (exec (uninterrupted acts (init events)) (init events)) =
  Repeater.exec acts (Repeater.init events).
Proof.
  rewrite uninterrupted_refines; [done|].
  unfold between_iterations. simpl. by apply Forall_singleton.
Qed.

(** ** Stopping *)

(** C7 (as amended).  [stop] clears the flag, and so does the timer of
    five seconds that [run] starts when it launches a worker; with the
    flag cleared, a non-empty list assigned to [events] is stored and the
    one-second timer is started again.  The loop reads the flag once in
    an iteration, and nothing keeps a call of [stop] from coming between
    two of its statements: while the flag stays cleared, a worker still
    emits the event of the iteration it is in, if it is past the test
    and not past the emission, and no other; within four of its
    statements the thread has ended, by returning at the test or by the
    exception of an access that failed.  In the states a repeater reaches
    when calls follow one another every timer that calls [stop] has the
    interval of five seconds. *)
Theorem cleared_flag_ends_emission (s : Repeater.State) :
  Repeater.is_running (Repeater.stop s) = false ∧
  (∀ events0 acts t tm,
     s = Repeater.exec acts (Repeater.init events0) →
     Repeater.timers s !! t = Some tm →
     Repeater.function tm = Repeater.fn_stop →
     Repeater.interval tm = 5%Q ∧
     (Repeater.timer_status tm = Repeater.timer_started →
      Repeater.is_running (Repeater.fire t s) = false)) ∧
  (Repeater.is_alive (Repeater._thread s) s = false →
     let r := Repeater.run s in
     Repeater.is_running r = true ∧
     Repeater.timers r !! Repeater._stop_timer r =
       Some (Repeater.mkTimer 5 Repeater.fn_stop Repeater.timer_started) ∧
     Repeater.is_running (Repeater.fire (Repeater._stop_timer r) r) = false ∧
     ∀ events, events ≠ [] →
       Repeater._events
         (Repeater.set_events events
            (Repeater.fire (Repeater._stop_timer r) r)) = events) ∧
  (∀ (fs : State) w x acts,
     workers fs !! w = Some x → x ≠ worker_new →
     stays_cleared acts fs = true →
     let fs' := exec acts fs in
     ∃ out,
       emitted_by w fs' = emitted_by w fs ++ out ∧
       length out ≤ owed (Some x) ∧ owed (Some x) ≤ 1 ∧
       statements_left (Some x) ≤ 4 ∧
       (statements_left (Some x) ≤ turns_of w acts →
        workers fs' !! w = Some worker_returned ∨
        ∃ e, workers fs' !! w = Some (worker_raised e))) ∧
  (∀ events, Repeater.is_running s = false → events ≠ [] →
     let s' := Repeater.set_events events s in
     Repeater._events s' = events ∧
     Repeater.timers s' !! Repeater._start_timer s' =
       Some (Repeater.mkTimer 1 Repeater.fn_run Repeater.timer_started)).
Proof.
  split_and!.
  - done.
  - intros events0 acts t tm -> Hl Hf.
    destruct (RepeaterProps.timers_exec events0 acts) as [_ Hfix].
    specialize (Hfix t tm Hl). rewrite Hf in Hfix. split; [done|].
    intros Hst. unfold Repeater.fire. by rewrite Hl, Hst, Hf.
  - intros Ha. simpl. rewrite RepeaterProps.run_launch by done. simpl.
    assert ((Repeater.timers s ++
               [Repeater.mkTimer 5 Repeater.fn_stop Repeater.timer_started])
              !! length (Repeater.timers s)
            = Some (Repeater.mkTimer 5 Repeater.fn_stop
                                     Repeater.timer_started)) as Ht.
    { rewrite lookup_app_r by lia. by rewrite Nat.sub_diag. }
    split_and!; [done|done| |].
    + unfold Repeater.fire. simpl. by rewrite Ht.
    + intros events Hne. unfold Repeater.fire. simpl. rewrite Ht. simpl.
      by rewrite RepeaterProps.set_events_accepted.
  - intros fs w x acts Hw Hx Hc. cbv zeta.
    destruct (cleared_exec w acts fs x Hw Hx Hc)
      as (x' & out & Hw' & Hx' & He & Ho & Hl).
    exists out. split_and!; [done|lia| | |].
    + destruct x; simpl; lia.
    + destruct x; simpl; lia.
    + intros Hturns. rewrite Hw'.
      set (n := statements_left (Some x)) in *. clearbody n.
      destruct x' as [|i|i|i c|i| |e]; simpl in Hl; try lia.
      * by destruct Hx'.
      * by left.
      * right. by exists e.
  - intros events Hr Hne. simpl.
    rewrite RepeaterProps.set_events_accepted by done.
    simpl. split; [done|].
    rewrite lookup_app_r by (by rewrite length_alter).
    by rewrite length_alter, Nat.sub_diag.
Qed.

Lemma cleared_flag_ends_emission_witness :
  let fs := exec stopped_in_iteration (init []) in
  let fs' := exec (replicate 4 (worker_turn 1)) fs in
  is_running fs = false ∧
  workers fs !! 1 = Some (at_if 0) ∧
  (∃ out, emitted_by 1 fs' = emitted_by 1 fs ++ out ∧ length out ≤ 1) ∧
  (workers fs' !! 1 = Some worker_returned ∨
   ∃ e, workers fs' !! 1 = Some (worker_raised e)).
Proof.
  intros fs fs'.
  destruct (cleared_flag_ends_emission (Repeater.init []))
    as (_ & _ & _ & Hw & _).
  destruct (Hw fs 1 (at_if 0) (replicate 4 (worker_turn 1))
              eq_refl ltac:(discriminate) eq_refl)
    as (out & He & Hlen & _ & _ & Hend).
  split; [reflexivity|]. split; [reflexivity|]. split.
  - exists out. split; [exact He|exact Hlen].
  - apply Hend. simpl. unfold turns_of. simpl. lia.
Defined.

(** C7 (counterexample).  The setter has stored the list [A, B], its
    timer has called [run], and the worker has found the flag set when
    the timer of five seconds calls [stop].  The flag is cleared and
    nothing was emitted yet; with its next two statements the worker
    emits [A]. *)
Lemma cleared_flag_counterexample :
  let fs := exec stopped_in_iteration (init []) in
  let fs' := exec [worker_turn 1; worker_turn 1] fs in
  is_running fs = false ∧
  is_alive 1 fs = true ∧
  emitted fs = [] ∧
  is_running fs' = false ∧
  emitted fs' = [(1, keyboard_channel, Repeater.key_A)].
Proof. done. Qed.

(** ** At most one worker *)

Lemma alive_run (r : Repeater.State) :
  Repeater.is_alive (Repeater._thread r) r = false →
  Repeater.alive (Repeater.run r) =
  Repeater.alive r ++ [length (Repeater.threads r)].
Proof.
  intros Ha. rewrite RepeaterProps.run_launch by done.
  unfold Repeater.alive. simpl.
  rewrite length_app. simpl. rewrite Nat.add_1_r, seq_S, filter_app.
  simpl. rewrite filter_cons_True.
  2:{ unfold Repeater.is_alive. simpl.
      rewrite lookup_app_r by lia. by rewrite Nat.sub_diag. }
  rewrite filter_nil. f_equal. apply ListFacts.filter_ext_in.
  intros w Hw. apply elem_of_seq in Hw. unfold Repeater.is_alive. simpl.
  by rewrite lookup_app_l by lia.
Qed.

(** C8 (as amended).  [run] returns at once when the thread [_thread]
    refers to is alive at its test; otherwise it sets the flag, starts a
    new timer of five seconds that calls [stop], and starts one new
    thread.  The statements of a call that nothing interrupts do just
    that.  [run] takes no lock: whatever is called, whichever timers
    expire and in whatever order the threads execute their statements,
    as long as the calls of [run] do not overlap, at most one of them
    being between its read of [_thread] and its end at any time, at most
    one worker is alive, the one [_thread] refers to. *)
Theorem one_worker_at_a_time events acts :
  runs_apart acts (init events) = true →
  let s := exec acts (init events) in
  length (alive s) ≤ 1 ∧
  (∀ w, is_alive w s = true → w = _thread s) ∧
  (∀ r, Repeater.is_alive (Repeater._thread r) r = true →
        Repeater.run r = r) ∧
  (∀ r, Repeater.is_alive (Repeater._thread r) r = false →
        let r' := Repeater.run r in
        Repeater.is_running r' = true ∧
        Repeater.timers r' =
          Repeater.timers r ++
          [Repeater.mkTimer 5 Repeater.fn_stop Repeater.timer_started] ∧
        Repeater._stop_timer r' = length (Repeater.timers r) ∧
        Repeater.threads r' =
          Repeater.threads r ++ [Repeater.thread_alive 0] ∧
        Repeater._thread r' = length (Repeater.threads r) ∧
        Repeater.alive r' =
          Repeater.alive r ++ [length (Repeater.threads r)] ∧
        Repeater._events r' = Repeater._events r ∧
        Repeater._start_timer r' = Repeater._start_timer r ∧
        Repeater.emitted r' = Repeater.emitted r) ∧
  (∀ fs, coarse (proceed 7 run_read fs).2 = Repeater.run (coarse fs)).
Proof.
  intros Hap s.
  pose proof (one_launch_exec acts (init events)
                (one_launch_init events) Hap) as (Hsole & _ & _).
  fold s in Hsole. split_and!.
  - by apply sole_alive.
  - done.
  - apply RepeaterProps.run_alive.
  - intros r Ha. cbv zeta. rewrite alive_run by done.
    rewrite RepeaterProps.run_launch by done. done.
  - apply run_statements.
Qed.

Lemma one_worker_at_a_time_witness :
  let s := exec stopped_in_iteration (init []) in
  length (alive s) ≤ 1 ∧
  alive s = [1] ∧
  _thread s = 1 ∧
  Repeater.alive (Repeater.run (Repeater.init [])) = [1].
Proof.
  intros s.
  destruct (one_worker_at_a_time [] stopped_in_iteration eq_refl)
    as (Hlen & Hsole & _ & Hrun & _).
  split; [exact Hlen|]. split; [reflexivity|]. split.
  - symmetry. apply Hsole. reflexivity.
  - destruct (Hrun (Repeater.init []) eq_refl)
      as (_ & _ & _ & _ & _ & Hal & _).
    exact Hal.
Defined.

(** C8 (counterexample).  The setter stores a list and its timer calls
    [run]; the call has passed the test, with no worker alive, when the
    setter is called again, which it accepts since the flag is not set
    yet, and its new timer calls [run] as well.  Both calls go on and
    start a thread each: two workers are alive, and both emit. *)
Lemma one_worker_counterexample :
  let s := exec overlapping_runs (init []) in
  Forall (fun a => match a with
                   | begins (m_set_events _) | expires _ | call_turn _ => True
                   | _ => False
                   end) overlapping_runs ∧
  calls s = [call_returned; call_returned; call_returned; call_returned] ∧
  workers s = [worker_new; at_while 0; at_while 0] ∧
  alive s = [1; 2] ∧
  ¬ length (alive s) ≤ 1 ∧
  emitted (exec (replicate 3 (worker_turn 1) ++ replicate 3 (worker_turn 2))
                s) =
    [(1, keyboard_channel, Repeater.key_B);
     (2, keyboard_channel, Repeater.key_B)].
Proof.
  split_and!.
  - unfold overlapping_runs. simpl. repeat constructor.
  - vm_compute. reflexivity.
  - vm_compute. reflexivity.
  - vm_compute. reflexivity.
  - assert (alive (exec overlapping_runs (init [])) = [1; 2]) as ->
      by (vm_compute; reflexivity).
    simpl. lia.
  - vm_compute. reflexivity.
Qed.

(** ** Where emitted events come from *)

Lemma statement_events p s :
  match p with
  | set_store events => _events (statement p s).2 = events
  | _ => _events (statement p s).2 = _events s
  end ∧
  (∀ events,
     (statement p s).1 = set_test events ∨
     (statement p s).1 = set_store events →
     p = set_test events).
Proof.
  destruct p; simpl.
  - destruct (is_running s || (length events =? 0)); simpl;
      (split; [done|]); intros events' [?|?]; congruence.
  - split; [done|]. by intros events' [?|?].
  - split; [done|]. by intros events' [?|?].
  - split; [done|]. by intros events' [?|?].
  - destruct (timers s !! _start_timer s ≫= start_timer); simpl;
      (split; [done|]); by intros events' [?|?].
  - split; [done|]. by intros events' [?|?].
  - split; [done|]. by intros events' [?|?].
  - destruct (is_alive t s); simpl;
      (split; [done|]); by intros events' [?|?].
  - split; [done|]. by intros events' [?|?].
  - split; [done|]. by intros events' [?|?].
  - destruct (timers s !! _stop_timer s ≫= start_timer); simpl;
      (split; [done|]); by intros events' [?|?].
  - split; [done|]. by intros events' [?|?].
  - destruct (workers s !! _thread s ≫= start_thread); simpl;
      (split; [done|]); by intros events' [?|?].
  - split; [done|]. by intros events' [?|?].
  - split; [done|]. by intros events' [?|?].
Qed.

Lemma assigned_app events0 acts a e :
  assigned events0 acts e → assigned events0 (acts ++ [a]) e.
Proof.
  intros [?|(events & Hin & He)]; [by left|right].
  exists events. split; [|done]. apply elem_of_app. by left.
Qed.

(** The stored list, the list a call of the setter is about to store
    and every emission come from the constructor or from an
    assignment. *)
Lemma assigned_exec events0 acts :
  let s := exec acts (init events0) in
  (∀ e, e ∈ _events s → assigned events0 acts e) ∧
  (∀ c events,
     calls s !! c = Some (set_test events) ∨
     calls s !! c = Some (set_store events) →
     begins (m_set_events events) ∈ acts) ∧
  (∀ em, em ∈ emitted s → assigned events0 acts em.2).
Proof.
  induction acts as [|a acts (IHe & IHc & IHm)] using rev_ind.
  - simpl. split_and!.
    + intros e He. by left.
    + intros c events [?|?]; done.
    + intros em Hem. by apply elem_of_nil in Hem.
  - unfold exec in *. rewrite fold_left_app. simpl.
    set (s := fold_left step acts (init events0)) in *.
    assert (∀ s', _events s' = _events s → emitted s' = emitted s →
                  (∀ c events,
                     calls s' !! c = Some (set_test events) ∨
                     calls s' !! c = Some (set_store events) →
                     begins (m_set_events events) ∈ acts ++ [a]) →
                  (∀ e, e ∈ _events s' → assigned events0 (acts ++ [a]) e) ∧
                  (∀ c events,
                     calls s' !! c = Some (set_test events) ∨
                     calls s' !! c = Some (set_store events) →
                     begins (m_set_events events) ∈ acts ++ [a]) ∧
                  (∀ em, em ∈ emitted s' →
                         assigned events0 (acts ++ [a]) em.2)) as Hframe.
    { intros s' He Hm Hc. split_and!; [|done|].
      - intros e. rewrite He. intros Hin. by apply assigned_app, IHe.
      - intros em. rewrite Hm. intros Hin. by apply assigned_app, IHm. }
    assert (∀ c events,
              calls s !! c = Some (set_test events) ∨
              calls s !! c = Some (set_store events) →
              begins (m_set_events events) ∈ acts ++ [a]) as IHc'.
    { intros c events Hc. apply elem_of_app. left. by eapply IHc. }
    destruct a as [m|t|c|w]; cbn [step].
    + apply Hframe; [done|done|]. simpl. intros c events Hc.
      assert (calls s !! c = Some (set_test events) ∨
              calls s !! c = Some (set_store events) ∨
              entry m = set_test events) as [?|[?|Hm]].
      { destruct Hc as [Hc|Hc];
          apply lookup_app_Some in Hc as [?|[_ Hc]]; auto;
          apply list_lookup_singleton_Some in Hc as [_ Hc];
          destruct m; simpl in Hc; simplify_eq; auto. }
      * apply (IHc' c). eauto.
      * apply (IHc' c). eauto.
      * apply elem_of_app. right.
        destruct m; simpl in Hm; simplify_eq. left.
    + unfold expire. destruct (timers s !! t) as [tm|]; [|by apply Hframe].
      destruct (clock tm); try by apply Hframe.
      apply Hframe; [done|done|]. simpl. intros c events Hc.
      apply IHc' with c.
      destruct Hc as [Hc|Hc];
        apply lookup_app_Some in Hc as [?|[_ Hc]]; auto;
        apply list_lookup_singleton_Some in Hc as [_ Hc];
        destruct (function tm); simpl in Hc; simplify_eq.
    + unfold call_step. destruct (calls s !! c) as [p|] eqn:Hp;
        [|by apply Hframe].
      destruct (statement_events p s) as [Hev Hpc].
      pose proof (statement_emitted p s) as Hem.
      pose proof (statement_calls p s) as Hcs.
      destruct (statement p s) as [p' s']. simpl in *.
      assert (∀ c' events,
                <[c:=p']> (calls s') !! c' = Some (set_test events) ∨
                <[c:=p']> (calls s') !! c' = Some (set_store events) →
                begins (m_set_events events) ∈ acts ++ [call_turn c]) as Hc'.
      { intros c' events Hl. rewrite Hcs in Hl.
        destruct (decide (c' = c)) as [->|Hne].
        - apply (IHc' c events). left. rewrite Hp. f_equal.
          apply Hpc.
          destruct Hl as [Hl|Hl];
            apply list_lookup_insert_Some in Hl as [(_ & -> & _)|[? _]];
            auto; done.
        - rewrite !list_lookup_insert_ne in Hl by done.
          by apply (IHc' c' events). }
      split_and!; [|done|].
      * intros e He.
        assert (e ∈ _events s ∨
                ∃ events, p = set_store events ∧ e ∈ events) as [?|Hst].
        { destruct p; rewrite Hev in He; eauto. }
        -- by apply assigned_app, IHe.
        -- destruct Hst as (events & -> & Hin). right. exists events.
           split; [|done]. apply (IHc' c events). by right.
      * intros em. rewrite Hem. intros Hin. by apply assigned_app, IHm.
    + unfold worker_step. destruct (workers s !! w) as [x|] eqn:Hx;
        [|by apply Hframe].
      destruct (loop_statement w x s) as [x' out] eqn:Hl. simpl.
      assert (out = emitted s ∨
              ∃ c e, e ∈ _events s ∧ out = emitted s ++ [(w, c, e)])
        as Hout.
      { destruct x; simpl in Hl; simplify_eq; try by left.
        destruct (_events s !! index) as [e|] eqn:He; simplify_eq;
          [right|by left].
        exists c, e. split; [by eapply list_elem_of_lookup_2|done]. }
      split_and!; [|done|].
      * intros e He. by apply assigned_app, IHe.
      * intros em Hin.
        destruct Hout as [->|(c & e & He & ->)];
          [by apply assigned_app, IHm|].
        apply elem_of_app in Hin as [Hin|Hin];
          [by apply assigned_app, IHm|].
        apply list_elem_of_singleton in Hin as ->. simpl.
        by apply assigned_app, IHe.
Qed.

(** X21.  Whatever is called, whichever timers expire and in whatever
    order the threads execute their statements, the repeater emits
    nothing it was not given: every event it has emitted is an element of the list
    it was made with or of a list that was assigned to [events]. *)
Theorem emitted_events_were_given events0 acts em :
  em ∈ emitted (exec acts (init events0)) → assigned events0 acts em.2.
Proof.
  intros Hin. pose proof (assigned_exec events0 acts) as H.
  cbv zeta in H. destruct H as (_ & _ & H). by apply H.
Qed.

Lemma emitted_events_were_given_witness :
  let acts := overlapping_runs ++ replicate 3 (worker_turn 2) in
  emitted (exec acts (init [])) = [(2, keyboard_channel, Repeater.key_B)] ∧
  assigned [] acts Repeater.key_B.
Proof.
  intros acts. split; [vm_compute; reflexivity|].
  apply (emitted_events_were_given
           [] acts (2, keyboard_channel, Repeater.key_B)).
  vm_compute. left.
Defined.

End InterleavingProps.



(** * Properties of the slot that feeds the repeater *)

Module InputRepeatProps.
Import Repeater InputRepeat ListFacts RepeaterProps.

Lemma vjoy_device_id_None devices :
  vjoy_device_id devices = None ↔
  Forall (fun d => dev_is_virtual d = false) devices.
Proof.
  unfold vjoy_device_id. induction devices as [|d devices IH]; [done|].
  rewrite filter_cons, Forall_cons. destruct (dev_is_virtual d) eqn:Hd.
  - rewrite decide_True by done. simpl. split; [done|]. by intros [? _].
  - rewrite decide_False by done. rewrite IH.
    split; [by split|by intros [_ ?]].
Qed.

Lemma small_movement_well_formed e :
  well_formed e → event_type e = JoystickAxis → is_Some (small_movement e).
Proof.
  unfold well_formed, small_movement. intros Hwf Ht. rewrite Ht in Hwf.
  destruct (payload e); [done| |done]. by eexists.
Qed.

(** The list built for an event: never empty, two elements or, for an
    axis, four, each the event itself up to its payload. *)
Lemma event_list_shape e :
  event_list e ≠ [] ∧
  length (event_list e) =
    (if decide (event_type e = JoystickAxis) then 4 else 2) ∧
  Forall (fun e' => hardware_id e' = hardware_id e ∧
                    event_type e' = event_type e ∧
                    identifier e' = identifier e) (event_list e).
Proof.
  unfold event_list. destruct (event_type e) eqn:Ht; simpl;
    split_and!; try done; by repeat constructor.
Qed.

(** X1.  Without a virtual device among [self.devices] the slot raises
    [IndexError] for every event, whatever the repeater does, and that is
    the only way it raises [IndexError]; with a virtual device and an
    event whose payload fits its type it returns normally. *)
Theorem handle_input_repeat_needs_vjoy devices e r :
  (_handle_input_repeat devices e r = inl IndexError ↔
   Forall (fun d => dev_is_virtual d = false) devices) ∧
  (well_formed e → Exists (fun d => dev_is_virtual d = true) devices →
   ∃ r', _handle_input_repeat devices e r = inr r').
Proof.
  rewrite <- vjoy_device_id_None. unfold _handle_input_repeat. split.
  - destruct (vjoy_device_id devices) as [v|]; [|done].
    split; [|done]. intros H. exfalso.
    destruct (is_running r || (hardware_id e =? v)); [done|].
    destruct (decide (event_type e = JoystickAxis)).
    + destruct (small_movement e) as [[]|]; try done.
      by destruct (bool_decide _ && neutral_hat e).
    + by destruct (bool_decide _ && neutral_hat e).
  - intros Hwf Hex.
    destruct (vjoy_device_id devices) as [v|] eqn:Hv.
    2: { apply vjoy_device_id_None in Hv. apply Exists_exists in Hex
           as (d & Hd & Hvirt). rewrite Forall_forall in Hv.
         specialize (Hv d Hd). congruence. }
    destruct (is_running r || (hardware_id e =? v)); [by eexists|].
    destruct (decide (event_type e = JoystickAxis)) as [Ha|Ha].
    + destruct (small_movement_well_formed e Hwf Ha) as [b ->].
      destruct b; [by eexists|].
      destruct (bool_decide _ && neutral_hat e); by eexists.
    + destruct (bool_decide _ && neutral_hat e); by eexists.
Qed.

Lemma handle_input_repeat_needs_vjoy_witness :
  _handle_input_repeat [stick] axis_event GremlinUi_repeater = inl IndexError ∧
  ∃ r', _handle_input_repeat [stick; vjoy] axis_event GremlinUi_repeater
        = inr r'.
Proof.
  destruct (handle_input_repeat_needs_vjoy [stick] axis_event
              GremlinUi_repeater) as [[_ H1] _].
  destruct (handle_input_repeat_needs_vjoy [stick; vjoy] axis_event
              GremlinUi_repeater) as [_ H2].
  split.
  - apply H1. repeat constructor.
  - apply H2; [exact I|]. right. left. reflexivity.
Defined.

(** X2.  The slot leaves the repeater alone while a replay is running,
    for an event of the virtual device, for an axis moved by less than a
    quarter, and for a hat in its neutral position. *)
Theorem handle_input_repeat_ignores devices v e r :
  vjoy_device_id devices = Some v →
  is_running r = true ∨
  hardware_id e = v ∨
  (event_type e = JoystickAxis ∧
   ∃ q, payload e = AxisValue q ∧ (Qabs q < 1 # 4)%Q) ∨
  (event_type e = JoystickHat ∧ payload e = HatValue 0 0) →
  _handle_input_repeat devices e r = inr r.
Proof.
  intros Hv H. unfold _handle_input_repeat. rewrite Hv.
  destruct (is_running r) eqn:Hr; [done|]. simpl.
  destruct (hardware_id e =? v) eqn:Hid; [done|].
  destruct H as [?|[Hh|[(Ht & q & Hp & Hq)|(Ht & Hp)]]]; [done| | |].
  - apply Nat.eqb_neq in Hid. done.
  - rewrite decide_True by done. unfold small_movement. rewrite Hp.
    destruct (Qle_bool (1 # 4) (Qabs q)) eqn:Hle; [|done].
    apply Qle_bool_iff in Hle. exfalso. by apply (Qlt_not_le _ _ Hq).
  - rewrite decide_False by congruence.
    rewrite bool_decide_eq_true_2 by done.
    unfold neutral_hat. by rewrite Hp.
Qed.

Lemma handle_input_repeat_ignores_witness :
  _handle_input_repeat [stick; vjoy]
    (mkEvent 1 JoystickAxis 2 (AxisValue (1 # 5))) GremlinUi_repeater
  = inr GremlinUi_repeater.
Proof.
  apply (handle_input_repeat_ignores [stick; vjoy] 2); [reflexivity|].
  right; right; left. split; [reflexivity|].
  exists (1 # 5)%Q. split; reflexivity.
Defined.

(** X3.  Otherwise the slot hands the repeater the list built for the
    event, which is never empty: an idle repeater stores it and starts
    the one-second timer. *)
Theorem handle_input_repeat_assigns devices v e r :
  vjoy_device_id devices = Some v →
  is_running r = false → hardware_id e ≠ v → well_formed e →
  (∀ q, payload e = AxisValue q → (1 # 4 <= Qabs q)%Q) →
  payload e ≠ HatValue 0 0 →
  let r' := set_events (event_list e) r in
  _handle_input_repeat devices e r = inr r' ∧
  _events r' = event_list e ∧
  timers r' !! _start_timer r' = Some (mkTimer 1 fn_run timer_started) ∧
  length (event_list e) =
    (if decide (event_type e = JoystickAxis) then 4 else 2) ∧
  Forall (fun e' => hardware_id e' = hardware_id e ∧
                    event_type e' = event_type e ∧
                    identifier e' = identifier e) (event_list e).
Proof.
  intros Hv Hr Hid Hwf Hbig Hhat.
  destruct (event_list_shape e) as (Hne & Hlen & Hall).
  simpl. split_and!; [| | |done|done].
  - unfold _handle_input_repeat. rewrite Hv, Hr. simpl.
    rewrite (proj2 (Nat.eqb_neq _ _) Hid).
    assert ((if decide (event_type e = JoystickAxis)
             then small_movement e else Some false) = Some false) as ->.
    { case_decide as Ha; [|done]. unfold small_movement.
      unfold well_formed in Hwf. rewrite Ha in Hwf.
      destruct (payload e) as [|q|] eqn:Hp; [done| |done].
      by rewrite (proj2 (Qle_bool_iff _ _) (Hbig q eq_refl)). }
    assert (bool_decide (event_type e = JoystickHat) && neutral_hat e = false)
      as ->; [|done].
    apply andb_false_iff. destruct (neutral_hat e) eqn:Hn; [|by right].
    exfalso. apply Hhat. unfold neutral_hat in Hn.
    by destruct (payload e) as [| |[] []].
  - by rewrite set_events_accepted.
  - rewrite set_events_accepted by done. simpl.
    rewrite lookup_app_r by (by rewrite length_alter).
    by rewrite length_alter, Nat.sub_diag.
Qed.

Lemma handle_input_repeat_assigns_witness :
  _events (set_events (event_list hat_event) GremlinUi_repeater) =
  [mkEvent 1 JoystickHat 1 (HatValue 0 0); hat_event].
Proof.
  destruct (handle_input_repeat_assigns [stick; vjoy] 2 hat_event
              GremlinUi_repeater eq_refl eq_refl) as (_ & H & _);
    [discriminate|exact I|discriminate|discriminate|exact H].
Defined.

End InputRepeatProps.

(** * More properties of the input repeater *)

Module RepeaterMoreProps.
Import Repeater ListFacts RepeaterProps.

(** ** Two assignments before the delay has passed *)

(** X6.  Of two lists assigned to an idle repeater one after the other,
    only the second is replayed: the timer of the first assignment is
    cancelled and its firing does nothing, and when the timer of the
    second fires a worker starts that emits the repetition of the second
    list. *)
Theorem reassignment_replaces_timer s events1 first rest :
  let events2 := first :: rest in
  is_running s = false → is_alive (_thread s) s = false → events1 ≠ [] →
  let s1 := set_events events1 s in
  let s2 := set_events events2 s1 in
  _start_timer s2 = S (_start_timer s1) ∧
  fire (_start_timer s1) s2 = s2 ∧
  let r := fire (_start_timer s2) s2 in
  let w := _thread r in
  is_running r = true ∧
  _events r = events2 ∧
  threads r !! w = Some (thread_alive 0) ∧
  ∀ n, emitted_by w (exec (replicate n (thread_turn w)) r) =
       emitted_by w s ++
       ((fun e => (channel_of first, e)) <$> cycle events2 n).
Proof.
  intros events2 Hr Ha Hne. simpl.
  rewrite (set_events_accepted events1 s) by done.
  set (s1 := mkState _ _ _ _ _ _ _ _).
  rewrite (set_events_accepted events2 s1) by done. simpl.
  set (ts := alter cancel (_start_timer s) (timers s)).
  assert (length ts = length (timers s)) as Hlen by apply length_alter.
  assert (alter cancel (length (timers s))
                (ts ++ [mkTimer 1 fn_run timer_started])
          = ts ++ [mkTimer 1 fn_run timer_cancelled]) as Hts.
  { rewrite <- Hlen. by rewrite alter_new. }
  rewrite Hts. rewrite !length_app, Hlen. simpl.
  set (s2 := mkState _ _ _ _ _ _ _ _).
  assert (timers s2 !! length (timers s)
          = Some (mkTimer 1 fn_run timer_cancelled)) as H1.
  { simpl. rewrite <- app_assoc. rewrite lookup_app_r by lia.
    by rewrite Hlen, Nat.sub_diag. }
  assert (timers s2 !! (length (timers s) + 1)
          = Some (mkTimer 1 fn_run timer_started)) as H2.
  { simpl. rewrite lookup_app_r by (rewrite length_app; simpl; lia).
    rewrite length_app, Hlen. simpl. by rewrite Nat.sub_diag. }
  split; [lia|]. split; [unfold fire; by rewrite H1|].
  unfold fire. rewrite H2. simpl.
  set (s3 := with_timers _ s2).
  assert (is_alive (_thread s3) s3 = false) as Ha3 by done.
  rewrite (run_launch s3 Ha3). simpl.
  assert ((threads s ++ [thread_alive 0]) !! length (threads s)
          = Some (thread_alive 0)) as Hw.
  { rewrite lookup_app_r by lia. by rewrite Nat.sub_diag. }
  split_and!; [done|done|done|].
  intros n.
  set (r := mkState _ _ _ _ _ _ _ _).
  assert (emitting events2 (length (threads s)) 0 r) as Hem.
  { unfold emitting. by rewrite Nat.Div0.mod_0_l. }
  destruct (emitting_turns events2 first rest (length (threads s)) eq_refl
              n 0 r Hem) as [Hstay Hn].
  destruct (emitting_exec events2 first rest (length (threads s)) eq_refl
              _ 0 r Hem Hstay) as [_ ->].
  by rewrite Hn.
Qed.

Lemma reassignment_replaces_timer_witness :
  let s2 := set_events [key_B] (set_events [button_C] (init [])) in
  fire 2 s2 = s2 ∧
  emitted_by 1 (exec (replicate 2 (thread_turn 1)) (fire 3 s2)) =
  [(keyboard_channel, key_B); (keyboard_channel, key_B)].
Proof.
  intros s2.
  destruct (reassignment_replaces_timer (init []) [button_C] key_B []
              eq_refl eq_refl ltac:(discriminate)) as (_ & H1 & _ & _ & _ & H2).
  split; [exact H1|exact (H2 2)].
Defined.

(** ** Where emitted events come from *)

(** X7.  The repeater emits nothing it was not given: every event it has
    emitted is an element of the list it was built with or of a list that
    was assigned to it. *)
Theorem emitted_events_were_assigned events0 acts em :
  em ∈ emitted (exec acts (init events0)) →
  em.2 ∈ events0 ∨ ∃ events, call_set_events events ∈ acts ∧ em.2 ∈ events.
Proof.
  revert em.
  assert (∀ e, (e ∈ _events (exec acts (init events0)) ∨
                ∃ em, em ∈ emitted (exec acts (init events0)) ∧ em.2 = e) →
            e ∈ events0 ∨
            ∃ events, call_set_events events ∈ acts ∧ e ∈ events) as H.
  2: { intros em Hem. apply H. right. by exists em. }
  induction acts as [|a acts IH] using rev_ind.
  - intros e [He|(em & Hem & _)]; [by left|]. by apply elem_of_nil in Hem.
  - assert (∀ e, (e ∈ events0 ∨
                  ∃ events, call_set_events events ∈ acts ∧ e ∈ events) →
                 e ∈ events0 ∨
                 ∃ events, call_set_events events ∈ acts ++ [a] ∧ e ∈ events)
      as Hmono.
    { intros e [?|(evs & Hin & He)]; [by left|right].
      exists evs. split; [|done]. apply elem_of_app. by left. }
    unfold exec in *. rewrite fold_left_app. simpl.
    set (s := fold_left step acts (init events0)) in *.
    assert (∀ s', _events s' = _events s → emitted s' = emitted s →
              ∀ e, (e ∈ _events s' ∨ ∃ em, em ∈ emitted s' ∧ em.2 = e) →
                   e ∈ events0 ∨
                   ∃ events, call_set_events events ∈ acts ++ [a] ∧ e ∈ events)
      as Hsame.
    { intros s' -> -> e He. by apply Hmono, IH. }
    destruct a as [evs| | |t|w]; simpl.
    + unfold set_events.
      destruct (is_running s || (length evs =? 0)); [by apply Hsame|].
      simpl. intros e [He|Hem].
      * right. exists evs. split; [|done]. apply elem_of_app. right.
        by apply list_elem_of_singleton.
      * apply Hmono, IH. by right.
    + by apply Hsame.
    + destruct (run_fields s) as (_ & He & Hm). by apply Hsame.
    + destruct (fire_cases t s)
        as [-> | [(tm & _ & _ & _ & ->) | (tm & _ & _ & _ & ->)]].
      * by apply Hsame.
      * destruct (run_fields (with_timers (<[t := fired tm]> (timers s)) s))
          as (_ & He & Hm). by apply Hsame.
      * by apply Hsame.
    + unfold emit_events_step.
      destruct (threads s !! w) as [[|index| |]|]; try by apply Hsame.
      destruct (is_running s); [|by apply Hsame].
      unfold emit_body.
      destruct (_events s !! 0) as [first|] eqn:H0; [|by apply Hsame].
      destruct (_events s !! index) as [e0|] eqn:Hi; [|by apply Hsame].
      assert (∀ e,
                (e ∈ _events s ∨
                 ∃ em, em ∈ emitted s ++ [(w, channel_of first, e0)] ∧
                       em.2 = e) →
                e ∈ events0 ∨
                ∃ events, call_set_events events ∈ acts ++ [thread_turn w]
                          ∧ e ∈ events) as Hout.
      { intros e [He|(em & Hem & <-)]; [apply Hmono, IH; by left|].
        apply elem_of_app in Hem as [Hem|Hem].
        - apply Hmono, IH. right. by exists em.
        - apply list_elem_of_singleton in Hem as ->. simpl.
          apply Hmono, IH. left. by eapply list_elem_of_lookup_2. }
      destruct (length (_events s) =? 0); simpl; by apply Hout.
Qed.

Lemma emitted_events_were_assigned_witness :
  key_A ∈ ([] : list Event) ∨
  ∃ events, call_set_events events ∈
              [call_set_events [key_A; key_B]; timer_fires 2; thread_turn 1]
            ∧ key_A ∈ events.
Proof.
  apply (emitted_events_were_assigned []
           [call_set_events [key_A; key_B]; timer_fires 2; thread_turn 1]
           (1, keyboard_channel, key_A)).
  simpl. left.
Defined.

End RepeaterMoreProps.

(** * Properties of the main window's activation *)

Module GremlinUiProps.
Import CodeRunner GremlinUi ListFacts CodeRunnerProps.

Lemma disconnect_connect slot signal :
  slot ∉ signal → disconnect slot (connect slot signal) = signal.
Proof.
  unfold connect. induction signal as [|x signal IH]; intros Hn; simpl.
  - by rewrite decide_True.
  - rewrite decide_False by (intros ->; apply Hn; left).
    rewrite IH; [done|]. intros ?. apply Hn. by right.
Qed.

Lemma disconnect_other slot other signal :
  slot ≠ other → slot ∉ signal →
  disconnect slot (connect other (connect slot signal)) = connect other signal.
Proof.
  unfold connect. induction signal as [|x signal IH]; intros Hne Hn; simpl.
  - by rewrite decide_True.
  - rewrite decide_False by (intros ->; apply Hn; left).
    rewrite IH; [done|done|]. intros ?. apply Hn. by right.
Qed.

(** [stop] after a successful [start] gives the signals back as they were,
    when the slots of the runner were not connected before. *)
Lemma stop_start_signals registry s :
  slot_process_event ∉ keyboard_event s →
  slot_kb_keyboard_event ∉ keyboard_event s →
  slot_process_event ∉ joystick_event s →
  keyboard_event (stop (start (Imported registry) s)) = keyboard_event s ∧
  joystick_event (stop (start (Imported registry) s)) = joystick_event s.
Proof.
  intros H1 H2 H3. unfold stop, start. simpl.
  rewrite disconnect_other by done.
  by rewrite !disconnect_connect.
Qed.

(** X9.  The status label follows the toolbar action, not the runner:
    when the action is checked and the import fails, [start] leaves the
    runner stopped with nothing registered and nothing connected, and the
    label still reads "Running and Active", the same text as after a
    start that succeeded. *)
Theorem failed_start_shows_running e table registry ui :
  actionActivate_isChecked ui = false →
  _running (runner ui) = false →
  let ui' := trigger_activate (ImportError e table) ui in
  status_bar_is_active ui' =
    ("<b>Status: </b> Running and " +:+ text_active_green)%string ∧
  status_bar_is_active ui' =
    status_bar_is_active (trigger_activate (Imported registry) ui) ∧
  _running (runner ui') = false ∧
  callbacks (event_handler (runner ui')) =
    callbacks (event_handler (runner ui)) ∧
  keyboard_event (runner ui') = keyboard_event (runner ui) ∧
  joystick_event (runner ui') = joystick_event (runner ui).
Proof.
  intros Hc Hr. unfold trigger_activate, activate. rewrite Hc. simpl.
  by rewrite Hr.
Qed.

Lemma failed_start_shows_running_witness :
  let ui' := trigger_activate (ImportError "No module named foo" [])
                              (GremlinUi.init [] [] []) in
  status_bar_is_active ui' =
    ("<b>Status: </b> Running and " +:+ text_active_green)%string ∧
  _running (runner ui') = false.
Proof.
  destruct (failed_start_shows_running "No module named foo" [] []
              (GremlinUi.init [] [] []) eq_refl eq_refl)
    as (H1 & _ & H2 & _).
  split; [exact H1|exact H2].
Defined.

Lemma session_at_rest ui registry :
  at_rest ui →
  at_rest (session ui registry) ∧
  keyboard_event (runner (session ui registry)) = keyboard_event (runner ui) ∧
  joystick_event (runner (session ui registry)) = joystick_event (runner ui) ∧
  callback_registry (runner (session ui registry)) = [] ∧
  status_bar_is_active (session ui registry) =
    "<b>Status: </b> Not Running"%string.
Proof.
  intros (Hc & _ & H1 & H2 & H3).
  assert (runner (session ui registry)
          = stop (start (Imported registry) (runner ui)) ∧
          actionActivate_isChecked (session ui registry) = false ∧
          status_bar_is_active (session ui registry) =
            "<b>Status: </b> Not Running"%string) as (Hrun & Hc' & Hst).
  { unfold session, trigger_activate, activate. by rewrite Hc. }
  destruct (stop_start_signals registry (runner ui) H1 H2 H3) as [Hkb Hjs].
  destruct (stop_clears (start (Imported registry) (runner ui))) as [Hcb Ht].
  unfold at_rest. rewrite Hrun, Hkb, Hjs, Hcb, Ht. done.
Qed.

(** X10.  Sessions leave nothing behind.  After any number of sessions
    (the action checked, the import successful, the action unchecked
    again) the signals have the connections they had before, the engine's
    registry is empty and the label reads "Not Running"; so in the next
    session the engine holds for every key exactly the callbacks of the
    table loaded then, each once. *)
Theorem sessions_leave_no_trace ui registries :
  at_rest ui →
  let ui' := fold_left session registries ui in
  at_rest ui' ∧
  keyboard_event (runner ui') = keyboard_event (runner ui) ∧
  joystick_event (runner ui') = joystick_event (runner ui) ∧
  (registries ≠ [] →
   callback_registry (runner ui') = [] ∧
   status_bar_is_active ui' = "<b>Status: </b> Not Running"%string) ∧
  (∀ registry k,
     default [] (callbacks (event_handler
                   (runner (trigger_activate (Imported registry) ui'))) !! k)
     = callbacks_for k registry).
Proof.
  intros Hrest. simpl.
  assert (at_rest (fold_left session registries ui) ∧
          keyboard_event (runner (fold_left session registries ui))
            = keyboard_event (runner ui) ∧
          joystick_event (runner (fold_left session registries ui))
            = joystick_event (runner ui) ∧
          (registries ≠ [] →
           callback_registry (runner (fold_left session registries ui)) = [] ∧
           status_bar_is_active (fold_left session registries ui) =
             "<b>Status: </b> Not Running"%string)) as (H & Hkb & Hjs & Hlast).
  { induction registries as [|r registries IH] using rev_ind; [done|].
    destruct IH as (IH & Hkb & Hjs & _).
    rewrite fold_left_app. simpl.
    destruct (session_at_rest _ r IH) as (H1 & H2 & H3 & H4 & H5).
    split_and!; [done|congruence|congruence|done]. }
  split_and!; [done..|].
  intros registry k. destruct H as (Hc & Hcb & _).
  unfold trigger_activate, activate. rewrite Hc. simpl.
  rewrite add_registry_lookup. simpl. by rewrite Hcb.
Qed.

Lemma sessions_leave_no_trace_witness :
  let ui' := fold_left session [sample_table; ordered_table]
                       (GremlinUi.init [] [slot_other 0] [slot_other 0]) in
  keyboard_event (runner ui') = [slot_other 0] ∧
  default [] (callbacks (event_handler
                (runner (trigger_activate (Imported sample_table) ui')))
              !! sample_key) = [(10, 0)].
Proof.
  assert (at_rest (GremlinUi.init [] [slot_other 0] [slot_other 0])) as Hrest.
  { unfold at_rest. simpl. split_and!; [done|done|..];
      intros H; apply list_elem_of_singleton in H; discriminate. }
  destruct (sessions_leave_no_trace _ [sample_table; ordered_table] Hrest)
    as (_ & Hkb & _ & _ & Hnext).
  split; [exact Hkb|exact (Hnext sample_table sample_key)].
Defined.

(** X11.  A launch that fails leaves no trace in the runner but the
    message: when the first launch fails on the import, the action is
    unchecked and the next launch succeeds, the runner is in the state in
    which a first launch that succeeds would have put it, with the
    message added to what was displayed. *)
Theorem failed_launch_leaves_no_trace e table registry ui :
  actionActivate_isChecked ui = false →
  _running (runner ui) = false →
  callbacks (event_handler (runner ui)) = ∅ →
  let retried :=
    trigger_activate (Imported registry)
      (trigger_activate (Imported [])
         (trigger_activate (ImportError e table) ui)) in
  let direct := trigger_activate (Imported registry) ui in
  runner retried =
    CodeRunner.mkState
      (_running (runner direct)) (event_handler (runner direct))
      (callback_registry (runner direct))
      (keyboard_event (runner direct)) (joystick_event (runner direct))
      (displayed_errors (runner direct) ++
         ["Unable to launch due to missing custom modules: " +:+ e]%string) ∧
  status_bar_is_active retried = status_bar_is_active direct ∧
  actionActivate_isChecked retried = true.
Proof.
  intros Hc Hr Hcb. unfold trigger_activate, activate. rewrite Hc. simpl.
  unfold stop. simpl. rewrite Hr. simpl. unfold start. simpl.
  unfold clear, _reset_state. simpl. by rewrite Hcb.
Qed.

Lemma failed_launch_leaves_no_trace_witness :
  let ui := GremlinUi.init [] [] [] in
  event_handler (runner
    (trigger_activate (Imported sample_table)
       (trigger_activate (Imported [])
          (trigger_activate (ImportError "No module named foo" sample_table)
                            ui)))) =
  event_handler (runner (trigger_activate (Imported sample_table) ui)).
Proof.
  intros ui.
  destruct (failed_launch_leaves_no_trace "No module named foo" sample_table
              sample_table ui eq_refl eq_refl eq_refl) as (H & _).
  exact (f_equal event_handler H).
Defined.

End GremlinUiProps.

(** * Properties of the module manager *)

Module ModuleManagerUiProps.
Import ModuleManagerUi ListFacts.

(** ** The order of strings *)

Lemma compare_OT a b : String.compare a b = String_as_OT.compare a b.
Proof.
  revert b. induction a as [|x a IH]; intros [|y b]; simpl; rewrite ?IH; done.
Qed.

#[local] Instance string_le_total : Total string_le.
Proof. intros a b. apply String.leb_total. Qed.

#[local] Instance string_le_antisym : AntiSymm (=) string_le.
Proof. intros a b. apply String.leb_antisym. Qed.

#[local] Instance string_le_trans : Transitive string_le.
Proof.
  assert (∀ a b, string_le a b ↔ String_as_OT.lt a b ∨ a = b) as Hle.
  { intros a b. unfold string_le, String.leb. rewrite compare_OT.
    destruct (String_as_OT.compare_spec a b) as [Heq|Hlt|Hgt].
    - split; [by right|done].
    - split; [by left|done].
    - split; [done|]. intros [Hlt| ->].
      + exfalso. apply (StrictOrder_Irreflexive a). by etransitivity.
      + exfalso. by apply (StrictOrder_Irreflexive b). }
  intros a b c. rewrite !Hle. intros [H1| ->] [H2| ->]; auto.
  left. by etransitivity.
Qed.

Lemma sorted_StronglySorted l : StronglySorted string_le (sorted l).
Proof. apply StronglySorted_merge_sort; apply _. Qed.

Lemma sorted_Permutation l : sorted l ≡ₚ l.
Proof. apply merge_sort_Permutation. Qed.

Lemma StronglySorted_delete (l : list string) i :
  StronglySorted string_le l → StronglySorted string_le (delete i l).
Proof.
  intros Hs. revert i. induction Hs as [|x l Hs IH Hx]; intros [|i]; simpl;
    [constructor|constructor|done|].
  constructor; [apply IH|by apply Forall_delete].
Qed.

(** ** Deleting and adding *)

(** X12.  [_delete_cb] removes the import at the row of the view when the
    row is inside the list, and then the model and the profile hold the
    same list, shorter by that one element.  Its test lets the length of
    the list through as a row, for which [del] raises [IndexError]; for
    any other row nothing happens. *)
Theorem delete_cb_bounds index st :
  let l := model_stringList st in
  ((0 ≤ index < Z.of_nat (length l))%Z →
   ∃ x, l !! Z.to_nat index = Some x ∧
        _delete_cb index st =
          inr (mkState (take (Z.to_nat index) l ++ drop (S (Z.to_nat index)) l)
                       (take (Z.to_nat index) l ++ drop (S (Z.to_nat index)) l)
                       (displayed_errors st)) ∧
        l ≡ₚ x :: take (Z.to_nat index) l ++ drop (S (Z.to_nat index)) l) ∧
  (index = Z.of_nat (length l) → _delete_cb index st = inl IndexError) ∧
  ((index < 0 ∨ Z.of_nat (length l) < index)%Z → _delete_cb index st = inr st).
Proof.
  simpl. unfold _delete_cb. split_and!.
  - intros Hi.
    destruct (lookup_lt_is_Some_2 (model_stringList st) (Z.to_nat index))
      as [x Hx]; [lia|].
    exists x. rewrite bool_decide_eq_true_2 by lia.
    rewrite bool_decide_eq_true_2 by lia.
    rewrite <- delete_take_drop. split_and!; [done|done|].
    by apply delete_Permutation.
  - intros ->. rewrite bool_decide_eq_true_2 by lia.
    by rewrite bool_decide_eq_false_2 by lia.
  - intros Hi. by rewrite bool_decide_eq_false_2 by lia.
Qed.

Lemma delete_cb_bounds_witness :
  _delete_cb 1 (_create_ui ["b"; "a"; "c"]%string) =
    inr (mkState ["a"; "c"]%string ["a"; "c"]%string []) ∧
  _delete_cb 3 (_create_ui ["b"; "a"; "c"]%string) = inl IndexError ∧
  _delete_cb (-1) (_create_ui []) = inr (_create_ui []).
Proof.
  destruct (delete_cb_bounds 1 (_create_ui ["b"; "a"; "c"]%string))
    as (H1 & _ & _).
  destruct (delete_cb_bounds 3 (_create_ui ["b"; "a"; "c"]%string))
    as (_ & H2 & _).
  destruct (delete_cb_bounds (-1) (_create_ui [])) as (_ & _ & H3).
  split_and!.
  - destruct H1 as (x & _ & H & _); [simpl; lia|exact H].
  - apply H2. reflexivity.
  - apply H3. left. lia.
Defined.

(** X13.  [_add_cb] does nothing when the dialog is cancelled or the name
    is empty, and only displays an error when the name is no valid
    identifier.  For a valid name the profile's imports become the list
    the view showed with the name at its end, and the view shows the
    same names in sorted order; a name that is there already is added once
    more. *)
Theorem add_cb_appends valid new_import input_ok st :
  (input_ok = false ∨ new_import = EmptyString →
   _add_cb valid new_import input_ok st = st) ∧
  (input_ok = true → new_import ≠ EmptyString → valid new_import = false →
   _add_cb valid new_import input_ok st =
     mkState (model_stringList st) (profile_imports st)
             (displayed_errors st ++
                [GremlinUi.dq +:+ new_import +:+ GremlinUi.dq +:+
                 " is not a valid python module name"]%string)) ∧
  (input_ok = true → new_import ≠ EmptyString → valid new_import = true →
   let st' := _add_cb valid new_import input_ok st in
   profile_imports st' = model_stringList st ++ [new_import] ∧
   model_stringList st' = sorted (profile_imports st') ∧
   model_stringList st' ≡ₚ new_import :: model_stringList st ∧
   StronglySorted string_le (model_stringList st') ∧
   displayed_errors st' = displayed_errors st).
Proof.
  unfold _add_cb. split_and!.
  - intros [-> | ->]; [done|]. by rewrite andb_false_r.
  - intros -> Hne Hv. rewrite (proj2 (String.eqb_neq _ _) Hne), Hv. done.
  - intros -> Hne Hv. rewrite (proj2 (String.eqb_neq _ _) Hne), Hv. simpl.
    split_and!; [done|done| |apply sorted_StronglySorted|done].
    rewrite sorted_Permutation. by rewrite Permutation_app_comm.
Qed.

Lemma add_cb_appends_witness :
  _add_cb (fun _ => true) "a" true (_create_ui ["c"; "b"]%string) =
  mkState ["a"; "b"; "c"]%string ["b"; "c"; "a"]%string [].
Proof.
  destruct (add_cb_appends (fun _ => true) "a" true
              (_create_ui ["c"; "b"]%string)) as (_ & _ & H).
  destruct (H eq_refl ltac:(discriminate) eq_refl) as (H1 & H2 & _).
  reflexivity.
Defined.

(** X14.  Whatever is added and deleted, the view shows the imports of
    the profile in sorted order: after any sequence of clicks the list of
    the model is [sorted] of the profile's imports. *)
Theorem manager_shows_sorted_imports valid imports clicks :
  let st := fold_left (click valid) clicks (_create_ui imports) in
  model_stringList st = sorted (profile_imports st) ∧
  StronglySorted string_le (model_stringList st) ∧
  model_stringList st ≡ₚ profile_imports st.
Proof.
  simpl.
  assert (∀ st, StronglySorted string_le (model_stringList st) →
                model_stringList st ≡ₚ profile_imports st →
                model_stringList st = sorted (profile_imports st)) as Huniq.
  { intros st Hs Hp. apply (StronglySorted_unique string_le);
      [done|apply sorted_StronglySorted|].
    by rewrite sorted_Permutation. }
  assert (StronglySorted string_le
            (model_stringList (fold_left (click valid) clicks
                                         (_create_ui imports))) ∧
          model_stringList (fold_left (click valid) clicks
                                      (_create_ui imports))
          ≡ₚ profile_imports (fold_left (click valid) clicks
                                        (_create_ui imports))) as [Hs Hp].
  2: { split_and!; [by apply Huniq|done|done]. }
  induction clicks as [|c clicks [IHs IHp]] using rev_ind.
  - split; [apply sorted_StronglySorted|apply sorted_Permutation].
  - rewrite fold_left_app. simpl.
    set (st := fold_left (click valid) clicks (_create_ui imports)) in *.
    destruct c as [new_import input_ok|index]; simpl.
    + unfold _add_cb.
      destruct (input_ok && negb (String.eqb new_import EmptyString));
        [|done].
      destruct (negb (valid new_import)); [done|]. simpl.
      split; [apply sorted_StronglySorted|apply sorted_Permutation].
    + unfold _delete_cb.
      destruct (bool_decide (0 ≤ index ≤ _)%Z); [|done].
      destruct (bool_decide (index < _)%Z); [|done]. simpl.
      split; [by apply StronglySorted_delete|done].
Qed.

End ModuleManagerUiProps.

(** * Properties of the calibration window *)

Module CalibrationUiProps.
Import InputRepeat CalibrationUi ListFacts.

Section WithWidgets.
Variable Widget : Type.
Variable AxisCalibrationWidget : Widget.
Variable set_current : Z → Widget → Widget.
Variable raw_value : Event → Z.

(** X15.  The calibration window cannot be built without a physical
    device: [__init__] raises [IndexError] exactly when every device is
    virtual (or there is none).  Otherwise it keeps the physical devices,
    selects the first and makes one widget for each of its axes. *)
Theorem calibration_needs_device joystick_devices :
  (init Widget AxisCalibrationWidget joystick_devices = inl IndexError ↔
   Forall (fun d => dev_is_virtual d = true) joystick_devices) ∧
  (∀ d, head (filter (fun d => dev_is_virtual d = false) joystick_devices)
        = Some d →
        init Widget AxisCalibrationWidget joystick_devices =
        inr (mkState
               (filter (fun d => dev_is_virtual d = false) joystick_devices)
               0 (replicate (dev_axes d) AxisCalibrationWidget))).
Proof.
  unfold init, _create_axes, getitem. simpl.
  set (physical := filter _ joystick_devices).
  assert (physical = [] ↔
          Forall (fun d => dev_is_virtual d = true) joystick_devices) as Hnone.
  { unfold physical. clear.
    induction joystick_devices as [|d l IH]; [done|].
    rewrite filter_cons, Forall_cons. destruct (dev_is_virtual d).
    - rewrite decide_False by done. rewrite IH.
      split; [by split|by intros [_ ?]].
    - rewrite decide_True by done. split; [done|]. by intros [? _]. }
  rewrite <- Hnone. destruct physical as [|d l]; simpl.
  - split; [done|]. by intros d.
  - split; [done|]. intros d' ?. by simplify_eq.
Qed.

(** X16.  [_handle_event] changes nothing for an event of another device
    or of another type.  For an axis event of the selected device it
    applies [set_current] to the widget of the axis [identifier - 1] and
    to no other, the number of widgets staying the same; the identifier 0
    is taken for the last axis, as [axes[-1]] is; an identifier beyond the
    number of axes raises [IndexError]. *)
Theorem handle_event_updates_one_axis device event (st : State Widget) :
  getitem (devices st) (current_hardware_id st) = Some device →
  let n := length (axes st) in
  let id := identifier event in
  let h := _handle_event Widget set_current raw_value event st in
  (hardware_id event ≠ dev_hardware_id device ∨
   event_type event ≠ JoystickAxis → h = inr st) ∧
  (hardware_id event = dev_hardware_id device →
   event_type event = JoystickAxis →
   (1 ≤ id ≤ n →
    ∃ st', h = inr st' ∧
      length (axes st') = n ∧
      axes st' !! (id - 1) =
        set_current (raw_value event) <$> axes st !! (id - 1) ∧
      ∀ j, j ≠ id - 1 → axes st' !! j = axes st !! j) ∧
   (id = 0 → 0 < n →
    ∃ st', h = inr st' ∧
      axes st' = alter (set_current (raw_value event)) (n - 1) (axes st)) ∧
   (n < id ∨ (id = 0 ∧ n = 0) → h = inl IndexError)).
Proof.
  intros Hdev. simpl. unfold _handle_event. rewrite Hdev. split.
  - intros [Hh|Ht].
    + by rewrite bool_decide_eq_false_2 by done.
    + rewrite (bool_decide_eq_false_2 (event_type event = _)) by done.
      by rewrite andb_false_r.
  - intros Hh Ht. rewrite !bool_decide_eq_true_2 by done. simpl.
    unfold position. split_and!.
    + intros Hid. rewrite bool_decide_eq_true_2 by lia.
      eexists. split; [done|]. simpl.
      replace (Z.to_nat (Z.of_nat (identifier event) - 1))
        with (identifier event - 1) by lia.
      split_and!.
      * apply length_alter.
      * apply list_lookup_alter_eq.
      * intros j Hj. by apply list_lookup_alter_ne.
    + intros Hid Hn. rewrite Hid.
      rewrite bool_decide_eq_false_2 by lia.
      rewrite bool_decide_eq_true_2 by lia.
      eexists. split; [done|]. simpl. f_equal. lia.
    + intros Hid.
      rewrite bool_decide_eq_false_2 by lia.
      by rewrite bool_decide_eq_false_2 by lia.
Qed.

End WithWidgets.

Lemma calibration_needs_device_witness :
  init (list Z) [] [vjoy] = inl IndexError ∧
  init (list Z) [] [vjoy; stick] = inr (mkState [stick] 0 [[]; []; []]).
Proof.
  destruct (calibration_needs_device (list Z) [] [vjoy]) as [[_ H1] _].
  destruct (calibration_needs_device (list Z) [] [vjoy; stick]) as [_ H2].
  split.
  - apply H1. repeat constructor.
  - apply (H2 stick). reflexivity.
Defined.

Lemma handle_event_updates_one_axis_witness :
  ∃ st', _handle_event (list Z) cons (fun _ => 5%Z)
           (mkEvent 1 JoystickAxis 0 (AxisValue 0))
           (mkState [stick] 0 [[]; []; []]) = inr st' ∧
         axes st' = [[]; []; [5%Z]].
Proof.
  destruct (handle_event_updates_one_axis (list Z) cons (fun _ => 5%Z) stick
              (mkEvent 1 JoystickAxis 0 (AxisValue 0))
              (mkState [stick] 0 [[]; []; []]) eq_refl) as [_ H].
  destruct (H eq_refl eq_refl) as (_ & H0 & _).
  destruct (H0 eq_refl) as (st' & Hst & Hax); [simpl; lia|].
  exists st'. split; [exact Hst|exact Hax].
Defined.

End CalibrationUiProps.

(** * Properties of the devices of a profile *)

Module ProfileProps.
Import Profile ListFacts.

(** ** A new profile *)

Lemma new_profile_fold (l : list InputRepeat.Device) (acc : gmap Key Device) :
  let m := fold_left
             (fun acc device =>
                <[int_key (InputRepeat.dev_hardware_id device) :=
                    mkDevice (InputRepeat.dev_name device)
                             (InputRepeat.dev_hardware_id device)
                             (InputRepeat.dev_windows_id device)
                             Joystick_type]> acc) l acc in
  (∀ h, m !! int_key h =
        match last (filter (fun d => InputRepeat.dev_hardware_id d = h) l) with
        | Some d => Some (mkDevice (InputRepeat.dev_name d) h
                                   (InputRepeat.dev_windows_id d)
                                   Joystick_type)
        | None => acc !! int_key h
        end) ∧
  (∀ a b, m !! tuple_key a b = acc !! tuple_key a b).
Proof.
  simpl. induction l as [|d l [IH1 IH2]] using rev_ind; [done|].
  rewrite fold_left_app. simpl. split.
  - intros h. rewrite filter_app, filter_cons, filter_nil.
    destruct (decide (InputRepeat.dev_hardware_id d = h)) as [<-|Hne].
    + rewrite last_snoc. by rewrite lookup_insert_eq.
    + rewrite app_nil_r. rewrite lookup_insert_ne by congruence. apply IH1.
  - intros a b. rewrite lookup_insert_ne by done. apply IH2.
Qed.

(** X17.  A new profile always has the keyboard under the key 0, also
    when a physical device has the hardware id 0.  Under any other
    hardware id it has the physical device with that id, the last one in
    the list when several share it, as a joystick with the device's name
    and ids; virtual devices get no entry. *)
Theorem new_profile_devices devices devices0 :
  let p := new_profile devices devices0 in
  p !! int_key 0 = Some keyboard_device ∧
  (∀ h, h ≠ 0 →
     p !! int_key h =
     match last (filter (fun d => InputRepeat.dev_hardware_id d = h ∧
                                  InputRepeat.dev_is_virtual d = false)
                        devices) with
     | Some d => Some (mkDevice (InputRepeat.dev_name d) h
                                (InputRepeat.dev_windows_id d) Joystick_type)
     | None => devices0 !! int_key h
     end) ∧
  (∀ a b, p !! tuple_key a b = devices0 !! tuple_key a b).
Proof.
  simpl. unfold new_profile. simpl.
  destruct (new_profile_fold
              (filter (fun entry => InputRepeat.dev_is_virtual entry = false)
                      devices) devices0) as [H1 H2].
  split_and!.
  - by rewrite lookup_insert_eq.
  - intros h Hh. rewrite lookup_insert_ne by congruence.
    rewrite H1. by rewrite list_filter_filter.
  - intros a b. rewrite lookup_insert_ne by done. apply H2.
Qed.

Lemma new_profile_devices_witness :
  new_profile [InputRepeat.stick; InputRepeat.vjoy] ∅ !! int_key 1 =
    Some (mkDevice "stick" 1 7 Joystick_type) ∧
  new_profile [InputRepeat.stick; InputRepeat.vjoy] ∅ !! int_key 2 = None.
Proof.
  destruct (new_profile_devices [InputRepeat.stick; InputRepeat.vjoy] ∅)
    as (_ & H & _).
  split; [exact (H 1 ltac:(discriminate))|exact (H 2 ltac:(discriminate))].
Defined.

(** ** Sanitizing a loaded profile *)

Section WithKey.
Variable key : Device → Key.

Lemma profile_devices_fold (l : list Device) (acc : gmap Key string) k :
  is_Some (fold_left
             (fun acc device =>
                if decide (device_hardware_id device = 0) then acc
                else <[key device := name device]> acc) l acc !! k) ↔
  is_Some (acc !! k) ∨
  ∃ device, device ∈ l ∧ device_hardware_id device ≠ 0 ∧ key device = k.
Proof.
  revert acc. induction l as [|d l IH]; intros acc; simpl.
  - split; [by left|]. intros [?|(d & Hd & _)]; [done|].
    by apply elem_of_nil in Hd.
  - rewrite IH. case_decide as Hz.
    + split.
      * intros [?|(d' & Hd' & ?)]; [by left|right].
        exists d'. split; [by right|done].
      * intros [?|(d' & Hd' & Hnz & Hk)]; [by left|].
        apply elem_of_cons in Hd' as [->|Hd']; [done|].
        right. by exists d'.
    + split.
      * intros [Hs|(d' & Hd' & ?)].
        -- destruct (decide (key d = k)) as [<-|Hne].
           ++ right. exists d. split; [left|done].
           ++ left. by rewrite lookup_insert_ne in Hs.
        -- right. exists d'. split; [by right|done].
      * intros [Hs|(d' & Hd' & Hnz & Hk)].
        -- left. destruct (decide (key d = k)) as [<-|Hne].
           ++ by rewrite lookup_insert_eq.
           ++ by rewrite lookup_insert_ne.
        -- apply elem_of_cons in Hd' as [->|Hd'].
           ++ left. subst k. by rewrite lookup_insert_eq.
           ++ right. by exists d'.
Qed.

(** The keys of [profile_devices]: the keys of the devices of the profile
    that are not the keyboard. *)
Lemma profile_devices_lookup (profile_data : gmap Key Device) k :
  is_Some (profile_devices key profile_data !! k) ↔
  ∃ k0 device, profile_data !! k0 = Some device ∧
               device_hardware_id device ≠ 0 ∧ key device = k.
Proof.
  unfold profile_devices. rewrite profile_devices_fold. split.
  - intros [Hs|(d & Hd & Hnz & Hk)].
    + rewrite lookup_empty in Hs. by destruct Hs.
    + apply list_elem_of_fmap in Hd as ([k0 d'] & -> & Hin).
      apply elem_of_map_to_list in Hin. by exists k0, d'.
  - intros (k0 & d & Hl & Hnz & Hk). right. exists d. split; [|done].
    apply list_elem_of_fmap. exists (k0, d). split; [done|].
    by apply elem_of_map_to_list.
Qed.

(** The keys of [physical_devices]: the pairs of the physical devices. *)
Lemma physical_devices_lookup (devices : list InputRepeat.Device) k :
  is_Some (physical_devices devices !! k) ↔
  ∃ device, device ∈ devices ∧ InputRepeat.dev_is_virtual device = false ∧
            k = tuple_key (InputRepeat.dev_hardware_id device)
                          (InputRepeat.dev_windows_id device).
Proof.
  unfold physical_devices.
  assert (∀ acc : gmap Key string,
            is_Some (fold_left
               (fun acc device =>
                  if InputRepeat.dev_is_virtual device then acc
                  else <[tuple_key (InputRepeat.dev_hardware_id device)
                                   (InputRepeat.dev_windows_id device)
                         := InputRepeat.dev_name device]> acc)
               devices acc !! k) ↔
            is_Some (acc !! k) ∨
            ∃ device, device ∈ devices ∧
                      InputRepeat.dev_is_virtual device = false ∧
                      k = tuple_key (InputRepeat.dev_hardware_id device)
                                    (InputRepeat.dev_windows_id device)) as H.
  { induction devices as [|d l IH]; intros acc; simpl.
    - split; [by left|]. intros [?|(d & Hd & _)]; [done|].
      by apply elem_of_nil in Hd.
    - rewrite IH. destruct (InputRepeat.dev_is_virtual d) eqn:Hv.
      + split.
        * intros [?|(d' & Hd' & ?)]; [by left|right].
          exists d'. split; [by right|done].
        * intros [?|(d' & Hd' & Hnv & Hk)]; [by left|].
          apply elem_of_cons in Hd' as [->|Hd']; [congruence|].
          right. by exists d'.
      + split.
        * intros [Hs|(d' & Hd' & ?)].
          -- destruct (decide (tuple_key (InputRepeat.dev_hardware_id d)
                                         (InputRepeat.dev_windows_id d) = k))
               as [<-|Hne].
             ++ right. exists d. split; [left|done].
             ++ left. by rewrite lookup_insert_ne in Hs.
          -- right. exists d'. split; [by right|done].
        * intros [Hs|(d' & Hd' & Hnv & Hk)].
          -- left. destruct (decide (tuple_key (InputRepeat.dev_hardware_id d)
                                         (InputRepeat.dev_windows_id d) = k))
               as [<-|Hne].
             ++ by rewrite lookup_insert_eq.
             ++ by rewrite lookup_insert_ne.
          -- apply elem_of_cons in Hd' as [->|Hd'].
             ++ left. subst k. by rewrite lookup_insert_eq.
             ++ right. by exists d'. }
  rewrite H. rewrite lookup_empty. split; [|by right].
  intros [Hs|?]; [by destruct Hs|done].
Qed.

(** The third loop, for any dict of keys to go through. *)
Lemma sanitize_fold (physical names : gmap Key string)
    (profile_data : gmap Key Device) :
  let r := map_fold
             (fun dev_id (dev_name : string) acc =>
                match acc with
                | inl e => inl e
                | inr d =>
                    if decide (physical !! dev_id = None) then del dev_id d
                    else inr d
                end)
             (inr profile_data) names in
  ((∃ k, is_Some (names !! k) ∧ physical !! k = None ∧
         profile_data !! k = None) → r = inl KeyError) ∧
  ((∀ k, is_Some (names !! k) → physical !! k = None →
         is_Some (profile_data !! k)) →
   r = inr (filter (fun kd : Key * Device =>
                      ¬ (is_Some (names !! kd.1) ∧ physical !! kd.1 = None))
                   profile_data)).
Proof.
  simpl.
  enough (∀ names, (fun r (names : gmap Key string) =>
              (r = inl KeyError ∨
               r = inr (filter (fun kd : Key * Device =>
                          ¬ (is_Some (names !! kd.1) ∧
                             physical !! kd.1 = None)) profile_data)) ∧
              ((∃ k, is_Some (names !! k) ∧ physical !! k = None ∧
                     profile_data !! k = None) → r = inl KeyError) ∧
              ((∀ k, is_Some (names !! k) → physical !! k = None →
                     is_Some (profile_data !! k)) →
               r = inr (filter (fun kd : Key * Device =>
                          ¬ (is_Some (names !! kd.1) ∧
                             physical !! kd.1 = None)) profile_data)))
            (map_fold
               (fun dev_id (dev_name : string) acc =>
                  match acc with
                  | inl e => inl e
                  | inr d =>
                      if decide (physical !! dev_id = None) then del dev_id d
                      else inr d
                  end) (inr profile_data) names) names) as H.
  { destruct (H names) as (_ & H1 & H2). by split. }
  apply (map_fold_weak_ind
           (fun r names =>
              (r = inl KeyError ∨
               r = inr (filter (fun kd : Key * Device =>
                          ¬ (is_Some (names !! kd.1) ∧
                             physical !! kd.1 = None)) profile_data)) ∧
              ((∃ k, is_Some (names !! k) ∧ physical !! k = None ∧
                     profile_data !! k = None) → r = inl KeyError) ∧
              ((∀ k, is_Some (names !! k) → physical !! k = None →
                     is_Some (profile_data !! k)) →
               r = inr (filter (fun kd : Key * Device =>
                          ¬ (is_Some (names !! kd.1) ∧
                             physical !! kd.1 = None)) profile_data)))).
  - assert (filter (fun kd : Key * Device =>
              ¬ (is_Some ((∅ : gmap Key string) !! kd.1) ∧
                 physical !! kd.1 = None)) profile_data = profile_data) as ->.
    { apply map_filter_id. intros k d _ [Hs _]. simpl in Hs.
      rewrite lookup_empty in Hs. by destruct Hs. }
    split_and!; [by right| |done].
    intros (k & Hs & _). rewrite lookup_empty in Hs. by destruct Hs.
  - intros i x m r Hi (Hr & Hbad & Hgood). cbv beta.
    assert (∀ k, is_Some (<[i:=x]> m !! k) ↔ k = i ∨ is_Some (m !! k)) as Hin.
    { intros k. destruct (decide (i = k)) as [->|Hne].
      - rewrite lookup_insert_eq. split; [by left|by eexists].
      - rewrite lookup_insert_ne by done. split; [by right|].
        by intros [->|?]. }
    set (keep := fun names : gmap Key string =>
           filter (fun kd : Key * Device =>
                     ¬ (is_Some (names !! kd.1) ∧ physical !! kd.1 = None))
                  profile_data) in *.
    assert (physical !! i ≠ None → keep (<[i:=x]> m) = keep m) as Hsame.
    { intros Hp. apply map_filter_ext. intros k d _. simpl.
      destruct (decide (i = k)) as [<-|Hne].
      - split; intros _ [_ ?]; done.
      - by rewrite lookup_insert_ne. }
    assert (physical !! i = None →
            delete i (keep m) = keep (<[i:=x]> m)) as Hdel.
    { intros Hp. apply map_eq. intros k.
      destruct (decide (i = k)) as [<-|Hne].
      - rewrite lookup_delete_eq. symmetry. apply map_lookup_filter_None.
        right. intros d _ H. apply H. simpl. split; [|done].
        apply Hin. by left.
      - rewrite lookup_delete_ne by done. unfold keep.
        rewrite !map_lookup_filter. destruct (profile_data !! k) as [d|];
          [|done]. simpl.
        apply option_guard_iff. by rewrite lookup_insert_ne. }
    assert (physical !! i = None → keep m !! i = profile_data !! i) as Hki.
    { intros Hp. unfold keep. rewrite map_lookup_filter.
      destruct (profile_data !! i) as [d|]; [|done]. simpl.
      rewrite option_guard_True; [done|]. simpl. intros [Hs _].
      rewrite Hi in Hs. by destruct Hs. }
    unfold keep in *. clear keep.
    split_and!.
    + destruct Hr as [-> | ->]; [by left|].
      case_decide as Hp; [|right; by rewrite Hsame].
      unfold del. rewrite (Hki Hp).
      destruct (profile_data !! i); [right; by rewrite Hdel|by left].
    + intros (k & Hs & Hn & Hnone).
      destruct Hr as [-> | ->]; [done|].
      apply Hin in Hs as [->|Hs].
      * rewrite decide_True by done. unfold del. by rewrite (Hki Hn), Hnone.
      * exfalso. specialize (Hbad (ex_intro _ k (conj Hs (conj Hn Hnone)))).
        done.
    + intros Hall.
      rewrite Hgood by (intros k Hs; apply Hall, Hin; by right).
      case_decide as Hp; [|by rewrite Hsame].
      unfold del. rewrite (Hki Hp).
      destruct (Hall i) as [d ->]; [apply Hin; by left|done|].
      by rewrite Hdel.
Qed.

(** X18.  When every device of the profile is stored under its own key,
    [_sanitize_profile] raises nothing and keeps exactly the devices with
    the hardware id 0, which is the keyboard, and those whose key is the
    pair [(hardware_id, windows_id)] of a physical device of the window;
    every other device is deleted, and the devices that stay are
    unchanged. *)
Theorem sanitize_keeps_connected devices profile_data :
  keyed key profile_data →
  ∃ r, _sanitize_profile key devices profile_data = inr r ∧
       ∀ k device,
         r !! k = Some device ↔
         profile_data !! k = Some device ∧
         (device_hardware_id device = 0 ∨
          ∃ dev, dev ∈ devices ∧ InputRepeat.dev_is_virtual dev = false ∧
                 k = tuple_key (InputRepeat.dev_hardware_id dev)
                               (InputRepeat.dev_windows_id dev)).
Proof.
  intros Hkeyed.
  destruct (sanitize_fold (physical_devices devices)
              (profile_devices key profile_data) profile_data) as [_ Hgood].
  eexists. split.
  - apply Hgood. intros k Hs _.
    apply profile_devices_lookup in Hs as (k0 & d & Hl & _ & Hk).
    rewrite <- Hk, (Hkeyed _ _ Hl). by eexists.
  - intros k device. rewrite map_lookup_filter_Some. simpl.
    rewrite profile_devices_lookup, <- physical_devices_lookup.
    split; intros [Hl H]; (split; [done|]).
    + destruct (decide (device_hardware_id device = 0)) as [?|Hnz];
        [by left|right].
      destruct (physical_devices devices !! k) eqn:Hp; [by eexists|].
      exfalso. apply H. split; [|done].
      exists k, device. split_and!; [done|done|by apply Hkeyed].
    + intros [(k0 & d & Hl0 & Hnz & Hk) Hn].
      assert (k0 = k) as -> by (by rewrite <- (Hkeyed _ _ Hl0)).
      assert (d = device) as -> by congruence.
      destruct H as [?|Hs]; [done|]. rewrite Hn in Hs. by destruct Hs.
Qed.

(** X19.  When a device of the profile that is not the keyboard is stored
    under something else than its key, no physical device has that key
    and nothing is stored under it, [_sanitize_profile] raises
    [KeyError]: it deletes by the key of the device, not by the key the
    device is stored under. *)
Theorem sanitize_missing_key devices profile_data k0 device :
  profile_data !! k0 = Some device →
  device_hardware_id device ≠ 0 →
  (∀ dev, dev ∈ devices → InputRepeat.dev_is_virtual dev = false →
          key device ≠ tuple_key (InputRepeat.dev_hardware_id dev)
                                 (InputRepeat.dev_windows_id dev)) →
  profile_data !! key device = None →
  _sanitize_profile key devices profile_data = inl KeyError.
Proof.
  intros Hl Hnz Hphys Hnone.
  destruct (sanitize_fold (physical_devices devices)
              (profile_devices key profile_data) profile_data) as [Hbad _].
  apply Hbad. exists (key device). split_and!; [|  |done].
  - apply profile_devices_lookup. by exists k0, device.
  - destruct (physical_devices devices !! key device) eqn:Hp; [|done].
    exfalso. assert (is_Some (physical_devices devices !! key device)) as Hs
      by (by eexists).
    apply physical_devices_lookup in Hs as (dev & Hin & Hv & Hk).
    by apply (Hphys dev).
Qed.

End WithKey.

Lemma sanitize_keeps_connected_witness :
  let key := fun d => tuple_key (device_hardware_id d) (windows_id d) in
  let gone := mkDevice "old stick" 5 9 Joystick_type in
  let here := mkDevice "stick" 1 7 Joystick_type in
  let profile_data : gmap Key Device :=
    <[tuple_key 0 0 := keyboard_device]>
      (<[tuple_key 5 9 := gone]> (<[tuple_key 1 7 := here]> ∅)) in
  ∃ r, _sanitize_profile key [InputRepeat.stick; InputRepeat.vjoy]
                         profile_data = inr r ∧
       r !! tuple_key 0 0 = Some keyboard_device ∧
       r !! tuple_key 1 7 = Some here.
Proof.
  intros key gone here profile_data.
  assert (keyed key profile_data) as Hkeyed.
  { intros k d Hl. unfold profile_data in Hl.
    repeat (apply lookup_insert_Some in Hl as [[<- <-]|[_ Hl]]; [done|]).
    by rewrite lookup_empty in Hl. }
  destruct (sanitize_keeps_connected key [InputRepeat.stick; InputRepeat.vjoy]
              profile_data Hkeyed) as (r & Hr & Hiff).
  exists r. split; [exact Hr|]. split.
  - apply Hiff. split; [reflexivity|]. left. reflexivity.
  - apply Hiff. split; [reflexivity|]. right.
    exists InputRepeat.stick. split; [left|]. split; reflexivity.
Defined.

Lemma sanitize_missing_key_witness :
  _sanitize_profile
    (fun d => tuple_key (device_hardware_id d) (windows_id d)) []
    (new_profile [InputRepeat.stick] ∅) = inl KeyError.
Proof.
  apply (sanitize_missing_key _ [] (new_profile [InputRepeat.stick] ∅)
           (int_key 1) (mkDevice "stick" 1 7 Joystick_type)).
  - reflexivity.
  - discriminate.
  - intros dev Hin. by apply elem_of_nil in Hin.
  - reflexivity.
Defined.

End ProfileProps.
